(** * CG-Assignment-1: the frame loop of [main.cpp]

    A shallow embedding of [projects/Assignment 1/src/main.cpp]: the
    window/context initialisation, the scene set-up, the key toggles and the
    per-frame update / sort / draw loop.  Calls into GLFW, GLAD, OpenGL, ImGui
    and the toolkit classes are recorded as a trace of [Call]s; what those
    libraries answer is read from an environment [Env]. *)

From Stdlib Require Import Floats.SpecFloat.
From stdpp Require Import base numbers list gmap strings pretty sorting.

Open Scope Z_scope.

(** ** Handles *)

(** A raw address, as held by a [std::shared_ptr] or a [GLFWwindow*];
    [nullptr] is address 0. *)
Definition ptr : Type := Z.
Definition nullptr : ptr := 0.

(** [entt::entity] identifiers. *)
Definition entity : Type := N.

(** ** Materials and renderer components *)

Module Render.

(** The two fields of [ShaderMaterial] that [main.cpp] reads:
    [Material->Shader] and [Material->RenderLayer]. *)
Record ShaderMaterial : Type := {
  Shader : ptr;
  RenderLayer : Z
}.

(** A [ShaderMaterial::sptr]: the address the pointer holds ([get]) together
    with the object found there ([pointee]).  The frame only reads materials,
    so the pointee is the same at every dereference of one frame. *)
Record ShaderMaterial_sptr : Type := {
  get : ptr;
  pointee : ShaderMaterial
}.

(** [RendererComponent]: a mesh handle paired with a material. *)
Record RendererComponent : Type := {
  Mesh : ptr;
  Material : ShaderMaterial_sptr
}.

(** One entry of [renderGroup]: the entity, its [RendererComponent], and
    (through the entity) its [Transform]. *)
Record Renderable : Type := {
  ent : entity;
  renderer : RendererComponent
}.

Definition layer_of (r : RendererComponent) : Z := RenderLayer (pointee (Material r)).
Definition shader_of (r : RendererComponent) : ptr := Shader (pointee (Material r)).
Definition material_of (r : RendererComponent) : ptr := get (Material r).

(** The lambda handed to [renderGroup.sort<RendererComponent>]
    (main.cpp:823-837), one [if] per source line. *)
Definition RenderLess (l r : RendererComponent) : bool :=
  if layer_of l <? layer_of r then true
  else if layer_of l >? layer_of r then false
  else if shader_of l <? shader_of r then true
  else if shader_of l >? shader_of r then false
  else if material_of l <? material_of r then true
  else if material_of l >? material_of r then false
  else false.

(** The three sort keys of a renderer. *)
Definition key (r : RendererComponent) : Z * Z * Z :=
  (layer_of r, shader_of r, material_of r).

Definition key_eqb (a b : Z * Z * Z) : bool :=
  let '(a1, a2, a3) := a in
  let '(b1, b2, b3) := b in
  (a1 =? b1) && (a2 =? b2) && (a3 =? b3).

(** *** The sort *)

Section StableSort.
Context {A : Type} (less : A → A → bool).

(** Modelled from the spec: the body of [entt::basic_group::sort] is not
    part of [main.cpp]; the spec calls it "a stable sort by three
    integer/pointer keys".  It is taken to be a stable comparison sort
    driven by the comparator it is given: [x] is placed in front of the
    first element that is not strictly less than it. *)
Fixpoint sort_insert (x : A) (l : list A) : list A :=
  match l with
  | [] => [x]
  | y :: l' => if less y x then y :: sort_insert x l' else x :: y :: l'
  end.

Fixpoint stable_sort (l : list A) : list A :=
  match l with
  | [] => []
  | x :: l' => sort_insert x (stable_sort l')
  end.
End StableSort.

(** [renderGroup.sort<RendererComponent>(...)]: the group is reordered by
    comparing the [RendererComponent]s of its entries. *)
Definition sort_renderGroup (g : list Renderable) : list Renderable :=
  stable_sort (λ l r, RenderLess (renderer l) (renderer r)) g.

End Render.

Export Render.

(** ** Components of the registry *)

(** The behaviour scripts of [Behaviours/]. *)
Inductive BehaviourKind : Type :=
| SimpleMoveBehaviour
| FollowPathBehaviour
| CameraControlBehaviour.

Global Instance BehaviourKind_eq_dec : EqDecision BehaviourKind.
Proof. solve_decision. Defined.

(** An [IBehaviour] object: its dynamic type, the [Enabled] flag the frame
    loop tests, and the [Relative] flag of [SimpleMoveBehaviour] (unused by the
    other scripts). *)
Record IBehaviour : Type := {
  kind : BehaviourKind;
  Enabled : bool;
  Relative : bool
}.

(** [Transform]: only the parent link matters to the order of the update
    pass; positions, rotations and matrices are floating point data that no
    control flow of [main.cpp] depends on. *)
Record Transform : Type := {
  parent : option entity
}.

(** The keys that [main.cpp] registers a [KeyPressWatcher] for. *)
Inductive Key : Type :=
| GLFW_KEY_T
| GLFW_KEY_KP_ADD
| GLFW_KEY_KP_SUBTRACT
| GLFW_KEY_Y.

(** A [float], kept as its bit pattern: the frame loop stores and reads
    floats but never branches on one. *)
Definition float32 : Type := Z.

(** A [glm::vec3]: three floats. *)
Definition vec3 : Type := list float32.

(** The value a bit pattern stands for in the IEEE 754 binary32 format, and
    back. *)
Definition float_decode (z : float32) : spec_float :=
  let s := Z.testbit z 31 in
  let e := Z.land (Z.shiftr z 23) 255 in
  let m := Z.land z (2 ^ 23 - 1) in
  if e =? 0 then
    match m with Z.pos p => S754_finite s p (-149) | _ => S754_zero s end
  else if e =? 255 then
    if m =? 0 then S754_infinity s else S754_nan
  else
    match m + 2 ^ 23 with
    | Z.pos p => S754_finite s p (e - 150)
    | _ => S754_nan
    end.

Definition float_encode (f : spec_float) : float32 :=
  match f with
  | S754_zero s => if s then 2 ^ 31 else 0
  | S754_infinity s => (if s then 2 ^ 31 else 0) + 255 * 2 ^ 23
  | S754_nan => 255 * 2 ^ 23 + 2 ^ 22
  | S754_finite s m e =>
      (if s then 2 ^ 31 else 0)
      + (if Z.pos m <? 2 ^ 23 then Z.pos m
         else (e + 150) * 2 ^ 23 + (Z.pos m - 2 ^ 23))
  end.

(** [a < b] and [a + b] on [float]s. *)
Definition float_lt (a b : float32) : bool :=
  SFltb (float_decode a) (float_decode b).

Definition float_add (a b : float32) : float32 :=
  float_encode (SFadd 24 128 (float_decode a) (float_decode b)).

(** [FLT_MAX] *)
Definition FLT_MAX : float32 := 0x7F7FFFFF.

(** ** Calls into the libraries

    Every call that leaves [main.cpp] is recorded, in program order. *)
Inductive Call : Type :=
| Logger_Init
| Logger_Uninitialize
| LOG_ERROR (msg : string)
| glfwInit
| glfwCreateWindow (width height : Z) (title : string)
| glfwMakeContextCurrent (win : ptr)
| glfwSetWindowSizeCallback (win : ptr)
| gladLoadGLLoader
| glfwWindowShouldClose (win : ptr)
| glfwPollEvents
| glfwGetTime
| glfwGetWindowSize (win : ptr)
| glfwSwapBuffers (win : ptr)
| glViewport (x y width height : Z)
| glEnable (cap : string)
| glDebugMessageCallback
| glDepthFunc (func : string)
| glClearColor
| glClearDepth
| glClear
| Shader_Create (var : string)
| Shader_LoadShaderPartFromFile (s : ptr) (path : string)
| Shader_Link (s : ptr)
| Shader_Bind (s : ptr)
| Shader_SetUniform (s : ptr) (name : string)
| Shader_SetUniformMatrix (s : ptr) (name : string)
| Texture_Load (path : string)
| Texture_Create
| Texture_Clear
| ObjLoader_LoadFromFile (path : string)
| MeshBuilder_Bake
| GameScene_RegisterComponentType (name : string)
| GameScene_Create (name : string)
| GameScene_CreateEntity (name : string)
| GameScene_Poll
| ShaderMaterial_Create (var : string)
| ShaderMaterial_Set (m : ptr) (name : string)
| ShaderMaterial_Apply (m : ptr)
| Transform_SetLocal (e : entity)
| Transform_UpdateWorldMatrix (e : entity)
| Transform_WorldTransform (e : entity)
| Transform_WorldNormalMatrix (e : entity)
| Transform_LocalTransform (e : entity)
| Camera_Setup (e : entity)
| Camera_ResizeWindow (e : entity) (width height : Z)
| Camera_ToggleOrtho (e : entity)
| Camera_GetProjection (e : entity)
| IBehaviour_Update (e : entity) (ix : nat) (k : BehaviourKind)
| VertexArrayObject_Render (vao : ptr)
| KeyPressWatcher_Poll (k : Key)
| ImGui_Init
| ImGui_Shutdown
| ImGui_IsAnyWindowFocused
| ImGui_NewFrame
| ImGui_Begin (name : string)
| ImGui_CollapsingHeader (label : string)
| ImGui_ColorPicker3 (label : string)
| ImGui_SliderFloat (label : string)
| ImGui_DragFloat3 (label : string)
| ImGui_DragFloat (label : string)
| ImGui_Button (label : string)
| ImGui_Text (fmt : string)
| ImGui_Text_GameObjectTag (e : entity)
| ImGui_Checkbox (label : string)
| ImGui_PlotLines (label : string)
| ImGui_End
| ImGui_DisplaySize (width height : Z)
| ImGui_Render
| ImGui_PlatformWindows
| Subscript (array : string) (ix : Z) (size : nat).

(** ** What the libraries answer *)

(** What the outside world supplies to one iteration of the game loop. *)
Record FrameInput : Type := {
  (** the window-size events GLFW dispatches during [glfwPollEvents] *)
  size_events : list (Z * Z);
  (** [1.0f / time.DeltaTime] *)
  fps_sample : float32;
  (** [ImGui::IsAnyWindowFocused()] *)
  gui_focused : bool;
  (** whether [KeyPressWatcher::Poll] sees a fresh press of the key *)
  key_fired : Key → bool;
  (** [ImGui::Begin("Debug")] *)
  debug_open : bool;
  (** whether [ImGui::Checkbox] flips the flag it is bound to *)
  checkbox_clicked : bool;
  (** what the ImGui widget with this label returns: a header is open, a
      value was edited, a button was pressed *)
  widget_fired : string → bool;
  (** the value an edited [float] widget leaves in its variable *)
  widget_float : string → float32;
  (** the value an edited [glm::vec3] widget leaves in its variable *)
  widget_vec3 : string → vec3;
  (** what a read of a slot of [fpsBuffer] that was never written yields *)
  stale_memory : nat → float32
}.

Record Env : Type := {
  (** [glfwInit() != GLFW_FALSE] *)
  glfwInit_ok : bool;
  (** the handle [glfwCreateWindow] returns, [nullptr] on failure *)
  glfwCreateWindow_result : ptr;
  (** [gladLoadGLLoader(...) != 0] *)
  gladLoadGLLoader_ok : bool;
  (** the address of the object allocated for a C++ variable (or loaded
      from a file) during set-up; allocation either succeeds or throws, so
      the address is never null *)
  address_of : string → positive;
  (** the value [ShaderMaterial::Create] leaves in [RenderLayer] *)
  default_RenderLayer : Z;
  (** [glfwWindowShouldClose(window)] at the head of iteration [n] *)
  should_close : nat → bool;
  (** the input of iteration [n] *)
  frame_input : nat → FrameInput
}.

(** ** Program state *)

(** The locals of [main] that only the GUI callback (main.cpp:290-387)
    reads and writes. *)
Record GuiLocals : Type := {
  (** [lightPos], [lightCol], [lightAmbientPow], [lightSpecularPow],
      [ambientCol], [ambientPow], [lightLinearFalloff] and
      [lightQuadraticFalloff] (main.cpp:256-263), by name, each as its
      components; a name without an entry is not declared yet *)
  light : gmap string vec3;
  (** [lightoff], [ambientonly], [specularonly], [ambientandspecular] and
      [ambientspeculartoon] (main.cpp:265-269), by name *)
  mode : gmap string Z;
  (** [float minFps, maxFps, avgFps] (main.cpp:235); [None] is not yet
      written *)
  minFps : option float32;
  maxFps : option float32;
  avgFps : option float32
}.

Definition set_light (var : string) (v : vec3) (g : GuiLocals) : GuiLocals :=
  {| light := <[var := v]> (light g); mode := mode g;
     minFps := minFps g; maxFps := maxFps g; avgFps := avgFps g |}.

Definition set_mode (var : string) (v : Z) (g : GuiLocals) : GuiLocals :=
  {| light := light g; mode := <[var := v]> (mode g);
     minFps := minFps g; maxFps := maxFps g; avgFps := avgFps g |}.

Definition set_minFps (v : float32) (g : GuiLocals) : GuiLocals :=
  {| light := light g; mode := mode g;
     minFps := Some v; maxFps := maxFps g; avgFps := avgFps g |}.

Definition set_maxFps (v : float32) (g : GuiLocals) : GuiLocals :=
  {| light := light g; mode := mode g;
     minFps := minFps g; maxFps := Some v; avgFps := avgFps g |}.

Definition set_avgFps (v : float32) (g : GuiLocals) : GuiLocals :=
  {| light := light g; mode := mode g;
     minFps := minFps g; maxFps := maxFps g; avgFps := Some v |}.

Record World : Type := {
  (** the global [GLFWwindow* window] *)
  window : ptr;
  (** the size GLFW holds for the window *)
  window_size : Z * Z;
  (** [int frameIx] *)
  frameIx : Z;
  (** [float fpsBuffer[128]]; [None] is a slot never written *)
  fpsBuffer : list (option float32);
  (** [int selectedVao] *)
  selectedVao : Z;
  (** [std::vector<GameObject> controllables] *)
  controllables : list entity;
  (** the next identifier the registry hands out *)
  next_entity : entity;
  (** the [Transform] pool *)
  transforms : gmap entity Transform;
  (** the [BehaviourBinding] pool: [binding.Behaviours] per entity *)
  bindings : gmap entity (list IBehaviour);
  (** the [Camera] pool *)
  cameras : gset entity;
  (** [renderGroup], in iteration order *)
  renderGroup : list Renderable;
  (** the lighting and FPS-statistics locals of the GUI callback *)
  gui_locals : GuiLocals
}.

Definition set_window (p : ptr) (sz : Z * Z) (w : World) : World :=
  {| window := p; window_size := sz; frameIx := frameIx w;
     fpsBuffer := fpsBuffer w; selectedVao := selectedVao w;
     controllables := controllables w; next_entity := next_entity w;
     transforms := transforms w; bindings := bindings w;
     cameras := cameras w; renderGroup := renderGroup w;
     gui_locals := gui_locals w |}.

Definition set_window_size (sz : Z * Z) (w : World) : World :=
  set_window (window w) sz w.

Definition set_fps (ix : Z) (buf : list (option float32)) (w : World) : World :=
  {| window := window w; window_size := window_size w; frameIx := ix;
     fpsBuffer := buf; selectedVao := selectedVao w;
     controllables := controllables w; next_entity := next_entity w;
     transforms := transforms w; bindings := bindings w;
     cameras := cameras w; renderGroup := renderGroup w;
     gui_locals := gui_locals w |}.

Definition set_selectedVao (ix : Z) (w : World) : World :=
  {| window := window w; window_size := window_size w; frameIx := frameIx w;
     fpsBuffer := fpsBuffer w; selectedVao := ix;
     controllables := controllables w; next_entity := next_entity w;
     transforms := transforms w; bindings := bindings w;
     cameras := cameras w; renderGroup := renderGroup w;
     gui_locals := gui_locals w |}.

Definition set_controllables (l : list entity) (w : World) : World :=
  {| window := window w; window_size := window_size w; frameIx := frameIx w;
     fpsBuffer := fpsBuffer w; selectedVao := selectedVao w;
     controllables := l; next_entity := next_entity w;
     transforms := transforms w; bindings := bindings w;
     cameras := cameras w; renderGroup := renderGroup w;
     gui_locals := gui_locals w |}.

Definition set_registry (n : entity) (ts : gmap entity Transform)
    (bs : gmap entity (list IBehaviour)) (cs : gset entity)
    (g : list Renderable) (w : World) : World :=
  {| window := window w; window_size := window_size w; frameIx := frameIx w;
     fpsBuffer := fpsBuffer w; selectedVao := selectedVao w;
     controllables := controllables w; next_entity := n;
     transforms := ts; bindings := bs; cameras := cs; renderGroup := g;
     gui_locals := gui_locals w |}.

Definition set_bindings (bs : gmap entity (list IBehaviour)) (w : World) : World :=
  set_registry (next_entity w) (transforms w) bs (cameras w) (renderGroup w) w.

Definition set_renderGroup (g : list Renderable) (w : World) : World :=
  set_registry (next_entity w) (transforms w) (bindings w) (cameras w) g w.

Definition set_gui_locals (g : GuiLocals) (w : World) : World :=
  {| window := window w; window_size := window_size w; frameIx := frameIx w;
     fpsBuffer := fpsBuffer w; selectedVao := selectedVao w;
     controllables := controllables w; next_entity := next_entity w;
     transforms := transforms w; bindings := bindings w;
     cameras := cameras w; renderGroup := renderGroup w;
     gui_locals := g |}.

(** The state at the entry of [main]: locals get their initialisers when
    their declaration is reached; [fpsBuffer] is declared without one. *)
Definition World0 : World :=
  {| window := nullptr; window_size := (0, 0); frameIx := 0;
     fpsBuffer := replicate 128 None; selectedVao := 0;
     controllables := []; next_entity := 0%N;
     transforms := ∅; bindings := ∅; cameras := ∅; renderGroup := [];
     gui_locals := {| light := ∅; mode := ∅;
                      minFps := None; maxFps := None; avgFps := None |} |}.

(** ** The monad of [main.cpp]: a trace of calls, a state, and the two ways
    a run can fail to return *)

Inductive result (A : Type) : Type :=
| Done (a : A) (w : World)
| Undefined   (* a null dereference or an index out of range *)
| Running.    (* the fuel ran out inside the game loop *)
Arguments Done {A} a w.
Arguments Undefined {A}.
Arguments Running {A}.

Definition M (A : Type) : Type := World → list Call * result A.

Global Instance M_ret : MRet M := λ A a w, ([], Done a w).

Global Instance M_bind : MBind M := λ A B k m w,
  match m w with
  | (t, Done a w') => let '(t', r) := k a w' in (t ++ t', r)
  | (t, Undefined) => (t, Undefined)
  | (t, Running) => (t, Running)
  end.

Definition call (c : Call) : M unit := λ w, ([c], Done () w).
Definition undefined {A} : M A := λ w, ([], Undefined).
Definition get_world : M World := λ w, ([], Done w w).
Definition modify (f : World → World) : M unit := λ w, ([], Done () (f w)).

Fixpoint for_each {A} (f : A → M unit) (l : list A) : M unit :=
  match l with
  | [] => mret ()
  | x :: l' => f x;; for_each f l'
  end.

(** [p->...]: dereferencing a null pointer is undefined. *)
Definition deref (p : ptr) : M unit :=
  if p =? nullptr then undefined else mret ().

(** The trace and the result of a run. *)
Definition trace_of {A} (r : list Call * result A) : list Call := r.1.
Definition result_of {A} (r : list Call * result A) : result A := r.2.

Definition running {A} : M A := λ w, ([], Running).

(** ** Integer conversions *)

(** [int] is 32 bits wide, [size_t] 64; arithmetic on them wraps. *)
Definition wrap_int (z : Z) : Z := (z + 2 ^ 31) `mod` 2 ^ 32 - 2 ^ 31.
Definition to_size_t (z : Z) : Z := z `mod` 2 ^ 64.

(** ** Initialisation (main.cpp:87-162) *)

(** [GlfwWindowResizedCallback(window, width, height)] *)
Definition GlfwWindowResizedCallback (width height : Z) : M unit :=
  call (glViewport 0 0 width height);;
  w ← get_world;
  for_each (λ cam, call (Camera_ResizeWindow cam width height))
           (elements (cameras w)).

(** [InitGLFW()] *)
Definition InitGLFW (env : Env) : M bool :=
  call glfwInit;;
  if negb (glfwInit_ok env) then
    call (LOG_ERROR "Failed to initialize GLFW");;
    mret false
  else
    call (glfwCreateWindow 800 800 "INFR1350U");;
    modify (set_window (glfwCreateWindow_result env) (800, 800));;
    call (glfwMakeContextCurrent (glfwCreateWindow_result env));;
    call (glfwSetWindowSizeCallback (glfwCreateWindow_result env));;
    mret true.

(** [InitGLAD()] *)
Definition InitGLAD (env : Env) : M bool :=
  call gladLoadGLLoader;;
  if negb (gladLoadGLLoader_ok env) then
    call (LOG_ERROR "Failed to initialize Glad");;
    mret false
  else mret true.

(** [InitImGui()] and [ShutdownImGui()]: straight-line calls into ImGui. *)
Definition InitImGui : M unit := call ImGui_Init.
Definition ShutdownImGui : M unit := call ImGui_Shutdown.

(** ** Drawing (main.cpp:200-220) *)

(** The calls of [RenderVAO(shader, vao, viewProjection, transform)], where
    [transform] is the [Transform] of entity [e]. *)
Definition RenderVAO_calls (shader vao : ptr) (e : entity) : list Call :=
  [ Transform_WorldTransform e;
    Shader_SetUniformMatrix shader "u_ModelViewProjection";
    Transform_WorldTransform e;
    Shader_SetUniformMatrix shader "u_Model";
    Transform_WorldNormalMatrix e;
    Shader_SetUniformMatrix shader "u_NormalMatrix";
    VertexArrayObject_Render vao ].

(** [RenderVAO] itself: the arguments of each call are evaluated before the
    call goes through the pointer. *)
Definition RenderVAO (shader vao : ptr) (e : entity) : M unit :=
  call (Transform_WorldTransform e);;
  deref shader;;
  call (Shader_SetUniformMatrix shader "u_ModelViewProjection");;
  call (Transform_WorldTransform e);;
  call (Shader_SetUniformMatrix shader "u_Model");;
  call (Transform_WorldNormalMatrix e);;
  call (Shader_SetUniformMatrix shader "u_NormalMatrix");;
  deref vao;;
  call (VertexArrayObject_Render vao).

(** [SetupShaderForFrame(shader, view, projection)] *)
Definition SetupShaderForFrame (shader : ptr) : M unit :=
  deref shader;;
  call (Shader_Bind shader);;
  call (Shader_SetUniformMatrix shader "u_View");;
  call (Shader_SetUniformMatrix shader "u_ViewProjection");;
  call (Shader_SetUniformMatrix shader "u_SkyboxMatrix");;
  call (Shader_SetUniform shader "u_CamPos").

(** The body of the lambda of [renderGroup.each] (main.cpp:844-858); the
    captured locals [current] and [currentMat] are threaded through. *)
Definition draw_renderable (st : ptr * ptr) (r : Renderable) : M (ptr * ptr) :=
  let rc := renderer r in
  deref (material_of rc);;
  current ← (if negb (st.1 =? shader_of rc) then
               deref (shader_of rc);;
               call (Shader_Bind (shader_of rc));;
               SetupShaderForFrame (shader_of rc);;
               mret (shader_of rc)
             else mret st.1);
  currentMat ← (if negb (st.2 =? material_of rc) then
                  call (ShaderMaterial_Apply (material_of rc));;
                  mret (material_of rc)
                else mret st.2);
  RenderVAO (shader_of rc) (Mesh rc) (ent r);;
  mret (current, currentMat).

Fixpoint draw_each (st : ptr * ptr) (g : list Renderable) : M unit :=
  match g with
  | [] => mret ()
  | r :: g' => st' ← draw_renderable st r; draw_each st' g'
  end.

(** main.cpp:839-858: [current] and [currentMat] start as [nullptr]. *)
Definition draw_renderGroup : M unit :=
  w ← get_world;
  draw_each (nullptr, nullptr) (renderGroup w).

(** main.cpp:823-837: the group is sorted in place.  The comparator goes
    through [l.Material] and [r.Material]; with two renderables or more every
    one of them is compared at least once. *)
Definition sort_pass : M unit :=
  w ← get_world;
  (if (2 <=? length (renderGroup w))%nat
   then for_each (λ r, deref (material_of (renderer r))) (renderGroup w)
   else mret ());;
  modify (λ w, set_renderGroup (sort_renderGroup (renderGroup w)) w).

(** ** The registry and the toolkit classes used by the set-up *)

(** Modelled from the spec: [GameScene::CreateEntity] is not part of
    [main.cpp]; "entities are rows in an entity-component registry", and
    every caller reads [get<Transform>()] of the fresh entity at once, so the
    entity comes with a parentless [Transform]. *)
Definition CreateEntity (name : string) : M entity := λ w,
  let e := next_entity w in
  ([GameScene_CreateEntity name],
   Done e (set_registry (N.succ e) (<[e := {| parent := None |}]> (transforms w))
             (bindings w) (cameras w) (renderGroup w) w)).

(** [obj.emplace<RendererComponent>().SetMesh(vao).SetMaterial(mat)] *)
Definition emplace_RendererComponent (e : entity) (vao : ptr)
    (mat : ShaderMaterial_sptr) : M unit :=
  modify (λ w, set_renderGroup
    (renderGroup w ++ [{| ent := e; renderer := {| Mesh := vao; Material := mat |} |}]) w).

(** [obj.emplace<Camera>()] *)
Definition emplace_Camera (e : entity) : M unit :=
  modify (λ w, set_registry (next_entity w) (transforms w) (bindings w)
                            ({[ e ]} ∪ cameras w) (renderGroup w) w).

(** Modelled from the spec: [BehaviourBinding] is not part of [main.cpp].
    [Bind<T>(obj)] attaches a fresh script of type [T] to the entity;
    [BindDisabled<T>(obj)] does the same with [Enabled] cleared. *)
Definition Bind (k : BehaviourKind) (enabled : bool) (e : entity) : M unit :=
  modify (λ w, set_bindings
    (<[e := default [] (bindings w !! e)
            ++ [{| kind := k; Enabled := enabled; Relative := false |}]]> (bindings w)) w).

(** Modelled from the spec: [BehaviourBinding::Get<T>(obj)] is not part of
    [main.cpp]; it yields the script of type [T] attached to the entity, and a
    null pointer when there is none. *)
Definition BehaviourBinding_Get (k : BehaviourKind) (bs : list IBehaviour) : option nat :=
  fst <$> list_find (λ b, kind b = k) bs.

(** [BehaviourBinding::Get<T>(e)->field = ...]: the write goes through the
    pointer [Get] returned. *)
Definition update_behaviour (k : BehaviourKind) (e : entity)
    (f : IBehaviour → IBehaviour) : M unit := λ w,
  match bindings w !! e with
  | Some bs =>
      match BehaviourBinding_Get k bs with
      | Some i => ([], Done () (set_bindings (<[e := alter f i bs]> (bindings w)) w))
      | None => ([], Undefined)
      end
  | None => ([], Undefined)
  end.

Definition with_Enabled (v : bool) (b : IBehaviour) : IBehaviour :=
  {| kind := kind b; Enabled := v; Relative := Relative b |}.

Definition flip_Relative (b : IBehaviour) : IBehaviour :=
  {| kind := kind b; Enabled := Enabled b; Relative := negb (Relative b) |}.

(** [controllables[selectedVao]]: the [int] index is converted to [size_t];
    an index past the end is undefined. *)
Definition controllables_at : M entity := λ w,
  let ix := to_size_t (selectedVao w) in
  ([Subscript "controllables" ix (length (controllables w))],
   match controllables w !! Z.to_nat ix with
   | Some e => Done e w
   | None => Undefined
   end).

(** ** Scene set-up (main.cpp:233-760) *)

Definition make_shader (env : Env) (var vert frag : string) : M ptr :=
  let s := Z.pos (address_of env var) in
  call (Shader_Create var);;
  call (Shader_LoadShaderPartFromFile s vert);;
  call (Shader_LoadShaderPartFromFile s frag);;
  call (Shader_Link s);;
  mret s.

Definition make_material (env : Env) (var : string) (shader : ptr)
    (uniforms : list string) : M ShaderMaterial_sptr :=
  let m := Z.pos (address_of env var) in
  call (ShaderMaterial_Create var);;
  for_each (λ u, call (ShaderMaterial_Set m u)) uniforms;;
  mret {| get := m;
          pointee := {| Shader := shader; RenderLayer := default_RenderLayer env |} |}.

Definition with_RenderLayer (n : Z) (m : ShaderMaterial_sptr) : ShaderMaterial_sptr :=
  {| get := get m;
     pointee := {| Shader := Shader (pointee m); RenderLayer := n |} |}.

(** The uniforms every textured material sets (main.cpp:445-515). *)
Definition textured_uniforms : list string :=
  ["s_Diffuse"; "s_Diffuse2"; "s_Specular"; "u_Shininess"; "u_TextureMix"].

(** An entity with a mesh loaded from [model] (bound to the C++ variable
    [vao] of block [var]), a material and a local position, rotation and
    scale. *)
Definition make_object (env : Env) (name var model : string)
    (mat : ShaderMaterial_sptr) : M entity :=
  e ← CreateEntity name;
  call (ObjLoader_LoadFromFile model);;
  emplace_RendererComponent e (Z.pos (address_of env (var +:+ ".vao"))) mat;;
  call (Transform_SetLocal e);;
  call (Transform_SetLocal e);;
  call (Transform_SetLocal e);;
  mret e.

(** main.cpp:635-647: [NUM_TREES / 2] trees share one mesh and material. *)
Definition NUM_TREES : Z := 25.

Definition make_tree (vao : ptr) (mat : ShaderMaterial_sptr) (i : nat) : M unit :=
  e ← CreateEntity ("simplePine" +:+ pretty (i + 1)%nat);
  emplace_RendererComponent e vao mat;;
  call (Transform_SetLocal e);;
  call (Transform_SetLocal e);;
  call (Transform_SetLocal e).

Definition scene_uniforms : list string :=
  ["u_LightPos"; "u_LightCol"; "u_AmbientLightStrength";
   "u_SpecularLightStrength"; "u_AmbientCol"; "u_AmbientStrength";
   "u_LightAttenuationConstant"; "u_LightAttenuationLinear";
   "u_LightAttenuationQuadratic"; "u_lightoff"; "u_ambient"; "u_specular";
   "u_ambientspecular"; "u_ambientspeculartoon"].

Definition texture_files : list string :=
  ["images/Stone_001_Diffuse.png"; "images/grass.jpg"; "images/Dunce.png";
   "images/Duncet.png"; "images/Slide.png"; "images/Swing.png";
   "images/Table.png"; "images/TreeBig.png"; "images/BalloonRed.png";
   "images/BalloonYellow.png"; "images/box.bmp";
   "images/Stone_001_Specular.png"; "images/box-reflections.bmp";
   "images/cubemaps/skybox/ocean.jpg"].

(** The handles of the set-up that the rest of [main] keeps using. *)
Record Scene : Type := {
  (** [Shader::sptr shader] (main.cpp:251), captured by the GUI callback *)
  shader : ptr;
  objDunce : entity;
  objDuncet : entity;
  cameraObject : entity
}.

(** The initialisers of main.cpp:256-269, as bit patterns. *)
Definition lighting_defaults : GuiLocals → GuiLocals :=
  set_mode "ambientspeculartoon" 0 ∘ set_mode "ambientandspecular" 0
  ∘ set_mode "specularonly" 0 ∘ set_mode "ambientonly" 0 ∘ set_mode "lightoff" 0
  ∘ set_light "lightQuadraticFalloff" [0x3D03126F]
  ∘ set_light "lightLinearFalloff" [0x3C1374BC]
  ∘ set_light "ambientPow" [0x3DCCCCCD]
  ∘ set_light "ambientCol" [0x3F800000; 0x3F800000; 0x3F800000]
  ∘ set_light "lightSpecularPow" [0x3F800000]
  ∘ set_light "lightAmbientPow" [0x3F333333]
  ∘ set_light "lightCol" [0x3F666666; 0x3F59999A; 0x3F000000]
  ∘ set_light "lightPos" [0; 0; 0x40000000].

Definition scene_setup (env : Env) : M Scene :=
  (* main.cpp:239-244 *)
  call (glEnable "GL_DEBUG_OUTPUT");;
  call glDebugMessageCallback;;
  call (glEnable "GL_TEXTURE_2D");;
  (* main.cpp:250-286 *)
  shader ← make_shader env "shader" "shaders/vertex_shader.glsl"
                       "shaders/frag_blinn_phong_textured.glsl";
  modify (λ w, set_gui_locals (lighting_defaults (gui_locals w)) w);;
  for_each (λ u, call (Shader_SetUniform shader u)) scene_uniforms;;
  (* main.cpp:391-424 *)
  call (glEnable "GL_DEPTH_TEST");;
  call (glEnable "GL_CULL_FACE");;
  call (glDepthFunc "GL_LEQUAL");;
  for_each (λ f, call (Texture_Load f)) texture_files;;
  call Texture_Create;;
  call Texture_Clear;;
  (* main.cpp:432-442 *)
  call (GameScene_RegisterComponentType "RendererComponent");;
  call (GameScene_RegisterComponentType "BehaviourBinding");;
  call (GameScene_RegisterComponentType "Camera");;
  call (GameScene_Create "test");;
  (* main.cpp:445-515 *)
  materialGround ← make_material env "materialGround" shader textured_uniforms;
  materialDunce ← make_material env "materialDunce" shader textured_uniforms;
  materialDuncet ← make_material env "materialDuncet" shader textured_uniforms;
  materialSlide ← make_material env "materialSlide" shader textured_uniforms;
  materialSwing ← make_material env "materialSwing" shader textured_uniforms;
  materialTable ← make_material env "materialTable" shader textured_uniforms;
  materialTreeBig ← make_material env "materialTreeBig" shader textured_uniforms;
  materialredballoon ← make_material env "materialredballoon" shader textured_uniforms;
  materialyellowballoon ← make_material env "materialyellowballoon" shader textured_uniforms;
  (* main.cpp:518-553 *)
  reflectiveShader ← make_shader env "reflectiveShader" "shaders/vertex_shader.glsl"
                                 "shaders/frag_reflection.frag.glsl";
  reflective ← make_shader env "reflective" "shaders/vertex_shader.glsl"
                           "shaders/frag_blinn_phong_reflection.glsl";
  material1 ← make_material env "material1" reflective
    ["s_Diffuse"; "s_Diffuse2"; "s_Specular"; "s_Reflectivity"; "s_Environment";
     "u_LightPos"; "u_LightCol"; "u_AmbientLightStrength";
     "u_SpecularLightStrength"; "u_AmbientCol"; "u_AmbientStrength";
     "u_LightAttenuationConstant"; "u_LightAttenuationLinear";
     "u_LightAttenuationQuadratic"; "u_Shininess"; "u_TextureMix";
     "u_EnvironmentRotation"];
  reflectiveMat ← make_material env "reflectiveMat" reflectiveShader
    ["s_Environment"; "u_EnvironmentRotation"];
  (* main.cpp:555-632 *)
  objGround ← make_object env "Ground" "objGround" "models/Ground.obj" materialGround;
  Bind SimpleMoveBehaviour false objGround;;
  objDunce ← make_object env "Dunce" "objDunce" "models/Dunce.obj" materialDunce;
  Bind SimpleMoveBehaviour false objDunce;;
  objDuncet ← make_object env "Duncet" "objDuncet" "models/Duncet.obj" materialDuncet;
  Bind SimpleMoveBehaviour false objDuncet;;
  objSlide ← make_object env "Slide" "objSlide" "models/Slide.obj" materialSlide;
  Bind SimpleMoveBehaviour false objSlide;;
  objRedBalloon ← make_object env "Redballoon" "objRedBalloon" "models/Balloon.obj"
                              materialredballoon;
  Bind SimpleMoveBehaviour false objRedBalloon;;
  Bind FollowPathBehaviour true objRedBalloon;;
  objYellowBalloon ← make_object env "Yellowballoon" "objYellowBalloon"
                                 "models/Balloon.obj" materialyellowballoon;
  Bind SimpleMoveBehaviour false objYellowBalloon;;
  Bind FollowPathBehaviour true objYellowBalloon;;
  (* main.cpp:635-647 *)
  call (ObjLoader_LoadFromFile "models/TreeBig.obj");;
  for_each (make_tree (Z.pos (address_of env "randomTrees.vao")) materialTreeBig)
           (seq 0 (Z.to_nat (NUM_TREES `quot` 2)));;
  (* main.cpp:649-683 *)
  objSwing ← make_object env "Swing" "objSwing" "models/Swing.obj" materialSwing;
  Bind SimpleMoveBehaviour false objSwing;;
  objTable ← make_object env "table" "objTable" "models/Table.obj" materialTable;
  (* main.cpp:686-698 *)
  cameraObject ← CreateEntity "Camera";
  call (Transform_SetLocal cameraObject);;
  emplace_Camera cameraObject;;
  call (Camera_Setup cameraObject);;
  Bind CameraControlBehaviour true cameraObject;;
  (* main.cpp:704-725 *)
  skybox ← make_shader env "skybox" "shaders/skybox-shader.vert.glsl"
                       "shaders/skybox-shader.frag.glsl";
  skyboxMat ← make_material env "skyboxMat" skybox
    ["s_Environment"; "u_EnvironmentRotation"];
  call MeshBuilder_Bake;;
  skyboxObj ← CreateEntity "skybox";
  call (Transform_SetLocal skyboxObj);;
  emplace_RendererComponent skyboxObj (Z.pos (address_of env "meshVao"))
                            (with_RenderLayer 100 skyboxMat);;
  (* main.cpp:738-739 *)
  modify (λ w, set_controllables (controllables w ++ [objDunce]) w);;
  modify (λ w, set_controllables (controllables w ++ [objDuncet]) w);;
  mret {| shader := shader; objDunce := objDunce; objDuncet := objDuncet;
          cameraObject := cameraObject |}.

(** ** Key toggles (main.cpp:729-760) *)

Definition toggle_T (sc : Scene) : M unit :=
  call (Camera_ToggleOrtho (cameraObject sc)).

Definition toggle_KP_ADD : M unit :=
  e ← controllables_at;
  update_behaviour SimpleMoveBehaviour e (with_Enabled false);;
  modify (λ w, set_selectedVao (wrap_int (selectedVao w + 1)) w);;
  w ← get_world;
  (if to_size_t (selectedVao w) >=? Z.of_nat (length (controllables w))
   then modify (set_selectedVao 0) else mret ());;
  e ← controllables_at;
  update_behaviour SimpleMoveBehaviour e (with_Enabled true).

Definition toggle_KP_SUBTRACT : M unit :=
  e ← controllables_at;
  update_behaviour SimpleMoveBehaviour e (with_Enabled false);;
  modify (λ w, set_selectedVao (wrap_int (selectedVao w - 1)) w);;
  w ← get_world;
  (if selectedVao w <? 0
   then modify (set_selectedVao
                  (wrap_int (to_size_t (Z.of_nat (length (controllables w)) - 1))))
   else mret ());;
  e ← controllables_at;
  update_behaviour SimpleMoveBehaviour e (with_Enabled true).

Definition toggle_Y : M unit :=
  e ← controllables_at;
  update_behaviour SimpleMoveBehaviour e flip_Relative.

(** [keyToggles], in [emplace_back] order. *)
Definition keyToggles (sc : Scene) : list (Key * M unit) :=
  [ (GLFW_KEY_T, toggle_T sc);
    (GLFW_KEY_KP_ADD, toggle_KP_ADD);
    (GLFW_KEY_KP_SUBTRACT, toggle_KP_SUBTRACT);
    (GLFW_KEY_Y, toggle_Y) ].

(** Modelled from the spec: [KeyPressWatcher::Poll] is not part of
    [main.cpp]; a "key-toggle binding" runs its callback when the key is
    freshly pressed. *)
Definition KeyPressWatcher_poll (inp : FrameInput) (kw : Key * M unit) : M unit :=
  call (KeyPressWatcher_Poll kw.1);;
  if key_fired inp kw.1 then kw.2 else mret ().

(** ** The GUI (main.cpp:164-198 and 290-387) *)

(** [shader->SetUniform(name, ...)] on the captured [shader]. *)
Definition set_uniform (sc : Scene) (name : string) : M unit :=
  deref (shader sc);;
  call (Shader_SetUniform (shader sc) name).

(** [if (ImGui::CollapsingHeader(label)) { body }] *)
Definition collapsing_header (inp : FrameInput) (label : string) (body : M unit)
    : M unit :=
  call (ImGui_CollapsingHeader label);;
  if widget_fired inp label then body else mret ().

(** [if (ImGui::W(label, &var, ...)) shader->SetUniform(uniform, var)] for a
    widget [W] that edits a [float]: ImGui writes [var] before it reports the
    edit. *)
Definition float_widget (sc : Scene) (inp : FrameInput) (W : string → Call)
    (label var uniform : string) : M unit :=
  call (W label);;
  if widget_fired inp label then
    modify (λ w, set_gui_locals
                   (set_light var [widget_float inp label] (gui_locals w)) w);;
    set_uniform sc uniform
  else mret ().

(** The same for a widget that edits a [glm::vec3]. *)
Definition vec3_widget (sc : Scene) (inp : FrameInput) (W : string → Call)
    (label var uniform : string) : M unit :=
  call (W label);;
  if widget_fired inp label then
    modify (λ w, set_gui_locals
                   (set_light var (widget_vec3 inp label) (gui_locals w)) w);;
    set_uniform sc uniform
  else mret ().

(** [shader->SetUniform(uniform, var = v)] *)
Definition set_mode_uniform (sc : Scene) (uvv : string * string * Z) : M unit :=
  deref (shader sc);;
  modify (λ w, set_gui_locals (set_mode uvv.1.2 uvv.2 (gui_locals w)) w);;
  call (Shader_SetUniform (shader sc) uvv.1.1).

(** [if (ImGui::Button(label)) { ... }]: the five shading-mode uniforms,
    the one at position [on] set to 1 and the others to 0. *)
Definition mode_uniforms (on : nat) : list (string * string * Z) :=
  imap (λ i uv, (uv, if (i =? on)%nat then 1 else 0))
       [ ("u_lightoff", "lightoff"); ("u_ambient", "ambientonly");
         ("u_specular", "specularonly");
         ("u_ambientspecular", "ambientandspecular");
         ("u_ambientspeculartoon", "ambientspeculartoon") ].

Definition mode_button (sc : Scene) (inp : FrameInput) (label : string)
    (on : nat) : M unit :=
  call (ImGui_Button label);;
  if widget_fired inp label
  then for_each (set_mode_uniform sc) (mode_uniforms on)
  else mret ().

(** main.cpp:291-368 *)
Definition lighting_widgets (sc : Scene) (inp : FrameInput) : M unit :=
  collapsing_header inp "Scene Level Lighting Settings"
    (vec3_widget sc inp ImGui_ColorPicker3 "Ambient Color" "ambientCol"
                 "u_AmbientCol";;
     float_widget sc inp ImGui_SliderFloat "Fixed Ambient Power" "ambientPow"
                  "u_AmbientStrength");;
  collapsing_header inp "Light Level Lighting Settings"
    (vec3_widget sc inp ImGui_DragFloat3 "Light Pos" "lightPos" "u_LightPos";;
     vec3_widget sc inp ImGui_ColorPicker3 "Light Col" "lightCol" "u_LightCol";;
     float_widget sc inp ImGui_SliderFloat "Light Ambient Power"
                  "lightAmbientPow" "u_AmbientLightStrength";;
     float_widget sc inp ImGui_SliderFloat "Light Specular Power"
                  "lightSpecularPow" "u_SpecularLightStrength";;
     float_widget sc inp ImGui_DragFloat "Light Linear Falloff"
                  "lightLinearFalloff" "u_LightAttenuationLinear";;
     float_widget sc inp ImGui_DragFloat "Light Quadratic Falloff"
                  "lightQuadraticFalloff" "u_LightAttenuationQuadratic");;
  collapsing_header inp "Toggle buttons"
    (mode_button sc inp "No Lighting" 0;;
     mode_button sc inp "Ambient only" 1;;
     mode_button sc inp "specular only" 2;;
     mode_button sc inp "Ambient and Specular" 3;;
     mode_button sc inp "Ambient, Specular, and Toon Shading" 4).

(** [fpsBuffer[ix]] as an rvalue: the array has 128 elements; a slot that
    was never written holds whatever the memory held. *)
Definition fpsBuffer_read (inp : FrameInput) (ix : Z) : M float32 := λ w,
  ([Subscript "fpsBuffer" ix 128],
   if (0 <=? ix) && (ix <? 128)
   then Done (match fpsBuffer w !! Z.to_nat ix with
              | Some (Some v) => v
              | _ => stale_memory inp (Z.to_nat ix)
              end) w
   else Undefined).

(** The body of the loop of main.cpp:380-384. *)
Definition fps_stats_step (inp : FrameInput) (ix : Z) : M unit :=
  v ← fpsBuffer_read inp ix;
  w ← get_world;
  (if float_lt v (default 0 (minFps (gui_locals w))) then
     v' ← fpsBuffer_read inp ix;
     modify (λ w, set_gui_locals (set_minFps v' (gui_locals w)) w)
   else mret ());;
  v ← fpsBuffer_read inp ix;
  w ← get_world;
  (if float_lt (default 0 (maxFps (gui_locals w))) v then
     v' ← fpsBuffer_read inp ix;
     modify (λ w, set_gui_locals (set_maxFps v' (gui_locals w)) w)
   else mret ());;
  v ← fpsBuffer_read inp ix;
  modify (λ w, set_gui_locals
                 (set_avgFps (float_add (default 0 (avgFps (gui_locals w))) v)
                             (gui_locals w)) w).

(** main.cpp:377-384 *)
Definition fps_stats (inp : FrameInput) : M unit :=
  modify (λ w, set_gui_locals (set_minFps FLT_MAX (gui_locals w)) w);;
  modify (λ w, set_gui_locals (set_maxFps 0 (gui_locals w)) w);;
  modify (λ w, set_gui_locals (set_avgFps 0 (gui_locals w)) w);;
  for_each (fps_stats_step inp) (Z.of_nat <$> seq 0 128).

(** The one entry of [imGuiCallbacks] (main.cpp:290-387). *)
Definition debug_gui (sc : Scene) (inp : FrameInput) : M unit :=
  lighting_widgets sc inp;;
  e ← controllables_at;
  call (ImGui_Text_GameObjectTag e);;
  e ← controllables_at;
  call (ImGui_Checkbox "Relative Rotation");;
  update_behaviour SimpleMoveBehaviour e
    (if checkbox_clicked inp then flip_Relative else id);;
  call (ImGui_Text "Q/E -> Yaw\nLeft/Right -> Roll\nUp/Down -> Pitch\nY -> Toggle Mode");;
  fps_stats inp;;
  call (ImGui_PlotLines "FPS");;
  call (ImGui_Text "MIN: %f MAX: %f AVG: %f").

Definition imGuiCallbacks (sc : Scene) (inp : FrameInput) : list (M unit) :=
  [debug_gui sc inp].

(** [RenderImGui()]; [InitImGui] has set [ImGuiConfigFlags_ViewportsEnable],
    so the last branch is always taken. *)
Definition RenderImGui (sc : Scene) (inp : FrameInput) : M unit :=
  call ImGui_NewFrame;;
  call (ImGui_Begin "Debug");;
  (if debug_open inp then
     for_each (λ func, func) (imGuiCallbacks sc inp);;
     call ImGui_End
   else mret ());;
  w ← get_world;
  call (glfwGetWindowSize (window w));;
  call (ImGui_DisplaySize (window_size w).1 (window_size w).2);;
  call ImGui_Render;;
  call ImGui_PlatformWindows;;
  call (glfwMakeContextCurrent (window w)).

(** ** One iteration of the game loop (main.cpp:770-865) *)

(** [glfwPollEvents()]: GLFW hands every pending window-size event to the
    callback registered by [InitGLFW]. *)
Definition PollEvents (inp : FrameInput) : M unit :=
  call glfwPollEvents;;
  for_each (λ sz : Z * Z,
              modify (set_window_size sz);;
              GlfwWindowResizedCallback sz.1 sz.2)
           (size_events inp).

(** main.cpp:779: [fpsBuffer[frameIx] = 1.0f / time.DeltaTime] *)
Definition fpsBuffer_store (v : float32) : M unit := λ w,
  let ix := frameIx w in
  ([Subscript "fpsBuffer" ix 128],
   if (0 <=? ix) && (ix <? 128)
   then Done () (set_fps ix (<[Z.to_nat ix := Some v]> (fpsBuffer w)) w)
   else Undefined).

(** main.cpp:780-782 *)
Definition frameIx_advance : M unit :=
  modify (λ w, set_fps (wrap_int (frameIx w + 1)) (fpsBuffer w) w);;
  w ← get_world;
  if frameIx w >=? 128 then modify (λ w, set_fps 0 (fpsBuffer w) w) else mret ().

(** Modelled from the spec: the bodies of the behaviour scripts are not part
    of [main.cpp]; [Update] is a call that moves transforms and leaves the
    bindings, the selection and the render group as they are. *)
Definition IBehaviour_update (e : entity) (ib : nat * IBehaviour) : M unit :=
  if Enabled ib.2 then call (IBehaviour_Update e ib.1 (kind ib.2)) else mret ().

(** main.cpp:795-802 *)
Definition update_behaviours : M unit :=
  w ← get_world;
  for_each (λ eb : entity * list IBehaviour,
              for_each (IBehaviour_update eb.1) (imap pair eb.2))
           (map_to_list (bindings w)).

(** main.cpp:811-813 *)
Definition update_world_matrices : M unit :=
  w ← get_world;
  for_each (λ et : entity * Transform, call (Transform_UpdateWorldMatrix et.1))
           (map_to_list (transforms w)).

(** main.cpp:770-792: events, timing, the FPS ring buffer and the key
    watchers. *)
Definition handle_input (sc : Scene) (inp : FrameInput) : M unit :=
  PollEvents inp;;
  call glfwGetTime;;
  fpsBuffer_store (fps_sample inp);;
  frameIx_advance;;
  call ImGui_IsAnyWindowFocused;;
  if negb (gui_focused inp)
  then for_each (KeyPressWatcher_poll inp) (keyToggles sc)
  else mret ().

(** main.cpp:804-808 *)
Definition clear_screen : M unit :=
  call glClearColor;;
  call (glEnable "GL_DEPTH_TEST");;
  call glClearDepth;;
  call glClear.

(** main.cpp:815-819 *)
Definition camera_info (sc : Scene) : M unit :=
  call (Transform_LocalTransform (cameraObject sc));;
  call (Camera_GetProjection (cameraObject sc)).

(** main.cpp:863-864 *)
Definition present : M unit :=
  call GameScene_Poll;;
  w ← get_world;
  call (glfwSwapBuffers (window w)).

Definition frame (sc : Scene) (inp : FrameInput) : M unit :=
  handle_input sc inp;;
  update_behaviours;;
  clear_screen;;
  update_world_matrices;;
  camera_info sc;;
  sort_pass;;
  draw_renderGroup;;
  RenderImGui sc inp;;
  present.

(** ** The game loop and [main] *)

(** [while (!glfwWindowShouldClose(window)) { ... }]; [n] counts the
    iterations already made, [fuel] bounds those still to be explored. *)
Fixpoint game_loop (env : Env) (sc : Scene) (fuel n : nat) : M unit :=
  match fuel with
  | O => running
  | S fuel' =>
      w ← get_world;
      call (glfwWindowShouldClose (window w));;
      if should_close env n then mret ()
      else frame sc (frame_input env n);; game_loop env sc fuel' (S n)
  end.

Definition main (env : Env) (fuel : nat) : M Z :=
  call Logger_Init;;
  ok ← InitGLFW env;
  if negb ok then mret 1 else
  ok ← InitGLAD env;
  if negb ok then mret 1 else
  sc ← scene_setup env;
  InitImGui;;
  call glfwGetTime;;
  game_loop env sc fuel 0;;
  ShutdownImGui;;
  call Logger_Uninitialize;;
  mret 0.

(** A run of the program from its entry state. *)
Definition run (env : Env) (fuel : nat) : list Call * result Z :=
  main env fuel World0.

(** * Specification-side definitions *)

(** The order the comparator is meant to implement, written as the words
    say: ascending render layer, then shader pointer, then material
    pointer. *)
Definition key_ltb (a b : Z * Z * Z) : bool :=
  let '(a1, a2, a3) := a in
  let '(b1, b2, b3) := b in
  (a1 <? b1) || ((a1 =? b1) && ((a2 <? b2) || ((a2 =? b2) && (a3 <? b3)))).

(** Entries of the group whose three keys are all equal to [k]. *)
Definition has_key (k : Z * Z * Z) (r : Renderable) : bool :=
  key_eqb (key (renderer r)) k.

(** [a] may stand before [b] in a sequence sorted with respect to the
    comparator: [b] does not compare less than [a]. *)
Definition not_after (a b : Renderable) : Prop :=
  RenderLess (renderer b) (renderer a) = false.

(** The render layer of [a] is not above that of [b]. *)
Definition layer_le (a b : Renderable) : Prop :=
  layer_of (renderer a) ≤ layer_of (renderer b).

(** The calls of one shader set-up: [current->Bind()] followed by
    [SetupShaderForFrame], which binds again and uploads the four
    once-per-frame uniforms. *)
Definition shader_setup_calls (s : ptr) : list Call :=
  [ Shader_Bind s; Shader_Bind s;
    Shader_SetUniformMatrix s "u_View";
    Shader_SetUniformMatrix s "u_ViewProjection";
    Shader_SetUniformMatrix s "u_SkyboxMatrix";
    Shader_SetUniform s "u_CamPos" ].

(** "Differs from the immediately preceding renderable, or is the first of
    the pass." *)
Definition shader_differs (prev : option Renderable) (r : Renderable) : bool :=
  match prev with
  | None => true
  | Some p => negb (shader_of (renderer p) =? shader_of (renderer r))
  end.

Definition material_differs (prev : option Renderable) (r : Renderable) : bool :=
  match prev with
  | None => true
  | Some p => negb (material_of (renderer p) =? material_of (renderer r))
  end.

(** What the draw pass is said to do for [r] when [prev] was drawn just
    before it. *)
Definition draw_calls (prev : option Renderable) (r : Renderable) : list Call :=
  (if shader_differs prev r then shader_setup_calls (shader_of (renderer r)) else [])
  ++ (if material_differs prev r
      then [ShaderMaterial_Apply (material_of (renderer r))] else [])
  ++ RenderVAO_calls (shader_of (renderer r)) (Mesh (renderer r)) (ent r).

Fixpoint draw_pass_calls (prev : option Renderable) (g : list Renderable) : list Call :=
  match g with
  | [] => []
  | r :: g' => draw_calls prev r ++ draw_pass_calls (Some r) g'
  end.

(** The material, its shader and the mesh are all non-null. *)
Definition valid_handles (r : Renderable) : bool :=
  negb (material_of (renderer r) =? nullptr)
  && negb (shader_of (renderer r) =? nullptr)
  && negb (Mesh (renderer r) =? nullptr).

Definition is_vao_render (c : Call) : bool :=
  match c with VertexArrayObject_Render _ => true | _ => false end.

Definition is_shader_bind (c : Call) : bool :=
  match c with Shader_Bind _ => true | _ => false end.

Definition is_material_apply (c : Call) : bool :=
  match c with ShaderMaterial_Apply _ => true | _ => false end.

(** ** Bounds and invariants of the loop *)

(** A subscript of the array named [a] is below [len]. *)
Definition array_in_bounds (a : string) (len : Z) (c : Call) : Prop :=
  match c with
  | Subscript a' ix _ => a' = a → 0 ≤ ix < len
  | _ => True
  end.

(** A subscript of [controllables] is within the vector's size at the time
    of the access. *)
Definition controllables_in_bounds (c : Call) : Prop :=
  match c with
  | Subscript a ix size => a = "controllables" → 0 ≤ ix < Z.of_nat size
  | _ => True
  end.

(** Every subscript of [fpsBuffer] is made against its 128 elements, and
    every subscript is within the size it was made against. *)
Definition subscript_ok (c : Call) : Prop :=
  match c with
  | Subscript a ix size =>
      0 ≤ ix < Z.of_nat size ∧ (a = "fpsBuffer" → size = 128%nat)
  | _ => True
  end.

(** The entity carries a script of type [k], so that
    [BehaviourBinding::Get<k>] returns a non-null pointer. *)
Definition has_script (k : BehaviourKind) (w : World) (e : entity) : bool :=
  match bindings w !! e with
  | Some bs => bool_decide (is_Some (BehaviourBinding_Get k bs))
  | None => false
  end.

(** What every iteration of the loop relies on and re-establishes. *)
Record Safe (w : World) : Prop := {
  Safe_frameIx : 0 ≤ frameIx w < 128;
  Safe_size : 0 < Z.of_nat (length (controllables w)) < 2 ^ 31;
  Safe_selectedVao : 0 ≤ selectedVao w < Z.of_nat (length (controllables w));
  Safe_scripts :
    forallb (has_script SimpleMoveBehaviour w) (controllables w) = true;
  Safe_handles : forallb valid_handles (renderGroup w) = true
}.

(** The scene is not empty: some script other than the selectable
    [SimpleMoveBehaviour] is enabled, and there is something to transform and
    to draw. *)
Record Live (w : World) : Prop := {
  Live_script : ∃ e bs i b,
    bindings w !! e = Some bs ∧ bs !! i = Some b
    ∧ kind b ≠ SimpleMoveBehaviour ∧ Enabled b = true;
  Live_transforms : transforms w ≠ ∅;
  Live_group : renderGroup w ≠ []
}.

(** The loop invariant; [p] is the window handle, which no iteration
    changes, and [L] says whether the non-emptiness of the scene is part of
    the invariant. *)
Definition Inv (L : Prop) (p : ptr) (w : World) : Prop :=
  Safe w ∧ (L → Live w) ∧ window w = p.

(** The invariant, with the selection and the list it selects from named. *)
Definition InvSel (L : Prop) (p : ptr) (s : Z) (cs : list entity) (w : World) : Prop :=
  Inv L p w ∧ selectedVao w = s ∧ controllables w = cs.

(** Total correctness of a piece of [main]: from a state in [P] it runs to
    completion, makes only calls in [C], and ends in [Q]. *)
Definition hoare {A} (C : Call → Prop) (P : World → Prop) (m : M A)
    (Q : A → World → Prop) : Prop :=
  ∀ w, P w → ∃ t a w', m w = (t, Done a w') ∧ Forall C t ∧ Q a w'.

(** ** The steps of an iteration *)

Inductive Step : Type :=
| PollInput
| RunBehaviours
| UpdateTransforms
| SortAndDraw
| DrawGui
| SwapBuffers.

Global Instance Step_eq_dec : EqDecision Step.
Proof. solve_decision. Defined.

(** The step a call belongs to; [None] for the calls in between (timing,
    clearing the screen, camera matrices, [scene->Poll()]) and for
    subscripts.  [Shader::SetUniform] is listed with the draw pass; the
    widgets of the GUI callback call it too, see [gui_call]. *)
Definition step_of (c : Call) : option Step :=
  match c with
  | glfwPollEvents | glViewport _ _ _ _ | Camera_ResizeWindow _ _ _
  | KeyPressWatcher_Poll _ | Camera_ToggleOrtho _ => Some PollInput
  | IBehaviour_Update _ _ _ => Some RunBehaviours
  | Transform_UpdateWorldMatrix _ => Some UpdateTransforms
  | Shader_Bind _ | Shader_SetUniform _ _ | Shader_SetUniformMatrix _ _
  | ShaderMaterial_Apply _ | Transform_WorldTransform _
  | Transform_WorldNormalMatrix _ | VertexArrayObject_Render _ => Some SortAndDraw
  | ImGui_NewFrame | ImGui_Begin _ | ImGui_CollapsingHeader _
  | ImGui_ColorPicker3 _ | ImGui_SliderFloat _ | ImGui_DragFloat3 _
  | ImGui_DragFloat _ | ImGui_Button _ | ImGui_Text _ | ImGui_Text_GameObjectTag _
  | ImGui_Checkbox _ | ImGui_PlotLines _ | ImGui_End | ImGui_DisplaySize _ _
  | ImGui_Render | ImGui_PlatformWindows | glfwGetWindowSize _
  | glfwMakeContextCurrent _ => Some DrawGui
  | glfwSwapBuffers _ => Some SwapBuffers
  | _ => None
  end.

(** Calls made once, while the window and the context are initialised. *)
Definition startup_only (c : Call) : bool :=
  match c with
  | Logger_Init | LOG_ERROR _ | glfwInit | glfwCreateWindow _ _ _
  | glfwSetWindowSizeCallback _ | gladLoadGLLoader => true
  | _ => false
  end.

(** Calls the program may make once initialisation is over. *)
Definition after_init (c : Call) : Prop :=
  subscript_ok c ∧ startup_only c = false.

Definition after_initb (c : Call) : bool :=
  match c with
  | Subscript _ _ _ => false
  | _ => negb (startup_only c)
  end.

(** The calls of [InitGLFW] and [InitGLAD], as far as they get. *)
Definition init_calls (env : Env) : list Call :=
  if glfwInit_ok env then
    [Logger_Init; glfwInit; glfwCreateWindow 800 800 "INFR1350U";
     glfwMakeContextCurrent (glfwCreateWindow_result env);
     glfwSetWindowSizeCallback (glfwCreateWindow_result env);
     gladLoadGLLoader]
    ++ (if gladLoadGLLoader_ok env then []
        else [LOG_ERROR "Failed to initialize Glad"])
  else [Logger_Init; glfwInit; LOG_ERROR "Failed to initialize GLFW"].

Definition is_create_window (c : Call) : bool :=
  match c with glfwCreateWindow _ _ _ => true | _ => false end.

Definition is_log_error (c : Call) : bool :=
  match c with LOG_ERROR _ => true | _ => false end.

(** Calls allowed while step [s] is under way. *)
Definition phase_call (s : Step) (c : Call) : Prop :=
  after_init c ∧ (step_of c = Some s ∨ step_of c = None).

(** [shader->SetUniform]: made by the draw pass, and by the widgets of the
    GUI callback when they fire. *)
Definition is_set_uniform (c : Call) : bool :=
  match c with Shader_SetUniform _ _ => true | _ => false end.

(** Calls the GUI step may make. *)
Definition gui_call (c : Call) : Prop :=
  phase_call DrawGui c ∨ is_set_uniform c = true.

(** Calls that neither update the scene nor switch or draw anything: no
    script's [Update], no [UpdateWorldMatrix], no [Bind], [Apply] or
    [Render]. *)
Definition tail_call (c : Call) : bool :=
  match c with
  | IBehaviour_Update _ _ _ | Transform_UpdateWorldMatrix _
  | Shader_Bind _ | ShaderMaterial_Apply _ | VertexArrayObject_Render _ => false
  | _ => true
  end.

(** The calls only the draw pass makes. *)
Definition is_draw_switch (c : Call) : bool :=
  match c with
  | Shader_Bind _ | ShaderMaterial_Apply _ | VertexArrayObject_Render _ => true
  | _ => false
  end.

(** ** The iterations of a run *)

(** The path of [main] on which both initialisation checks pass, up to the
    head of the game loop. *)
Definition startup (env : Env) : M Scene :=
  call Logger_Init;;
  InitGLFW env;;
  InitGLAD env;;
  sc ← scene_setup env;
  InitImGui;;
  call glfwGetTime;;
  mret sc.

(** The traces of the iterations the loop goes through, one per iteration. *)
Fixpoint loop_iterations (env : Env) (sc : Scene) (fuel n : nat) (w : World)
    : list (list Call) :=
  match fuel with
  | O => []
  | S fuel' =>
      if should_close env n then []
      else
        let r := frame sc (frame_input env n) w in
        r.1 :: match r.2 with
               | Done _ w' => loop_iterations env sc fuel' (S n) w'
               | _ => []
               end
  end.

Definition iterations (env : Env) (fuel : nat) : list (list Call) :=
  match startup env World0 with
  | (_, Done sc w) => loop_iterations env sc fuel 0 w
  | _ => []
  end.

(** The window is closed at the head of one of the [fuel] iterations that
    follow the first [n]. *)
Definition closes_within (env : Env) (fuel n : nat) : bool :=
  existsb (should_close env) (seq n fuel).

(** The number of iterations made before that. *)
Fixpoint open_iterations (env : Env) (fuel n : nat) : nat :=
  match fuel with
  | O => O
  | S fuel' => if should_close env n then O else S (open_iterations env fuel' (S n))
  end.

(** ** The calls of the two update passes *)

(** The [Update] calls of the behaviour pass over a binding pool: the
    enabled scripts of each entity, in attachment order. *)
Definition script_calls (e : entity) (ib : nat * IBehaviour) : list Call :=
  if Enabled ib.2 then [IBehaviour_Update e ib.1 (kind ib.2)] else [].

Definition behaviour_calls (bs : gmap entity (list IBehaviour)) : list Call :=
  flat_map (λ eb : entity * list IBehaviour,
              flat_map (script_calls eb.1) (imap pair eb.2))
           (map_to_list bs).

(** The [UpdateWorldMatrix] calls of the transform pass. *)
Definition transform_calls (ts : gmap entity Transform) : list Call :=
  flat_map (λ et : entity * Transform, [Transform_UpdateWorldMatrix et.1])
           (map_to_list ts).

(** What an iteration does before the GUI: the input step ([t1], leaving
    [w1]), the scripts and the world matrices over the registry of [w1], and
    the draw pass over the sorted render group of [w1]. *)
Definition frame_head (sc : Scene) (t1 : list Call) (w1 : World) : list Call :=
  glfwPollEvents :: t1
  ++ behaviour_calls (bindings w1)
  ++ [glClearColor; glEnable "GL_DEPTH_TEST"; glClearDepth; glClear]
  ++ transform_calls (transforms w1)
  ++ [Transform_LocalTransform (cameraObject sc); Camera_GetProjection (cameraObject sc)]
  ++ draw_pass_calls None (sort_renderGroup (renderGroup w1)).

(** The calls of a whole iteration: [tg] is what the GUI made after
    [ImGui_NewFrame]. *)
Definition frame_calls (p : ptr) (sc : Scene) (t1 : list Call) (w1 : World)
    (tg : list Call) : list Call :=
  frame_head sc t1 w1
  ++ ImGui_NewFrame :: tg
  ++ [GameScene_Poll; glfwSwapBuffers p].

(** An iteration that goes through the six steps in order from the state
    [w] on the input [inp], each from the state the one before left and none
    of them empty: the input step runs and leaves [w1]; the enabled scripts
    of the registry of [w1] are updated; its world matrices are recomputed;
    its render group is sorted, which leaves [w2], and drawn in the sorted
    order; the GUI is rendered from [w2] and leaves [w']; the buffers are
    swapped.  [t] is their calls, one step after the other, and [w'] the
    state the iteration ends in. *)
Definition iteration_in_order (sc : Scene) (inp : FrameInput) (w : World)
    (t : list Call) : Prop :=
  ∃ t_input w1 w2 t_gui w',
    handle_input sc inp w = (glfwPollEvents :: t_input, Done () w1)
    ∧ update_behaviours w1 = (behaviour_calls (bindings w1), Done () w1)
    ∧ behaviour_calls (bindings w1) ≠ []
    ∧ update_world_matrices w1 = (transform_calls (transforms w1), Done () w1)
    ∧ transform_calls (transforms w1) ≠ []
    ∧ sort_pass w1 = ([], Done () w2)
    ∧ w2 = set_renderGroup (sort_renderGroup (renderGroup w1)) w1
    ∧ draw_renderGroup w2 = (draw_pass_calls None (renderGroup w2), Done () w2)
    ∧ draw_pass_calls None (renderGroup w2) ≠ []
    ∧ RenderImGui sc inp w2 = (ImGui_NewFrame :: t_gui, Done () w')
    ∧ Forall gui_call t_gui
    ∧ present w' = ([GameScene_Poll; glfwSwapBuffers (window w)], Done () w')
    ∧ frame sc inp w = (t, Done () w')
    ∧ t = frame_calls (window w) sc t_input w1 t_gui.

(** The calls of a trace that belong to step [s]. *)
Definition is_step (s : Step) (c : Call) : bool :=
  bool_decide (step_of c = Some s).

Definition calls_of_step (s : Step) (t : list Call) : list Call :=
  List.filter (is_step s) t.

(** What [glfwPollEvents] makes of the size events of one iteration: the
    callback sets the viewport and resizes every camera. *)
Definition resize_calls (cams : list entity) (sz : Z * Z) : list Call :=
  glViewport 0 0 sz.1 sz.2 :: map (λ cam, Camera_ResizeWindow cam sz.1 sz.2) cams.

(** ** Sample environments *)

(** Allocation addresses for the samples: one address per name. *)
Definition sample_address (name : string) : positive := encode name.

Definition quiet_input : FrameInput :=
  {| size_events := []; fps_sample := 60; gui_focused := false;
     key_fired := λ _, false; debug_open := true; checkbox_clicked := false;
     widget_fired := λ _, false; widget_float := λ _, 0;
     widget_vec3 := λ _, [0; 0; 0]; stale_memory := λ _, 0 |}.

(** One iteration in which the keypad [+] is pressed, then the window is
    closed. *)
Definition sample_env : Env :=
  {| glfwInit_ok := true; glfwCreateWindow_result := 4096;
     gladLoadGLLoader_ok := true; address_of := sample_address;
     default_RenderLayer := 0;
     should_close := λ n, (1 <=? n)%nat;
     frame_input := λ _,
       {| size_events := []; fps_sample := 60; gui_focused := false;
          key_fired := λ k, match k with GLFW_KEY_KP_ADD => true | _ => false end;
          debug_open := true; checkbox_clicked := false;
          widget_fired := λ _, false; widget_float := λ _, 0;
          widget_vec3 := λ _, [0; 0; 0]; stale_memory := λ _, 0 |} |}.

(** [glfwCreateWindow] fails and returns [NULL]; everything else
    succeeds, and the loop test asks to close at once. *)
Definition no_window_env : Env :=
  {| glfwInit_ok := true; glfwCreateWindow_result := nullptr;
     gladLoadGLLoader_ok := true; address_of := sample_address;
     default_RenderLayer := 0;
     should_close := λ _, true;
     frame_input := λ _, quiet_input |}.

(** The user drags the window to 1024 by 768 during the first
    iteration and closes it before the second. *)
Definition resize_env : Env :=
  {| glfwInit_ok := true; glfwCreateWindow_result := 4096;
     gladLoadGLLoader_ok := true; address_of := sample_address;
     default_RenderLayer := 0;
     should_close := λ n, (1 <=? n)%nat;
     frame_input := λ _,
       {| size_events := [(1024, 768)]; fps_sample := 60; gui_focused := false;
          key_fired := λ _, false; debug_open := true;
          checkbox_clicked := false;
          widget_fired := λ _, false; widget_float := λ _, 0;
          widget_vec3 := λ _, [0; 0; 0]; stale_memory := λ _, 0 |} |}.

(** The state in which [sample_env] enters the game loop. *)
Definition sample_world : World :=
  match startup sample_env World0 with
  | (_, Done _ w) => w
  | _ => World0
  end.

Definition sample_scene : Scene :=
  {| shader := Z.pos (sample_address "shader");
     objDunce := 1%N; objDuncet := 2%N; cameraObject := 20%N |}.

(** Three renderables: two share a shader, the first two share a
    material. *)
Definition sample_group : list Renderable :=
  [ {| ent := 0%N; renderer := {| Mesh := 11; Material :=
        {| get := 21; pointee := {| Shader := 31; RenderLayer := 0 |} |} |} |};
    {| ent := 1%N; renderer := {| Mesh := 12; Material :=
        {| get := 21; pointee := {| Shader := 31; RenderLayer := 0 |} |} |} |};
    {| ent := 2%N; renderer := {| Mesh := 13; Material :=
        {| get := 22; pointee := {| Shader := 32; RenderLayer := 100 |} |} |} |} ].

(** A pool in which entity 1 is the child of entity 0. *)
Definition child_first_pool : gmap entity Transform :=
  {[ 0%N := {| parent := None |}; 1%N := {| parent := Some 0%N |} ]}.

(** "The window's size is fixed for the lifetime of the program": whenever
    the program has created its window and returns, GLFW still holds the size
    the window was created with. *)
Definition window_size_fixed : Prop :=
  ∀ env fuel code w,
    glfwInit_ok env = true →
    result_of (run env fuel) = Done code w → window_size w = (800, 800).

Definition is_set_size_callback (c : Call) : bool :=
  match c with glfwSetWindowSizeCallback _ => true | _ => false end.

(** The size events GLFW delivers during the first [k] iterations. *)
Definition delivered_sizes (env : Env) (k : nat) : list (Z * Z) :=
  flat_map (λ j, size_events (frame_input env j)) (seq 0 k).

(** * Further specification-side definitions *)

(** Neither renderer compares less than the other. *)
Definition equivalent (a b : RendererComponent) : bool :=
  negb (RenderLess a b) && negb (RenderLess b a).

(** The renderables at which the draw pass switches state: those that
    [differs] from the renderable drawn just before. *)
Fixpoint switch_points (differs : option Renderable → Renderable → bool)
    (prev : option Renderable) (g : list Renderable) : list Renderable :=
  match g with
  | [] => []
  | r :: g' => (if differs prev r then [r] else []) ++ switch_points differs (Some r) g'
  end.

(** One material object per address: renderables that hold the same
    material pointer see the same shader and render layer behind it. *)
Definition one_object_per_address (g : list Renderable) : Prop :=
  ∀ a b, a ∈ g → b ∈ g →
    material_of (renderer a) = material_of (renderer b) →
    pointee (Material (renderer a)) = pointee (Material (renderer b)).

Definition layer_and_shader (r : Renderable) : Z * Z :=
  (layer_of (renderer r), shader_of (renderer r)).

Definition is_view_upload (c : Call) : bool :=
  match c with
  | Shader_SetUniformMatrix _ name => bool_decide (name = "u_View")
  | _ => false
  end.


(** No shader is shared between render layers. *)
Definition shader_on_one_layer (g : list Renderable) : Prop :=
  ∀ a b, a ∈ g → b ∈ g →
    shader_of (renderer a) = shader_of (renderer b) →
    layer_of (renderer a) = layer_of (renderer b).

(** Four renderables in sorted order; the first two share a material,
    the first three a shader. *)
Definition shared_group : list Renderable :=
  [ {| ent := 5%N; renderer := {| Mesh := 11; Material :=
        {| get := 21; pointee := {| Shader := 31; RenderLayer := 0 |} |} |} |};
    {| ent := 3%N; renderer := {| Mesh := 12; Material :=
        {| get := 21; pointee := {| Shader := 31; RenderLayer := 0 |} |} |} |};
    {| ent := 4%N; renderer := {| Mesh := 12; Material :=
        {| get := 23; pointee := {| Shader := 31; RenderLayer := 0 |} |} |} |};
    {| ent := 2%N; renderer := {| Mesh := 13; Material :=
        {| get := 22; pointee := {| Shader := 32; RenderLayer := 100 |} |} |} |} ].

(** ** What a piece of [main] leaves behind *)

(** If [m] returns from a state in [P], it returns in [Q]. *)
Definition keeps {A} (P : World → Prop) (m : M A) (Q : A → World → Prop) : Prop :=
  ∀ w t a w', m w = (t, Done a w') → P w → Q a w'.

(** [m] writes to no variable and to no pool. *)
Definition reads {A} (m : M A) : Prop :=
  ∀ w t a w', m w = (t, Done a w') → w' = w.

(** Whatever the state and however far [m] gets, it makes only calls in
    [C]. *)
Definition only_calls {A} (C : Call → Prop) (m : M A) : Prop :=
  ∀ w, Forall C (trace_of (m w)).

(** The state in which each iteration of the loop begins. *)
Fixpoint loop_states (env : Env) (sc : Scene) (fuel n : nat) (w : World)
    : list World :=
  match fuel with
  | O => []
  | S fuel' =>
      if should_close env n then []
      else
        w :: match (frame sc (frame_input env n) w).2 with
             | Done _ w' => loop_states env sc fuel' (S n) w'
             | _ => []
             end
  end.

Definition iteration_states (env : Env) (fuel : nat) : list World :=
  match startup env World0 with
  | (_, Done sc w) => loop_states env sc fuel 0 w
  | _ => []
  end.

(** The scene the set-up builds. *)
Definition scene_of (env : Env) : option Scene :=
  match startup env World0 with
  | (_, Done sc _) => Some sc
  | _ => None
  end.

(** [controllables[selectedVao]], when the index is within the vector. *)
Definition selected (w : World) : option entity :=
  controllables w !! Z.to_nat (to_size_t (selectedVao w)).

(** [BehaviourBinding::Get<SimpleMoveBehaviour>(e)->Enabled]; [false] for
    an entity without the script. *)
Definition move_enabled (w : World) (e : entity) : bool :=
  match bindings w !! e with
  | Some bs =>
      match BehaviourBinding_Get SimpleMoveBehaviour bs with
      | Some i => from_option Enabled false (bs !! i)
      | None => false
      end
  | None => false
  end.

Definition nothing_moves (w : World) : Prop := ∀ e, move_enabled w e = false.

(** No object but the selected one is moved by the keyboard. *)
Definition only_selected_moves (w : World) : Prop :=
  ∀ e, move_enabled w e = true → selected w = Some e.

(** The scripts attached to each entity, by type. *)
Definition script_kinds (w : World) : gmap entity (list BehaviourKind) :=
  (λ bs : list IBehaviour, kind <$> bs) <$> bindings w.

(** What the loop leaves of the scene [w0] it was entered with. *)
Definition same_scene (w0 w : World) : Prop :=
  window w = window w0
  ∧ controllables w = controllables w0
  ∧ next_entity w = next_entity w0
  ∧ cameras w = cameras w0
  ∧ script_kinds w = script_kinds w0
  ∧ renderGroup w ≡ₚ renderGroup w0.

(** ** The FPS ring buffer *)

(** The buffer after [k] iterations: iteration [j] writes its sample to
    slot [j mod 128]. *)
Fixpoint fps_written (env : Env) (k : nat) : list (option float32) :=
  match k with
  | O => replicate 128 None
  | S k' => <[(k' `mod` 128)%nat := Some (fps_sample (frame_input env k'))]>
              (fps_written env k')
  end.

(** The iteration that wrote slot [i] last among the first [k]. *)
Definition last_writer (k i : nat) : option nat :=
  if decide (i < k)%nat then Some (i + 128 * ((k - 1 - i) / 128))%nat else None.

Definition fps_state (k : nat) (buf : list (option float32)) (w : World) : Prop :=
  frameIx w = Z.of_nat (k `mod` 128) ∧ fpsBuffer w = buf.

(** The state in which the game loop is entered. *)
Definition entry_state (env : Env) : World :=
  match startup env World0 with
  | (_, Done _ w) => w
  | _ => World0
  end.

(** The script [BehaviourBinding::Get<SimpleMoveBehaviour>] finds in [bs]
    is enabled. *)
Definition moving (bs : list IBehaviour) : bool :=
  match BehaviourBinding_Get SimpleMoveBehaviour bs with
  | Some i => from_option Enabled false (bs !! i)
  | None => false
  end.

(** The skybox, the last entity the set-up creates (main.cpp:703-725). *)
Definition skybox (env : Env) : Renderable :=
  {| ent := 21%N;
     renderer :=
       {| Mesh := Z.pos (address_of env "meshVao");
          Material :=
            {| get := Z.pos (address_of env "skyboxMat");
               pointee := {| Shader := Z.pos (address_of env "skybox");
                             RenderLayer := 100 |} |} |} |}.

(** Three iterations: the keypad [+] is pressed in the first, the window
    is resized in the second, the button [No Lighting] of the debug window is
    pressed in the third, and the window is closed after it. *)
Definition three_frames_env : Env :=
  {| glfwInit_ok := true; glfwCreateWindow_result := 4096;
     gladLoadGLLoader_ok := true; address_of := sample_address;
     default_RenderLayer := 0;
     should_close := λ n, (3 <=? n)%nat;
     frame_input := λ n,
       {| size_events := if (n =? 1)%nat then [(1024, 768)] else [];
          fps_sample := 60 + Z.of_nat n; gui_focused := false;
          key_fired := λ k, match k with
                            | GLFW_KEY_KP_ADD => (n =? 0)%nat
                            | _ => false
                            end;
          debug_open := true; checkbox_clicked := false;
          widget_fired := λ l, (n =? 2)%nat
                               && (String.eqb l "Toggle buttons"
                                   || String.eqb l "No Lighting");
          widget_float := λ _, 0; widget_vec3 := λ _, [0; 0; 0];
          stale_memory := λ _, 0 |} |}.

(** GLAD cannot load the OpenGL entry points. *)
Definition glad_fails_env : Env :=
  {| glfwInit_ok := true; glfwCreateWindow_result := 4096;
     gladLoadGLLoader_ok := false; address_of := sample_address;
     default_RenderLayer := 0;
     should_close := λ _, false;
     frame_input := λ _, quiet_input |}.

Definition is_key_poll (c : Call) : bool :=
  match c with KeyPressWatcher_Poll _ => true | _ => false end.

(** The state in which the key watchers are polled: the size events have
    been dispatched and the sample of the iteration is in the ring buffer. *)
Definition after_timing (inp : FrameInput) (w : World) : World :=
  set_fps ((frameIx w + 1) `mod` 128)
          (<[Z.to_nat (frameIx w) := Some (fps_sample inp)]> (fpsBuffer w))
          (foldl (λ w sz, set_window_size sz w) w (size_events inp)).

(** All keys of the keypad and the keyboard are down, and ImGui has the
    focus. *)
Definition focused_input : FrameInput :=
  {| size_events := [(640, 480)]; fps_sample := 30; gui_focused := true;
     key_fired := λ _, true; debug_open := true; checkbox_clicked := false;
     widget_fired := λ _, false; widget_float := λ _, 0;
     widget_vec3 := λ _, [0; 0; 0]; stale_memory := λ _, 0 |}.

(** [k] presses of a key whose callback is [m]. *)
Definition presses (k : nat) (m : M unit) : M unit :=
  for_each (λ _ : unit, m) (replicate k ()).

(** The calls with which [RenderImGui] finishes the GUI frame. *)
Definition gui_render_calls (w : World) : list Call :=
  [ glfwGetWindowSize (window w);
    ImGui_DisplaySize (window_size w).1 (window_size w).2;
    ImGui_Render; ImGui_PlatformWindows;
    glfwMakeContextCurrent (window w) ].

Definition is_begin_or_end (c : Call) : bool :=
  match c with ImGui_Begin _ | ImGui_End => true | _ => false end.

(** What the GUI callback cannot change: everything but the locals it
    owns and the script flags. *)
Definition same_but_gui (w w' : World) : Prop :=
  window w' = window w ∧ window_size w' = window_size w
  ∧ frameIx w' = frameIx w ∧ fpsBuffer w' = fpsBuffer w
  ∧ selectedVao w' = selectedVao w ∧ controllables w' = controllables w
  ∧ next_entity w' = next_entity w ∧ transforms w' = transforms w
  ∧ cameras w' = cameras w ∧ renderGroup w' = renderGroup w.

(** [BehaviourBinding::Get<SimpleMoveBehaviour>(e)->Relative] *)
Definition move_relative (w : World) (e : entity) : bool :=
  match bindings w !! e with
  | Some bs =>
      match BehaviourBinding_Get SimpleMoveBehaviour bs with
      | Some i => from_option Relative false (bs !! i)
      | None => false
      end
  | None => false
  end.

(** The debug window is collapsed. *)
Definition collapsed_input : FrameInput :=
  {| size_events := []; fps_sample := 60; gui_focused := false;
     key_fired := λ _, false; debug_open := false; checkbox_clicked := true;
     widget_fired := λ _, false; widget_float := λ _, 0;
     widget_vec3 := λ _, [0; 0; 0]; stale_memory := λ _, 0 |}.

(** ** The OpenGL debug callback (main.cpp:64-83) *)

(** The values of the [GLenum] constants the callback compares against;
    they come from the OpenGL headers. *)
Record GLenums : Type := {
  GL_DEBUG_SOURCE_API : Z;
  GL_DEBUG_SOURCE_WINDOW_SYSTEM : Z;
  GL_DEBUG_SOURCE_SHADER_COMPILER : Z;
  GL_DEBUG_SOURCE_THIRD_PARTY : Z;
  GL_DEBUG_SOURCE_APPLICATION : Z;
  GL_DEBUG_SOURCE_OTHER : Z;
  GL_DEBUG_SEVERITY_LOW : Z;
  GL_DEBUG_SEVERITY_MEDIUM : Z;
  GL_DEBUG_SEVERITY_HIGH : Z;
  GL_DEBUG_SEVERITY_NOTIFICATION : Z
}.

(** The values the Khronos registry assigns. *)
Definition khronos : GLenums :=
  {| GL_DEBUG_SOURCE_API := 0x8246;
     GL_DEBUG_SOURCE_WINDOW_SYSTEM := 0x8247;
     GL_DEBUG_SOURCE_SHADER_COMPILER := 0x8248;
     GL_DEBUG_SOURCE_THIRD_PARTY := 0x8249;
     GL_DEBUG_SOURCE_APPLICATION := 0x824A;
     GL_DEBUG_SOURCE_OTHER := 0x824B;
     GL_DEBUG_SEVERITY_LOW := 0x9148;
     GL_DEBUG_SEVERITY_MEDIUM := 0x9147;
     GL_DEBUG_SEVERITY_HIGH := 0x9146;
     GL_DEBUG_SEVERITY_NOTIFICATION := 0x826B |}.

(** The macro the line is logged with. *)
Inductive LogLevel : Type :=
| LOG_INFO_level
| LOG_WARN_level
| LOG_ERROR_level.

(** The first [switch]: [sourceTxt]. *)
Definition sourceTxt (gl : GLenums) (source : Z) : string :=
  if source =? GL_DEBUG_SOURCE_API gl then "DEBUG"
  else if source =? GL_DEBUG_SOURCE_WINDOW_SYSTEM gl then "WINDOW"
  else if source =? GL_DEBUG_SOURCE_SHADER_COMPILER gl then "SHADER"
  else if source =? GL_DEBUG_SOURCE_THIRD_PARTY gl then "THIRD PARTY"
  else if source =? GL_DEBUG_SOURCE_APPLICATION gl then "APP"
  else "OTHER".

(** [GlDebugMessage(source, type, id, severity, length, message,
    userParam)]: the line it logs, if any.  [LOG_GL_NOTIFICATIONS] is
    defined (main.cpp:46), so the fourth case is compiled in. *)
Definition GlDebugMessage (gl : GLenums) (source type id severity length : Z)
    (message : string) : option (LogLevel * string) :=
  let text := "[" +:+ sourceTxt gl source +:+ "] " +:+ message in
  if severity =? GL_DEBUG_SEVERITY_LOW gl then Some (LOG_INFO_level, text)
  else if severity =? GL_DEBUG_SEVERITY_MEDIUM gl then Some (LOG_WARN_level, text)
  else if severity =? GL_DEBUG_SEVERITY_HIGH gl then Some (LOG_ERROR_level, text)
  else if severity =? GL_DEBUG_SEVERITY_NOTIFICATION gl then Some (LOG_INFO_level, text)
  else None.

(** The case labels of the second [switch]. *)
Definition severities (gl : GLenums) : list Z :=
  [ GL_DEBUG_SEVERITY_LOW gl; GL_DEBUG_SEVERITY_MEDIUM gl;
    GL_DEBUG_SEVERITY_HIGH gl; GL_DEBUG_SEVERITY_NOTIFICATION gl ].

Definition named_sources (gl : GLenums) : list Z :=
  [ GL_DEBUG_SOURCE_API gl; GL_DEBUG_SOURCE_WINDOW_SYSTEM gl;
    GL_DEBUG_SOURCE_SHADER_COMPILER gl; GL_DEBUG_SOURCE_THIRD_PARTY gl;
    GL_DEBUG_SOURCE_APPLICATION gl ].

(** * Properties *)

(** ** The comparator *)

Lemma RenderLess_key_ltb l r : RenderLess l r = key_ltb (key l) (key r).
Proof.
  unfold RenderLess, key_ltb, key.
  generalize (layer_of l) (layer_of r) (shader_of l) (shader_of r)
             (material_of l) (material_of r).
  intros a1 b1 a2 b2 a3 b3.
  rewrite !Z.gtb_ltb.
  destruct (Z.ltb_spec a1 b1), (Z.ltb_spec b1 a1), (Z.eqb_spec a1 b1);
    try lia; simpl; try reflexivity;
  destruct (Z.ltb_spec a2 b2), (Z.ltb_spec b2 a2), (Z.eqb_spec a2 b2);
    try lia; simpl; try reflexivity;
  destruct (Z.ltb_spec a3 b3), (Z.ltb_spec b3 a3); try lia; reflexivity.
Qed.

Lemma key_ltb_asym a b : key_ltb a b = true → key_ltb b a = false.
Proof.
  destruct a as [[a1 a2] a3], b as [[b1 b2] b3]; unfold key_ltb.
  rewrite !orb_true_iff, !andb_true_iff, !orb_true_iff, !andb_true_iff.
  rewrite !Z.ltb_lt, !Z.eqb_eq. intros H.
  apply not_true_is_false.
  rewrite !orb_true_iff, !andb_true_iff, !orb_true_iff, !andb_true_iff.
  rewrite !Z.ltb_lt, !Z.eqb_eq. lia.
Qed.

Lemma key_ltb_false_trans a b c :
  key_ltb b a = false → key_ltb c b = false → key_ltb c a = false.
Proof.
  destruct a as [[a1 a2] a3], b as [[b1 b2] b3], c as [[c1 c2] c3].
  unfold key_ltb. intros H1%not_true_iff_false H2%not_true_iff_false.
  apply not_true_is_false.
  revert H1 H2.
  rewrite !orb_true_iff, !andb_true_iff, !orb_true_iff, !andb_true_iff.
  rewrite !Z.ltb_lt, !Z.eqb_eq. lia.
Qed.

Lemma key_eqb_eq a b : key_eqb a b = true ↔ a = b.
Proof.
  destruct a as [[a1 a2] a3], b as [[b1 b2] b3]; unfold key_eqb.
  rewrite !andb_true_iff, !Z.eqb_eq. split; [intros [[-> ->] ->]|]; [done|].
  by intros [= -> -> ->].
Qed.

Lemma key_eqb_incomparable a b :
  key_eqb a b = negb (key_ltb a b) && negb (key_ltb b a).
Proof.
  destruct a as [[a1 a2] a3], b as [[b1 b2] b3]; unfold key_eqb, key_ltb.
  destruct (Z.ltb_spec a1 b1), (Z.ltb_spec b1 a1), (Z.eqb_spec a1 b1);
    try lia; simpl; try reflexivity;
  destruct (Z.ltb_spec a2 b2), (Z.ltb_spec b2 a2), (Z.eqb_spec a2 b2);
    try lia; simpl; try reflexivity;
  destruct (Z.ltb_spec a3 b3), (Z.ltb_spec b3 a3), (Z.eqb_spec a3 b3);
    try lia; reflexivity.
Qed.

Lemma key_ltb_false_layer a b :
  key_ltb (key b) (key a) = false → layer_of a ≤ layer_of b.
Proof.
  unfold key, key_ltb. intros H%not_true_iff_false.
  destruct (Z.ltb_spec (layer_of b) (layer_of a)); [|done].
  destruct H. done.
Qed.

(** ** The sort *)

Section StableSortFacts.
Context {A : Type} (less : A → A → bool).
Hypothesis less_asym : ∀ x y, less x y = true → less y x = false.
Hypothesis not_less_trans :
  ∀ x y z, less y x = false → less z y = false → less z x = false.

(** [x] may stand before [y]. *)
Let before (x y : A) : Prop := less y x = false.

Lemma sort_insert_Permutation x l : sort_insert less x l ≡ₚ x :: l.
Proof.
  induction l as [|y l IH]; simpl; [done|].
  destruct (less y x); [|done].
  rewrite IH. apply Permutation_swap.
Qed.

Lemma stable_sort_Permutation l : stable_sort less l ≡ₚ l.
Proof.
  induction l as [|x l IH]; simpl; [done|].
  by rewrite sort_insert_Permutation, IH.
Qed.

Lemma sort_insert_sorted x l :
  StronglySorted before l → StronglySorted before (sort_insert less x l).
Proof.
  induction 1 as [|y l Hs IH Hy]; simpl.
  - repeat constructor.
  - destruct (less y x) eqn:Hyx.
    + constructor; [done|].
      rewrite sort_insert_Permutation. constructor; [|done].
      by apply less_asym.
    + constructor; [by constructor|].
      constructor; [done|].
      eapply Forall_impl; [exact Hy|].
      intros z Hz. unfold before in *. eauto.
Qed.

Lemma stable_sort_sorted l : StronglySorted before (stable_sort less l).
Proof.
  induction l as [|x l IH]; simpl; [constructor|].
  by apply sort_insert_sorted.
Qed.

(** Elements that are pairwise incomparable keep their order. *)
Lemma sort_insert_filter (p : A → bool) x l :
  (∀ a b, p a = true → p b = true → less a b = false) →
  List.filter p (sort_insert less x l) = List.filter p (x :: l).
Proof.
  intros Hp. induction l as [|y l IH]; [done|].
  cbn [sort_insert]. destruct (less y x) eqn:Hyx; [|done].
  cbn [List.filter] in *. rewrite IH.
  destruct (p x) eqn:Hx, (p y) eqn:Hy; try done.
  rewrite (Hp y x) in Hyx; done.
Qed.

Lemma stable_sort_filter (p : A → bool) l :
  (∀ a b, p a = true → p b = true → less a b = false) →
  List.filter p (stable_sort less l) = List.filter p l.
Proof.
  intros Hp. induction l as [|x l IH]; [done|].
  cbn [stable_sort]. rewrite sort_insert_filter by done.
  cbn [List.filter]. by rewrite IH.
Qed.
End StableSortFacts.

Lemma StronglySorted_mono {A} (R1 R2 : relation A) l :
  (∀ x y, R1 x y → R2 x y) → StronglySorted R1 l → StronglySorted R2 l.
Proof.
  intros HR. induction 1 as [|x l Hs IH Hx]; constructor; [done|].
  eapply Forall_impl; [exact Hx|]. intros y. apply HR.
Qed.

Lemma sort_renderGroup_Permutation g : sort_renderGroup g ≡ₚ g.
Proof. apply stable_sort_Permutation. Qed.

Lemma sort_renderGroup_sorted g :
  StronglySorted not_after (sort_renderGroup g).
Proof.
  apply stable_sort_sorted.
  - intros x y. rewrite !RenderLess_key_ltb. apply key_ltb_asym.
  - intros x y z. rewrite !RenderLess_key_ltb. apply key_ltb_false_trans.
Qed.

Lemma not_after_layer_le g :
  StronglySorted not_after g → StronglySorted layer_le g.
Proof.
  apply StronglySorted_mono.
  intros a b. unfold not_after. rewrite RenderLess_key_ltb.
  apply key_ltb_false_layer.
Qed.

(** C3: the sort is stable on the three keys: for every key triple, the
    entries carrying exactly that triple appear after the sort in the order
    they had before it. *)
Theorem sort_renderGroup_stable (g : list Renderable) (k : Z * Z * Z) :
  List.filter (has_key k) (sort_renderGroup g) = List.filter (has_key k) g.
Proof.
  apply stable_sort_filter. intros a b Ha Hb.
  unfold has_key in *. apply key_eqb_eq in Ha, Hb.
  rewrite RenderLess_key_ltb, Ha, Hb.
  destruct (key_ltb k k) eqn:E; [|done].
  by rewrite (key_ltb_asym _ _ E) in E.
Qed.

(** ** Running the monad *)

Lemma bind_Done {A B} (m : M A) (k : A → M B) w t a w' :
  m w = (t, Done a w') →
  (m ≫= k) w = (t ++ (k a w').1, (k a w').2).
Proof.
  intros H. unfold mbind, M_bind. rewrite H. by destruct (k a w').
Qed.

Lemma bind_Undefined {A B} (m : M A) (k : A → M B) w t :
  m w = (t, Undefined) → (m ≫= k) w = (t, Undefined).
Proof. intros H. unfold mbind, M_bind. by rewrite H. Qed.

Lemma bind_Running {A B} (m : M A) (k : A → M B) w t :
  m w = (t, Running) → (m ≫= k) w = (t, Running).
Proof. intros H. unfold mbind, M_bind. by rewrite H. Qed.

Lemma deref_ok p w : p ≠ nullptr → deref p w = ([], Done () w).
Proof. intros H. unfold deref. by rewrite (proj2 (Z.eqb_neq _ _) H). Qed.

(** ** The draw pass *)

Lemma RenderVAO_run shader vao e w :
  shader ≠ nullptr → vao ≠ nullptr →
  RenderVAO shader vao e w = (RenderVAO_calls shader vao e, Done () w).
Proof.
  intros Hs Hv. unfold RenderVAO, deref.
  rewrite (proj2 (Z.eqb_neq _ _) Hs), (proj2 (Z.eqb_neq _ _) Hv).
  reflexivity.
Qed.

Lemma valid_handles_spec r :
  valid_handles r = true →
  material_of (renderer r) ≠ nullptr ∧ shader_of (renderer r) ≠ nullptr
  ∧ Mesh (renderer r) ≠ nullptr.
Proof.
  unfold valid_handles. rewrite !andb_true_iff, !negb_true_iff, !Z.eqb_neq.
  tauto.
Qed.

Lemma draw_renderable_run st r w :
  valid_handles r = true →
  draw_renderable st r w =
    ((if negb (st.1 =? shader_of (renderer r))
      then shader_setup_calls (shader_of (renderer r)) else [])
     ++ (if negb (st.2 =? material_of (renderer r))
         then [ShaderMaterial_Apply (material_of (renderer r))] else [])
     ++ RenderVAO_calls (shader_of (renderer r)) (Mesh (renderer r)) (ent r),
     Done (shader_of (renderer r), material_of (renderer r)) w).
Proof.
  intros (Hm & Hs & Hv)%valid_handles_spec.
  unfold draw_renderable.
  erewrite bind_Done by (by apply deref_ok).
  destruct (Z.eqb_spec st.1 (shader_of (renderer r))) as [E1|E1];
  destruct (Z.eqb_spec st.2 (material_of (renderer r))) as [E2|E2]; simpl negb; cbv iota.
  all: unfold SetupShaderForFrame, deref;
       rewrite ?(proj2 (Z.eqb_neq _ _) Hs);
       unfold mbind, M_bind, mret, M_ret, call;
       rewrite RenderVAO_run by done; simpl; rewrite ?E1, ?E2; reflexivity.
Qed.

Lemma draw_each_run g : ∀ st prev w,
  forallb valid_handles g = true →
  match prev with
  | None => st = (nullptr, nullptr)
  | Some p => st = (shader_of (renderer p), material_of (renderer p))
  end →
  draw_each st g w = (draw_pass_calls prev g, Done () w).
Proof.
  induction g as [|r g IH]; intros st prev w Hv Hst; [done|].
  simpl in Hv. apply andb_true_iff in Hv as [Hr Hg].
  cbn [draw_each draw_pass_calls].
  erewrite bind_Done by (by apply draw_renderable_run).
  rewrite (IH _ (Some r) w Hg eq_refl). simpl. f_equal. f_equal.
  unfold draw_calls, shader_differs, material_differs.
  destruct prev as [p|]; subst st; [done|].
  apply valid_handles_spec in Hr as (Hm & Hs & _).
  cbn [fst snd].
  rewrite (proj2 (Z.eqb_neq nullptr (shader_of _))) by done.
  rewrite (proj2 (Z.eqb_neq nullptr (material_of _))) by done.
  done.
Qed.

Lemma filter_draw_pass_calls (f : Call → bool) (h : Renderable → list Call) g :
  (∀ prev r, List.filter f (draw_calls prev r) = h r) →
  ∀ prev, List.filter f (draw_pass_calls prev g) = flat_map h g.
Proof.
  intros Hf. induction g as [|r g IH]; intros prev; [done|].
  cbn [draw_pass_calls flat_map]. by rewrite List.filter_app, Hf, IH.
Qed.

Lemma draw_pass_calls_binds g : ∀ prev,
  List.filter is_shader_bind (draw_pass_calls prev g)
  = flat_map (λ pr, if shader_differs pr.1 pr.2
                    then [Shader_Bind (shader_of (renderer pr.2));
                          Shader_Bind (shader_of (renderer pr.2))]
                    else [])
             (zip (prev :: map Some g) g).
Proof.
  induction g as [|r g IH]; intros prev; [done|].
  cbn [draw_pass_calls map zip zip_with flat_map].
  rewrite List.filter_app, (IH (Some r)). f_equal.
  unfold draw_calls. simpl.
  by destruct (shader_differs prev r), (material_differs prev r).
Qed.

Lemma draw_pass_calls_material_applies g : ∀ prev,
  List.filter is_material_apply (draw_pass_calls prev g)
  = flat_map (λ pr, if material_differs pr.1 pr.2
                    then [ShaderMaterial_Apply (material_of (renderer pr.2))]
                    else [])
             (zip (prev :: map Some g) g).
Proof.
  induction g as [|r g IH]; intros prev; [done|].
  cbn [draw_pass_calls map zip zip_with flat_map].
  rewrite List.filter_app, (IH (Some r)). f_equal.
  unfold draw_calls. simpl.
  by destruct (shader_differs prev r), (material_differs prev r).
Qed.

Lemma draw_pass_calls_renders g prev :
  List.filter is_vao_render (draw_pass_calls prev g)
  = map (λ r, VertexArrayObject_Render (Mesh (renderer r))) g.
Proof.
  rewrite (filter_draw_pass_calls _ (λ r, [VertexArrayObject_Render (Mesh (renderer r))])).
  - induction g as [|r g IH]; [done|]. simpl. by rewrite IH.
  - intros prev' r. unfold draw_calls.
    by destruct (shader_differs prev' r), (material_differs prev' r).
Qed.

(** ** Rules for [hoare] *)

Section HoareRules.
Context (C : Call → Prop).

Lemma hoare_ret {A} (P : World → Prop) (a : A) :
  hoare C P (mret a) (λ a' w, a' = a ∧ P w).
Proof. intros w HP. by exists [], a, w. Qed.

Lemma hoare_bind {A B} P (m : M A) (k : A → M B) Q R :
  hoare C P m Q → (∀ a, hoare C (Q a) (k a) R) → hoare C P (m ≫= k) R.
Proof.
  intros Hm Hk w HP.
  destruct (Hm w HP) as (t & a & w' & Em & Ct & HQ).
  destruct (Hk a w' HQ) as (t' & b & w'' & Ek & Ct' & HR).
  exists (t ++ t'), b, w''. split_and!; [|by apply Forall_app|done].
  rewrite (bind_Done _ _ _ _ _ _ Em). by rewrite Ek.
Qed.

Lemma hoare_conseq {A} (P P' : World → Prop) (m : M A) (Q Q' : A → World → Prop) :
  (∀ w, P' w → P w) → (∀ a w, Q a w → Q' a w) →
  hoare C P m Q → hoare C P' m Q'.
Proof.
  intros HP HQ Hm w Hw.
  destruct (Hm w (HP w Hw)) as (t & a & w' & ? & ? & ?).
  exists t, a, w'. auto.
Qed.

Lemma hoare_call P c : C c → hoare C P (call c) (λ _ w, P w).
Proof. intros Hc w HP. exists [c], (), w. split_and!; auto. Qed.

Lemma hoare_call_weaken (P Q : World → Prop) c :
  C c → (∀ w, P w → Q w) → hoare C P (call c) (λ _ w, Q w).
Proof. intros Hc HPQ w HP. exists [c], (), w. split_and!; auto. Qed.

Lemma hoare_get P : hoare C P get_world (λ a w, a = w ∧ P w).
Proof. intros w HP. by exists [], w, w. Qed.

Lemma hoare_modify (P Q : World → Prop) f :
  (∀ w, P w → Q (f w)) → hoare C P (modify f) (λ _ w, Q w).
Proof. intros Hf w HP. exists [], (), (f w). split_and!; auto. Qed.

Lemma hoare_for_each {A} (I : World → Prop) (f : A → M unit) l :
  (∀ x, x ∈ l → hoare C I (f x) (λ _ w, I w)) →
  hoare C I (for_each f l) (λ _ w, I w).
Proof.
  induction l as [|x l IH]; intros Hf; cbn [for_each].
  - intros w HI. by exists [], (), w.
  - eapply hoare_bind; [apply Hf; left|].
    intros []. apply IH. intros y Hy. apply Hf. by right.
Qed.
End HoareRules.

(** ** Rules for [keeps], [reads] and [only_calls] *)

Lemma bind_Done_inv {A B} (m : M A) (k : A → M B) w t b w' :
  (m ≫= k) w = (t, Done b w') →
  ∃ t1 a w1 t2, m w = (t1, Done a w1) ∧ k a w1 = (t2, Done b w') ∧ t = t1 ++ t2.
Proof.
  unfold mbind, M_bind. destruct (m w) as [t1 [a w1| |]]; [|done|done].
  destruct (k a w1) as [t2 r] eqn:Ek. intros [= <- ->]. by exists t1, a, w1, t2.
Qed.

Lemma Done_eq_inv {A} (t t' : list Call) (a a' : A) w w' :
  (t, Done a w) = (t', Done a' w') → t = t' ∧ a = a' ∧ w = w'.
Proof. by intros [= -> -> ->]. Qed.

Lemma bind_Done_eq {A B} (m : M A) (k : A → M B) w t a w' t' b w'' :
  m w = (t, Done a w') → k a w' = (t', Done b w'') →
  (m ≫= k) w = (t ++ t', Done b w'').
Proof. intros Hm Hk. by rewrite (bind_Done _ _ _ _ _ _ Hm), Hk. Qed.

Lemma hoare_keeps {A} C P (m : M A) Q : hoare C P m Q → keeps P m Q.
Proof.
  intros H w t a w' E HP. destruct (H w HP) as (t' & a' & w'' & E' & _ & HQ).
  rewrite E in E'. by injection E' as -> -> ->.
Qed.

Lemma keeps_ret {A} P (a : A) : keeps P (mret a) (λ _ w, P w).
Proof. by intros w t a' w' [= _ _ <-]. Qed.

Lemma keeps_bind {A B} P (m : M A) (k : A → M B) Q R :
  keeps P m Q → (∀ a, keeps (Q a) (k a) R) → keeps P (m ≫= k) R.
Proof.
  intros Hm Hk w t b w' (t1 & a & w1 & t2 & Em & Ek & _)%bind_Done_inv HP.
  eapply Hk; [exact Ek|]. by eapply Hm.
Qed.

Lemma keeps_conseq {A} (P P' : World → Prop) (m : M A) (Q Q' : A → World → Prop) :
  (∀ w, P' w → P w) → (∀ a w, Q a w → Q' a w) → keeps P m Q → keeps P' m Q'.
Proof. intros HP HQ Hm w t a w' E Hw. eapply HQ, Hm; eauto. Qed.

Lemma keeps_and {A} P P' (m : M A) Q Q' :
  keeps P m Q → keeps P' m Q' →
  keeps (λ w, P w ∧ P' w) m (λ a w, Q a w ∧ Q' a w).
Proof. intros H H' w t a w' E [HP HP']. split; eauto. Qed.

Lemma keeps_modify (P Q : World → Prop) f :
  (∀ w, P w → Q (f w)) → keeps P (modify f) (λ _ w, Q w).
Proof. intros Hf w t a w' [= _ _ <-]. apply Hf. Qed.

Lemma keeps_get P : keeps P get_world (λ a w, a = w ∧ P w).
Proof. by intros w t a w' [= _ <- <-]. Qed.

Lemma keeps_for_each {A} (I : World → Prop) (f : A → M unit) l :
  (∀ x, x ∈ l → keeps I (f x) (λ _ w, I w)) →
  keeps I (for_each f l) (λ _ w, I w).
Proof.
  induction l as [|x l IH]; intros Hf; cbn [for_each].
  - apply keeps_ret.
  - eapply keeps_bind; [apply Hf; left|].
    intros []. apply IH. intros y Hy. apply Hf. by right.
Qed.

Lemma keeps_reads {A} P (m : M A) : reads m → keeps P m (λ _ w, P w).
Proof. intros H w t a w' E HP. by rewrite (H w t a w' E). Qed.

Lemma reads_ret {A} (a : A) : reads (mret a).
Proof. by intros w t a' w' [= _ _ <-]. Qed.

Lemma reads_call c : reads (call c).
Proof. by intros w t a' w' [= _ <-]. Qed.

Lemma reads_get : reads get_world.
Proof. by intros w t a' w' [= _ _ <-]. Qed.

Lemma reads_deref p : reads (deref p).
Proof. unfold deref. destruct (p =? nullptr); [done|apply reads_ret]. Qed.

Lemma reads_bind {A B} (m : M A) (k : A → M B) :
  reads m → (∀ a, reads (k a)) → reads (m ≫= k).
Proof.
  intros Hm Hk w t b w' (t1 & a & w1 & t2 & Em & Ek & _)%bind_Done_inv.
  rewrite (Hk a _ _ _ _ Ek). by eapply Hm.
Qed.

Lemma reads_for_each {A} (f : A → M unit) l :
  (∀ x, reads (f x)) → reads (for_each f l).
Proof.
  intros Hf. induction l as [|x l IH]; cbn [for_each]; [apply reads_ret|].
  apply reads_bind; [apply Hf|]. by intros [].
Qed.

Lemma reads_controllables_at : reads controllables_at.
Proof.
  intros w t a w'. unfold controllables_at.
  destruct (controllables w !! _); [|done]. by intros [= _ _ <-].
Qed.

Lemma reads_fpsBuffer_read inp ix : reads (fpsBuffer_read inp ix).
Proof.
  intros w t a w'. unfold fpsBuffer_read.
  destruct (_ && _); [|done]. by intros [= _ _ <-].
Qed.

Local Ltac reads_step :=
  first [ apply reads_ret | apply reads_call | apply reads_get
        | apply reads_deref | apply reads_controllables_at
        | apply reads_bind; [|intros ?]
        | apply reads_for_each; intros ? ].

Lemma reads_RenderVAO shader vao e : reads (RenderVAO shader vao e).
Proof. unfold RenderVAO. repeat reads_step. Qed.

Lemma reads_SetupShaderForFrame shader : reads (SetupShaderForFrame shader).
Proof. unfold SetupShaderForFrame. repeat reads_step. Qed.

Lemma reads_draw_each g : ∀ st, reads (draw_each st g).
Proof.
  induction g as [|r g IH]; intros st; cbn [draw_each]; [apply reads_ret|].
  apply reads_bind; [|done]. unfold draw_renderable.
  apply reads_bind; [apply reads_deref|]. intros _.
  apply reads_bind.
  { destruct (negb _); repeat reads_step. }
  intros current. apply reads_bind; [destruct (negb _); repeat reads_step|].
  intros currentMat. apply reads_bind; [apply reads_RenderVAO|]. intros _.
  apply reads_ret.
Qed.

Lemma reads_draw_renderGroup : reads draw_renderGroup.
Proof. unfold draw_renderGroup. apply reads_bind; [apply reads_get|]. intros w. apply reads_draw_each. Qed.

Lemma reads_update_behaviours : reads update_behaviours.
Proof.
  unfold update_behaviours. repeat reads_step.
  unfold IBehaviour_update. destruct (Enabled _); repeat reads_step.
Qed.

Lemma reads_update_world_matrices : reads update_world_matrices.
Proof. unfold update_world_matrices. repeat reads_step. Qed.

Lemma reads_clear_screen : reads clear_screen.
Proof. unfold clear_screen. repeat reads_step. Qed.

Lemma reads_camera_info sc : reads (camera_info sc).
Proof. unfold camera_info. repeat reads_step. Qed.

Lemma reads_present : reads present.
Proof. unfold present. repeat reads_step. Qed.

Lemma set_bindings_same w : set_bindings (bindings w) w = w.
Proof. by destruct w. Qed.

(** A write of the value a field already holds. *)
Lemma update_behaviour_id k e : reads (update_behaviour k e id).
Proof.
  intros w t a w'. unfold update_behaviour.
  destruct (bindings w !! e) as [bs|] eqn:Hbs; [|done].
  destruct (BehaviourBinding_Get k bs) as [i|]; [|done].
  intros [= _ E]. subst w'. rewrite list_alter_id by done.
  rewrite insert_id by done. apply set_bindings_same.
Qed.

Lemma only_calls_ret {A} C (a : A) : only_calls C (mret a).
Proof. intros w. constructor. Qed.

Lemma only_calls_call (C : Call → Prop) c : C c → only_calls C (call c).
Proof. intros H w. by repeat constructor. Qed.

Lemma only_calls_silent {A} C (m : M A) :
  (∀ w, trace_of (m w) = []) → only_calls C m.
Proof. intros H w. rewrite H. constructor. Qed.

Lemma only_calls_bind {A B} C (m : M A) (k : A → M B) :
  only_calls C m → (∀ a, only_calls C (k a)) → only_calls C (m ≫= k).
Proof.
  intros Hm Hk w. specialize (Hm w). unfold trace_of in *.
  unfold mbind, M_bind. destruct (m w) as [t [a w'| |]]; [|done|done].
  specialize (Hk a w'). unfold trace_of in Hk.
  destruct (k a w') as [t' r]. by apply Forall_app.
Qed.

Lemma only_calls_for_each {A} C (f : A → M unit) l :
  (∀ x, x ∈ l → only_calls C (f x)) → only_calls C (for_each f l).
Proof.
  induction l as [|x l IH]; intros Hf; cbn [for_each]; [apply only_calls_ret|].
  apply only_calls_bind; [apply Hf; left|].
  intros []. apply IH. intros y Hy. apply Hf. by right.
Qed.

Lemma only_calls_controllables_at (C : Call → Prop) :
  (∀ ix size, C (Subscript "controllables" ix size)) →
  only_calls C controllables_at.
Proof. intros H w. unfold controllables_at, trace_of. simpl. by repeat constructor. Qed.

Lemma only_calls_update_behaviour C k e f : only_calls C (update_behaviour k e f).
Proof.
  apply only_calls_silent. intros w. unfold update_behaviour, trace_of.
  destruct (bindings w !! e) as [bs|]; [|done].
  by destruct (BehaviourBinding_Get k bs).
Qed.

Lemma only_calls_deref C p : only_calls C (deref p).
Proof.
  apply only_calls_silent. intros w. unfold deref, trace_of.
  by destruct (p =? nullptr).
Qed.

Lemma only_calls_fpsBuffer_read (C : Call → Prop) inp ix :
  (∀ ix size, C (Subscript "fpsBuffer" ix size)) →
  only_calls C (fpsBuffer_read inp ix).
Proof. intros H w. unfold fpsBuffer_read, trace_of. simpl. by repeat constructor. Qed.

(** One step of a syntax-directed proof of [only_calls]. *)
Local Ltac only_calls_step :=
  first
    [ apply only_calls_ret
    | apply only_calls_deref
    | apply only_calls_update_behaviour
    | apply only_calls_controllables_at; done
    | apply only_calls_fpsBuffer_read; done
    | apply only_calls_call; done
    | apply only_calls_silent; done
    | apply only_calls_for_each; intros ? _
    | apply only_calls_bind; [|intros ?]
    | match goal with
      | |- only_calls _ (if ?b then _ else _) => destruct b
      end ].

(** ** Straight-line pieces of the frame *)

Lemma ret_bind {A B} (a : A) (k : A → M B) w : (mret a ≫= k) w = k a w.
Proof. unfold mbind, M_bind, mret, M_ret. by destruct (k a w). Qed.

Lemma call_bind {B} c (k : unit → M B) w :
  (call c ≫= k) w = (c :: (k () w).1, (k () w).2).
Proof. unfold mbind, M_bind, call. by destruct (k () w). Qed.

Lemma get_world_bind {B} (k : World → M B) w : (get_world ≫= k) w = k w w.
Proof. unfold mbind, M_bind, get_world. by destruct (k w w). Qed.

Lemma modify_bind {B} f (k : unit → M B) w : (modify f ≫= k) w = k () (f w).
Proof. unfold mbind, M_bind, modify. by destruct (k () (f w)). Qed.

Lemma bind_trace_prefix {A B} (m : M A) (k : A → M B) w :
  ∃ t', ((m ≫= k) w).1 = (m w).1 ++ t'.
Proof.
  unfold mbind, M_bind. destruct (m w) as [t [a w'| |]]; simpl.
  - destruct (k a w') as [t' r]. by exists t'.
  - exists []. by rewrite app_nil_r.
  - exists []. by rewrite app_nil_r.
Qed.

Lemma for_each_calls {A} (f : A → M unit) (g : A → list Call) l w :
  (∀ x w, f x w = (g x, Done () w)) →
  for_each f l w = (flat_map g l, Done () w).
Proof.
  intros Hf. induction l as [|x l IH]; [done|].
  cbn [for_each flat_map].
  rewrite (bind_Done _ _ _ _ _ _ (Hf x w)). by rewrite IH.
Qed.

Lemma clear_screen_run w :
  clear_screen w
  = ([glClearColor; glEnable "GL_DEPTH_TEST"; glClearDepth; glClear], Done () w).
Proof. reflexivity. Qed.

Lemma camera_info_run sc w :
  camera_info sc w
  = ([Transform_LocalTransform (cameraObject sc);
      Camera_GetProjection (cameraObject sc)], Done () w).
Proof. reflexivity. Qed.

Lemma deref_materials_run g w :
  forallb valid_handles g = true →
  for_each (λ r, deref (material_of (renderer r))) g w = ([], Done () w).
Proof.
  induction g as [|r g IH]; intros Hv; [done|].
  simpl in Hv. apply andb_true_iff in Hv as [Hr Hg].
  apply valid_handles_spec in Hr as (Hm & _ & _).
  cbn [for_each]. rewrite (bind_Done _ _ _ _ _ _ (deref_ok _ w Hm)).
  by rewrite IH.
Qed.

Lemma sort_pass_run w :
  forallb valid_handles (renderGroup w) = true →
  sort_pass w = ([], Done () (set_renderGroup (sort_renderGroup (renderGroup w)) w)).
Proof.
  intros Hv. unfold sort_pass. rewrite get_world_bind.
  destruct (2 <=? length (renderGroup w))%nat.
  - by rewrite (bind_Done _ _ _ _ _ _ (deref_materials_run _ w Hv)).
  - by rewrite ret_bind.
Qed.

Lemma present_run w :
  present w = ([GameScene_Poll; glfwSwapBuffers (window w)], Done () w).
Proof. reflexivity. Qed.

Lemma update_behaviours_run w :
  update_behaviours w = (behaviour_calls (bindings w), Done () w).
Proof.
  unfold update_behaviours. rewrite get_world_bind.
  apply for_each_calls. intros [e bs] w'. simpl.
  apply for_each_calls. intros [i b] w''. unfold IBehaviour_update. simpl.
  unfold script_calls. simpl. by destruct (Enabled b).
Qed.

Lemma update_world_matrices_run w :
  update_world_matrices w = (transform_calls (transforms w), Done () w).
Proof.
  unfold update_world_matrices. rewrite get_world_bind.
  by apply for_each_calls.
Qed.

Lemma draw_renderGroup_run w :
  forallb valid_handles (renderGroup w) = true →
  draw_renderGroup w = (draw_pass_calls None (renderGroup w), Done () w).
Proof.
  intros Hv. unfold draw_renderGroup. rewrite get_world_bind.
  by apply (draw_each_run _ _ None).
Qed.

(** ** Integer conversions in range *)

Lemma wrap_int_small z : - 2 ^ 31 ≤ z < 2 ^ 31 → wrap_int z = z.
Proof. intros H. unfold wrap_int. rewrite Z.mod_small; lia. Qed.

Lemma to_size_t_small z : 0 ≤ z < 2 ^ 64 → to_size_t z = z.
Proof. intros H. unfold to_size_t. by rewrite Z.mod_small. Qed.

Lemma to_size_t_neg z : - 2 ^ 31 ≤ z < 0 → to_size_t z = z + 2 ^ 64.
Proof.
  intros H. unfold to_size_t.
  rewrite <- (Z.mod_add z 1 (2 ^ 64)) by lia.
  rewrite Z.mod_small; lia.
Qed.

(** ** Preservation of the invariant *)

Lemma has_script_ext k w w' e :
  bindings w' = bindings w → has_script k w' e = has_script k w e.
Proof. intros H. unfold has_script. by rewrite H. Qed.

Lemma Safe_ext w w' :
  frameIx w' = frameIx w → selectedVao w' = selectedVao w →
  controllables w' = controllables w → bindings w' = bindings w →
  renderGroup w' = renderGroup w → Safe w → Safe w'.
Proof.
  intros E1 E2 E3 E4 E5 [H1 H2 H3 H4 H5].
  split; rewrite ?E1, ?E2, ?E3, ?E5; try done.
  rewrite forallb_forall in H4. apply forallb_forall. intros e He.
  rewrite (has_script_ext _ w w') by done. by apply H4.
Qed.

Lemma Live_ext w w' :
  bindings w' = bindings w → transforms w' = transforms w →
  renderGroup w' = renderGroup w → Live w → Live w'.
Proof. intros E1 E2 E3 [H1 H2 H3]. split; by rewrite ?E1, ?E2, ?E3. Qed.

Lemma Inv_set_window_size L p sz w : Inv L p w → Inv L p (set_window_size sz w).
Proof.
  intros (HS & HL & Hw). split_and!; [| |done].
  - by apply (Safe_ext w).
  - intros HL'. apply (Live_ext w); auto.
Qed.

Lemma Inv_set_fps L p ix buf w :
  0 ≤ ix < 128 → Inv L p w → Inv L p (set_fps ix buf w).
Proof.
  intros Hix (HS & HL & Hw). split_and!; [| |done].
  - destruct HS as [H1 H2 H3 H4 H5]. split; try done.
  - intros HL'. apply (Live_ext w); auto.
Qed.

Lemma Inv_reselect L p w w' :
  frameIx w' = frameIx w → controllables w' = controllables w →
  bindings w' = bindings w → transforms w' = transforms w →
  renderGroup w' = renderGroup w → window w' = window w →
  0 ≤ selectedVao w' < Z.of_nat (length (controllables w)) →
  Inv L p w → Inv L p w'.
Proof.
  intros E1 E2 E3 E4 E5 E6 Hix (HS & HL & Hw). split_and!; [| |congruence].
  - destruct HS as [H1 H2 H3 H4 H5]. split; rewrite ?E1, ?E2, ?E5; try done.
    rewrite forallb_forall in H4. apply forallb_forall. intros e He.
    rewrite (has_script_ext _ w w') by done. by apply H4.
  - intros HL'. apply (Live_ext w); auto.
Qed.

Lemma Inv_sort L p w :
  Inv L p w → Inv L p (set_renderGroup (sort_renderGroup (renderGroup w)) w).
Proof.
  intros (HS & HL & Hw). split_and!; [| |done].
  - destruct HS as [H1 H2 H3 H4 H5]. split; try done. simpl.
    apply forallb_forall. intros r Hr%list_elem_of_In.
    rewrite sort_renderGroup_Permutation in Hr.
    rewrite forallb_forall in H5. by apply H5, list_elem_of_In.
  - intros HL'. destruct (HL HL') as [H1 H2 H3]. split; try done. simpl.
    intros E. apply H3, Permutation_nil_r.
    rewrite <- E. symmetry. apply sort_renderGroup_Permutation.
Qed.

(** ** Scripts survive a write through [Get] *)

Lemma BehaviourBinding_Get_Some k bs i :
  BehaviourBinding_Get k bs = Some i →
  ∃ b, bs !! i = Some b ∧ kind b = k.
Proof.
  unfold BehaviourBinding_Get.
  destruct (list_find _ bs) as [[j b]|] eqn:E; [|done].
  intros [= <-]. apply list_find_Some in E as (? & ? & _). eauto.
Qed.

Lemma BehaviourBinding_Get_is_Some k bs :
  is_Some (BehaviourBinding_Get k bs) ↔ ∃ b, b ∈ bs ∧ kind b = k.
Proof.
  split.
  - intros [i (b & Hb & Hk)%BehaviourBinding_Get_Some].
    exists b. split; [|done]. by eapply list_elem_of_lookup_2.
  - intros (b & Hb & Hk). unfold BehaviourBinding_Get.
    apply fmap_is_Some. by eapply list_find_elem_of.
Qed.

Lemma BehaviourBinding_Get_alter k bs f i :
  (∀ b, kind (f b) = kind b) →
  is_Some (BehaviourBinding_Get k bs) →
  is_Some (BehaviourBinding_Get k (alter f i bs)).
Proof.
  intros Hf. rewrite !BehaviourBinding_Get_is_Some.
  intros (b & (j & Hj)%list_elem_of_lookup_1 & Hk).
  destruct (decide (i = j)) as [->|Hne].
  - exists (f b). split; [|by rewrite Hf].
    eapply list_elem_of_lookup_2. by rewrite list_lookup_alter_eq, Hj.
  - exists b. split; [|done].
    eapply list_elem_of_lookup_2. by rewrite list_lookup_alter_ne.
Qed.

Lemma Inv_update_behaviour L p w e bs i f :
  (∀ b, kind (f b) = kind b) →
  bindings w !! e = Some bs →
  BehaviourBinding_Get SimpleMoveBehaviour bs = Some i →
  Inv L p w → Inv L p (set_bindings (<[e := alter f i bs]> (bindings w)) w).
Proof.
  intros Hf Hbs Hi (HS & HL & Hw). split_and!; [| |done].
  - destruct HS as [H1 H2 H3 H4 H5]. split; try done. simpl.
    rewrite forallb_forall in H4. apply forallb_forall. intros e' He'.
    specialize (H4 e' He'). unfold has_script in *. simpl.
    destruct (decide (e = e')) as [<-|Hne].
    + rewrite lookup_insert_eq. rewrite Hbs in H4.
      apply bool_decide_eq_true in H4. apply bool_decide_eq_true.
      by apply BehaviourBinding_Get_alter.
    + by rewrite lookup_insert_ne.
  - intros HL'.
    destruct (HL HL') as [(e' & bs' & j & b & Hb1 & Hb2 & Hb3 & Hb4) H2 H3].
    split; try done. simpl.
    destruct (decide (e = e')) as [<-|Hne].
    + exists e, (alter f i bs), j, b. rewrite lookup_insert_eq.
      split_and!; try done.
      rewrite Hbs in Hb1. injection Hb1 as <-.
      rewrite list_lookup_alter_ne; [done|]. intros <-.
      apply BehaviourBinding_Get_Some in Hi as (b0 & Hb0 & Hk0).
      congruence.
    + exists e', bs', j, b. by rewrite lookup_insert_ne.
Qed.

(** ** The selection and the key toggles *)

Lemma hoare_forget_selection {A} C L p (m : M A) (f : Z → list entity → Z) :
  (∀ s cs, hoare C (InvSel L p s cs) m (λ _ w, InvSel L p (f s cs) cs w)) →
  hoare C (Inv L p) m (λ _ w, Inv L p w).
Proof.
  intros H w HI.
  destruct (H (selectedVao w) (controllables w) w) as (t & a & w' & ? & ? & HI' & _).
  { by split. }
  by exists t, a, w'.
Qed.

Lemma controllables_at_hoare L p st s cs :
  hoare (phase_call st) (InvSel L p s cs) controllables_at
        (λ e w, InvSel L p s cs w ∧ has_script SimpleMoveBehaviour w e = true).
Proof.
  intros w (HI & Hs & Hcs). pose proof HI as ([H1 H2 H3 H4 H5] & _ & _).
  unfold controllables_at.
  rewrite to_size_t_small by lia.
  destruct (lookup_lt_is_Some_2 (controllables w) (Z.to_nat (selectedVao w)))
    as [e He]; [lia|].
  rewrite He. exists [Subscript "controllables" (selectedVao w) (length (controllables w))], e, w.
  split; [done|]. split; [|split; [done|]].
  - constructor; [|constructor].
    split; [split; [simpl; split; [lia|done]|done]|by right].
  - rewrite forallb_forall in H4. apply H4, list_elem_of_In.
    by eapply list_elem_of_lookup_2.
Qed.

Lemma update_behaviour_hoare L p st s cs e f :
  (∀ b, kind (f b) = kind b) →
  hoare (phase_call st)
        (λ w, InvSel L p s cs w ∧ has_script SimpleMoveBehaviour w e = true)
        (update_behaviour SimpleMoveBehaviour e f)
        (λ _ w, InvSel L p s cs w).
Proof.
  intros Hf w ((HI & Hs & Hcs) & He). unfold update_behaviour.
  unfold has_script in He. destruct (bindings w !! e) as [bs|] eqn:Hbs; [|done].
  apply bool_decide_eq_true in He as [i Hi]. rewrite Hi.
  eexists [], (), _. split; [done|]. split; [constructor|].
  split; [|done]. by apply Inv_update_behaviour.
Qed.

Lemma with_Enabled_kind v b : kind (with_Enabled v b) = kind b.
Proof. done. Qed.

Lemma flip_Relative_kind b : kind (flip_Relative b) = kind b.
Proof. done. Qed.

Lemma selection_increment_hoare {B} L p st s cs (k : M B) R :
  hoare (phase_call st) (InvSel L p ((s + 1) `mod` Z.of_nat (length cs)) cs) k R →
  hoare (phase_call st) (InvSel L p s cs)
    (modify (λ w, set_selectedVao (wrap_int (selectedVao w + 1)) w);;
     w ← get_world;
     (if to_size_t (selectedVao w) >=? Z.of_nat (length (controllables w))
      then modify (set_selectedVao 0) else mret ());;
     k) R.
Proof.
  intros Hk w (HI & Hs & Hcs). pose proof HI as ([H1 H2 H3 H4 H5] & _ & _).
  rewrite modify_bind, get_world_bind. cbn [selectedVao controllables set_selectedVao].
  rewrite wrap_int_small, to_size_t_small by lia.
  rewrite Z.geb_leb. subst s cs.
  destruct (Z.leb_spec (Z.of_nat (length (controllables w))) (selectedVao w + 1)).
  - rewrite modify_bind. apply Hk. split; [|split; [simpl|done]].
    + apply (Inv_reselect L p w); try done. simpl. lia.
    + replace (selectedVao w + 1) with (Z.of_nat (length (controllables w))) by lia.
      by rewrite Z_mod_same_full.
  - rewrite ret_bind. apply Hk. split; [|split; [simpl|done]].
    + apply (Inv_reselect L p w); try done. simpl. lia.
    + rewrite Z.mod_small; lia.
Qed.

Lemma selection_decrement_hoare {B} L p st s cs (k : M B) R :
  hoare (phase_call st) (InvSel L p ((s - 1) `mod` Z.of_nat (length cs)) cs) k R →
  hoare (phase_call st) (InvSel L p s cs)
    (modify (λ w, set_selectedVao (wrap_int (selectedVao w - 1)) w);;
     w ← get_world;
     (if selectedVao w <? 0
      then modify (set_selectedVao
                     (wrap_int (to_size_t (Z.of_nat (length (controllables w)) - 1))))
      else mret ());;
     k) R.
Proof.
  intros Hk w (HI & Hs & Hcs). pose proof HI as ([H1 H2 H3 H4 H5] & _ & _).
  rewrite modify_bind, get_world_bind. cbn [selectedVao controllables set_selectedVao].
  rewrite (wrap_int_small (selectedVao w - 1)) by lia.
  rewrite to_size_t_small, wrap_int_small by lia. subst s cs.
  destruct (Z.ltb_spec (selectedVao w - 1) 0).
  - rewrite modify_bind. apply Hk. split; [|split; [simpl|done]].
    + apply (Inv_reselect L p w); try done. simpl. lia.
    + replace (selectedVao w - 1) with (-1) by lia.
      rewrite <- (Z.mod_add _ 1) by lia. rewrite Z.mod_small; lia.
  - rewrite ret_bind. apply Hk. split; [|split; [simpl|done]].
    + apply (Inv_reselect L p w); try done. simpl. lia.
    + rewrite Z.mod_small; lia.
Qed.

Lemma toggle_KP_ADD_hoare L p st s cs :
  hoare (phase_call st) (InvSel L p s cs) toggle_KP_ADD
        (λ _ w, InvSel L p ((s + 1) `mod` Z.of_nat (length cs)) cs w).
Proof.
  unfold toggle_KP_ADD.
  eapply hoare_bind; [apply controllables_at_hoare|]. intros e.
  eapply hoare_bind; [by apply update_behaviour_hoare|]. intros [].
  apply selection_increment_hoare.
  eapply hoare_bind; [apply controllables_at_hoare|]. intros e'.
  by apply update_behaviour_hoare.
Qed.

Lemma toggle_KP_SUBTRACT_hoare L p st s cs :
  hoare (phase_call st) (InvSel L p s cs) toggle_KP_SUBTRACT
        (λ _ w, InvSel L p ((s - 1) `mod` Z.of_nat (length cs)) cs w).
Proof.
  unfold toggle_KP_SUBTRACT.
  eapply hoare_bind; [apply controllables_at_hoare|]. intros e.
  eapply hoare_bind; [by apply update_behaviour_hoare|]. intros [].
  apply selection_decrement_hoare.
  eapply hoare_bind; [apply controllables_at_hoare|]. intros e'.
  by apply update_behaviour_hoare.
Qed.

Lemma toggle_Y_hoare L p st s cs :
  hoare (phase_call st) (InvSel L p s cs) toggle_Y (λ _ w, InvSel L p s cs w).
Proof.
  unfold toggle_Y.
  eapply hoare_bind; [apply controllables_at_hoare|]. intros e.
  by apply update_behaviour_hoare.
Qed.

Lemma keyToggles_hoare L p sc kw :
  kw ∈ keyToggles sc →
  hoare (phase_call PollInput) (Inv L p) kw.2 (λ _ w, Inv L p w).
Proof.
  unfold keyToggles. rewrite !elem_of_cons, elem_of_nil.
  intros [->|[->|[->|[->|[]]]]]; simpl.
  - apply hoare_call. split; [done|by left].
  - apply (hoare_forget_selection _ _ _ _ _ (toggle_KP_ADD_hoare L p _)).
  - apply (hoare_forget_selection _ _ _ _ _ (toggle_KP_SUBTRACT_hoare L p _)).
  - apply (hoare_forget_selection _ _ _ _ (λ s _, s)). intros s cs.
    apply toggle_Y_hoare.
Qed.

Lemma KeyPressWatcher_poll_hoare L p sc inp kw :
  kw ∈ keyToggles sc →
  hoare (phase_call PollInput) (Inv L p) (KeyPressWatcher_poll inp kw)
        (λ _ w, Inv L p w).
Proof.
  intros Hkw. unfold KeyPressWatcher_poll.
  eapply hoare_bind; [apply hoare_call; split; [done|by left]|]. intros [].
  destruct (key_fired inp kw.1); [by eapply keyToggles_hoare|].
  intros w HI. by exists [], (), w.
Qed.

(** ** The input step *)

Lemma PollEvents_hoare L p inp :
  hoare (phase_call PollInput) (Inv L p) (PollEvents inp) (λ _ w, Inv L p w).
Proof.
  unfold PollEvents.
  eapply hoare_bind; [apply hoare_call; split; [done|by left]|]. intros [].
  apply hoare_for_each. intros sz _.
  eapply hoare_bind.
  { apply (hoare_modify _ _ (Inv L p)). intros w. apply Inv_set_window_size. }
  intros []. unfold GlfwWindowResizedCallback.
  eapply hoare_bind; [apply hoare_call; split; [done|by left]|]. intros [].
  eapply hoare_bind; [apply hoare_get|]. intros w0.
  eapply hoare_conseq; [| |apply (hoare_for_each _ (Inv L p))].
  - by intros w [_ ?].
  - done.
  - intros cam _. apply hoare_call. split; [done|by left].
Qed.

Lemma frameIx_advance_run w :
  0 ≤ frameIx w < 128 →
  frameIx_advance w
  = ([], Done () (set_fps ((frameIx w + 1) `mod` 128) (fpsBuffer w) w)).
Proof.
  intros H. unfold frameIx_advance.
  rewrite modify_bind, get_world_bind. cbn [frameIx fpsBuffer set_fps].
  rewrite wrap_int_small by lia. rewrite Z.geb_leb.
  destruct (Z.leb_spec 128 (frameIx w + 1)).
  - replace (frameIx w + 1) with 128 by lia. reflexivity.
  - rewrite Z.mod_small by lia. reflexivity.
Qed.

Lemma fpsBuffer_store_run v w :
  0 ≤ frameIx w < 128 →
  fpsBuffer_store v w
  = ([Subscript "fpsBuffer" (frameIx w) 128],
     Done () (set_fps (frameIx w)
                      (<[Z.to_nat (frameIx w) := Some v]> (fpsBuffer w)) w)).
Proof.
  intros H. unfold fpsBuffer_store.
  destruct (Z.leb_spec 0 (frameIx w)), (Z.ltb_spec (frameIx w) 128); try lia.
  reflexivity.
Qed.

Lemma handle_input_hoare L p sc inp :
  hoare (phase_call PollInput) (Inv L p) (handle_input sc inp) (λ _ w, Inv L p w).
Proof.
  unfold handle_input.
  eapply hoare_bind; [apply PollEvents_hoare|]. intros [].
  eapply hoare_bind; [apply hoare_call; split; [done|by right]|]. intros [].
  eapply hoare_bind with (Q := λ _ w, Inv L p w).
  { intros w HI. pose proof HI as ([H1 _ _ _ _] & _ & _).
    rewrite fpsBuffer_store_run by done.
    eexists _, (), _. split; [done|]. split; [|by apply Inv_set_fps; [|exact HI]].
    constructor; [|constructor].
    split; [split; [simpl; split; [lia|done]|done]|by right]. }
  intros []. eapply hoare_bind with (Q := λ _ w, Inv L p w).
  { intros w HI. pose proof HI as ([H1 _ _ _ _] & _ & _).
    rewrite frameIx_advance_run by done.
    eexists _, (), _. split; [done|]. split; [constructor|].
    apply Inv_set_fps; [|done]. apply Z.mod_pos_bound. lia. }
  intros []. eapply hoare_bind; [apply hoare_call; split; [done|by right]|].
  intros []. destruct (gui_focused inp); cbn [negb].
  - intros w HI. by exists [], (), w.
  - apply hoare_for_each. intros kw Hkw. by apply (KeyPressWatcher_poll_hoare L p sc).
Qed.

(** ** The GUI step *)

Lemma hoare_calls_mono {A} (C C' : Call → Prop) P (m : M A) Q :
  (∀ c, C c → C' c) → hoare C P m Q → hoare C' P m Q.
Proof.
  intros HC Hm w HP. destruct (Hm w HP) as (t & a & w' & E & Ft & HQ).
  exists t, a, w'. split_and!; [done| |done].
  eapply Forall_impl; [exact Ft|exact HC].
Qed.

Lemma Inv_set_gui_locals L p g w : Inv L p w → Inv L p (set_gui_locals g w).
Proof.
  intros HI. apply (Inv_reselect L p w); try done.
  destruct HI as (HS & _). apply HS.
Qed.

Lemma InvSel_set_gui_locals L p s cs g w :
  InvSel L p s cs w → InvSel L p s cs (set_gui_locals g w).
Proof. intros (HI & Hs & Hc). split; [by apply Inv_set_gui_locals|done]. Qed.

Lemma gui_call_imgui c :
  step_of c = Some DrawGui → after_init c → gui_call c.
Proof. intros Hs Ha. left. split; [done|by left]. Qed.

(** The widgets and the statistics of the debug window keep whatever the
    GUI locals have no part in. *)
Section GuiWidgets.
Context (P : World → Prop) (sc : Scene) (inp : FrameInput).
Hypothesis P_gui : ∀ g w, P w → P (set_gui_locals g w).
Hypothesis shader_live : shader sc ≠ nullptr.

Lemma set_uniform_hoare name :
  hoare gui_call P (set_uniform sc name) (λ _ w, P w).
Proof.
  intros w HP. unfold set_uniform.
  rewrite (bind_Done _ _ _ _ _ _ (deref_ok _ w shader_live)).
  eexists _, (), w. split; [reflexivity|]. split; [|done].
  constructor; [by right|constructor].
Qed.

Lemma float_widget_hoare (W : string → Call) label var uniform :
  gui_call (W label) →
  hoare gui_call P (float_widget sc inp W label var uniform) (λ _ w, P w).
Proof.
  intros HW. unfold float_widget.
  eapply hoare_bind; [by apply hoare_call|]. intros [].
  destruct (widget_fired inp label); [|intros w HP; by exists [], (), w].
  eapply hoare_bind; [apply (hoare_modify _ P P); intros w; apply P_gui|].
  intros []. apply set_uniform_hoare.
Qed.

Lemma vec3_widget_hoare (W : string → Call) label var uniform :
  gui_call (W label) →
  hoare gui_call P (vec3_widget sc inp W label var uniform) (λ _ w, P w).
Proof.
  intros HW. unfold vec3_widget.
  eapply hoare_bind; [by apply hoare_call|]. intros [].
  destruct (widget_fired inp label); [|intros w HP; by exists [], (), w].
  eapply hoare_bind; [apply (hoare_modify _ P P); intros w; apply P_gui|].
  intros []. apply set_uniform_hoare.
Qed.

Lemma mode_button_hoare label on :
  hoare gui_call P (mode_button sc inp label on) (λ _ w, P w).
Proof.
  unfold mode_button.
  eapply hoare_bind; [apply hoare_call; by apply gui_call_imgui|]. intros [].
  destruct (widget_fired inp label); [|intros w HP; by exists [], (), w].
  apply hoare_for_each. intros uvv _. unfold set_mode_uniform.
  intros w HP. rewrite (bind_Done _ _ _ _ _ _ (deref_ok _ w shader_live)).
  eexists _, (), _. split; [reflexivity|]. split; [|by apply P_gui].
  constructor; [by right|constructor].
Qed.

Lemma collapsing_header_hoare label body :
  hoare gui_call P body (λ _ w, P w) →
  hoare gui_call P (collapsing_header inp label body) (λ _ w, P w).
Proof.
  intros Hb. unfold collapsing_header.
  eapply hoare_bind; [apply hoare_call; by apply gui_call_imgui|]. intros [].
  destruct (widget_fired inp label); [done|intros w HP; by exists [], (), w].
Qed.

Lemma lighting_widgets_hoare :
  hoare gui_call P (lighting_widgets sc inp) (λ _ w, P w).
Proof.
  unfold lighting_widgets.
  repeat first
    [ apply collapsing_header_hoare
    | apply mode_button_hoare
    | apply float_widget_hoare; by apply gui_call_imgui
    | apply vec3_widget_hoare; by apply gui_call_imgui
    | eapply hoare_bind with (Q := λ _ w, P w); [|intros []] ].
Qed.

Lemma fpsBuffer_read_hoare ix :
  0 ≤ ix < 128 →
  hoare gui_call P (fpsBuffer_read inp ix) (λ _ w, P w).
Proof.
  intros Hix w HP. unfold fpsBuffer_read.
  destruct (Z.leb_spec 0 ix), (Z.ltb_spec ix 128); try lia.
  eexists _, _, w. split; [reflexivity|]. split; [|done].
  constructor; [|constructor]. left.
  split; [split; [simpl; split; [lia|done]|done]|by right].
Qed.

Lemma fps_stats_hoare : hoare gui_call P (fps_stats inp) (λ _ w, P w).
Proof.
  unfold fps_stats.
  eapply hoare_bind; [apply (hoare_modify _ P P); intros w; apply P_gui|].
  intros []. eapply hoare_bind; [apply (hoare_modify _ P P); intros w; apply P_gui|].
  intros []. eapply hoare_bind; [apply (hoare_modify _ P P); intros w; apply P_gui|].
  intros []. apply hoare_for_each. intros ix Hix.
  apply list_elem_of_fmap in Hix as (n & -> & Hn%elem_of_seq).
  assert (0 ≤ Z.of_nat n < 128) as Hr by lia.
  unfold fps_stats_step.
  eapply hoare_bind; [by apply fpsBuffer_read_hoare|]. intros v.
  eapply hoare_bind; [apply hoare_get|]. intros w0.
  eapply hoare_bind with (Q := λ _ w, P w).
  { destruct (float_lt _ _).
    - eapply hoare_bind.
      { eapply hoare_conseq; [| |by apply fpsBuffer_read_hoare];
          [by intros w [_ ?]|done]. }
      intros v'. apply (hoare_modify _ P P). intros w. apply P_gui.
    - intros w [_ HP]. by exists [], (), w. }
  intros []. eapply hoare_bind; [by apply fpsBuffer_read_hoare|]. intros v2.
  eapply hoare_bind; [apply hoare_get|]. intros w1.
  eapply hoare_bind with (Q := λ _ w, P w).
  { destruct (float_lt _ _).
    - eapply hoare_bind.
      { eapply hoare_conseq; [| |by apply fpsBuffer_read_hoare];
          [by intros w [_ ?]|done]. }
      intros v'. apply (hoare_modify _ P P). intros w. apply P_gui.
    - intros w [_ HP]. by exists [], (), w. }
  intros []. eapply hoare_bind; [by apply fpsBuffer_read_hoare|]. intros v3.
  apply (hoare_modify _ P P). intros w. apply P_gui.
Qed.
End GuiWidgets.

Lemma debug_gui_hoare L p sc inp :
  shader sc ≠ nullptr →
  hoare gui_call (Inv L p) (debug_gui sc inp) (λ _ w, Inv L p w).
Proof.
  intros Hsh.
  apply (hoare_forget_selection _ _ _ _ (λ s _, s)). intros s cs.
  assert (∀ g w, InvSel L p s cs w → InvSel L p s cs (set_gui_locals g w)) as HP
    by (intros; by apply InvSel_set_gui_locals).
  unfold debug_gui.
  eapply hoare_bind; [by apply lighting_widgets_hoare|]. intros [].
  eapply hoare_bind.
  { eapply hoare_calls_mono; [|apply (controllables_at_hoare L p DrawGui)].
    intros c Hc. by left. }
  intros e. eapply hoare_bind.
  { apply hoare_call_weaken with (Q := InvSel L p s cs);
      [by apply gui_call_imgui|by intros w [? _]]. }
  intros []. eapply hoare_bind.
  { eapply hoare_calls_mono; [|apply (controllables_at_hoare L p DrawGui)].
    intros c Hc. by left. }
  intros e'. eapply hoare_bind.
  { apply hoare_call
      with (P := λ w, InvSel L p s cs w ∧ has_script SimpleMoveBehaviour w e' = true).
    by apply gui_call_imgui. }
  intros []. eapply hoare_bind.
  { eapply hoare_calls_mono;
      [|apply (update_behaviour_hoare L p DrawGui);
        by destruct (checkbox_clicked inp)].
    intros c Hc. by left. }
  intros []. eapply hoare_bind; [apply hoare_call; by apply gui_call_imgui|].
  intros []. eapply hoare_bind; [by apply fps_stats_hoare|].
  intros []. eapply hoare_bind; [apply hoare_call; by apply gui_call_imgui|].
  intros []. apply hoare_call. by apply gui_call_imgui.
Qed.

Lemma RenderImGui_hoare L p sc inp :
  shader sc ≠ nullptr →
  hoare gui_call (Inv L p) (RenderImGui sc inp) (λ _ w, Inv L p w).
Proof.
  intros Hsh. unfold RenderImGui.
  eapply hoare_bind; [apply hoare_call; by apply gui_call_imgui|]. intros [].
  eapply hoare_bind; [apply hoare_call; by apply gui_call_imgui|]. intros [].
  eapply hoare_bind with (Q := λ _ w, Inv L p w).
  { destruct (debug_open inp); [|intros w HI; by exists [], (), w].
    eapply hoare_bind with (Q := λ _ w, Inv L p w);
      [|intros []; apply hoare_call with (P := Inv L p); by apply gui_call_imgui].
    apply hoare_for_each. intros func [->|[]%elem_of_nil]%elem_of_cons.
    by apply debug_gui_hoare. }
  intros []. eapply hoare_bind; [apply hoare_get|]. intros w0.
  eapply hoare_bind.
  { apply hoare_call with (P := λ w, w0 = w ∧ Inv L p w). by apply gui_call_imgui. }
  intros []. eapply hoare_bind.
  { apply hoare_call with (P := λ w, w0 = w ∧ Inv L p w). by apply gui_call_imgui. }
  intros []. eapply hoare_bind.
  { apply hoare_call with (P := λ w, w0 = w ∧ Inv L p w). by apply gui_call_imgui. }
  intros []. eapply hoare_bind.
  { apply hoare_call with (P := λ w, w0 = w ∧ Inv L p w). by apply gui_call_imgui. }
  intros []. eapply hoare_conseq; [| |apply hoare_call with (P := Inv L p)].
  - by intros w [_ ?].
  - done.
  - by apply gui_call_imgui.
Qed.

(** ** The calls of the steps *)

Lemma phase_call_after_init s t : Forall (phase_call s) t → Forall after_init t.
Proof. intros H. eapply Forall_impl; [exact H|]. by intros c [? _]. Qed.

Lemma Forall_flat_map_intro {A B} (P : B → Prop) (f : A → list B) l :
  (∀ x, Forall P (f x)) → Forall P (flat_map f l).
Proof.
  intros Hf. induction l as [|x l IH]; simpl; [constructor|].
  apply Forall_app. auto.
Qed.

Lemma behaviour_calls_steps m :
  Forall (λ c, step_of c = Some RunBehaviours ∧ after_init c) (behaviour_calls m).
Proof.
  apply Forall_flat_map_intro. intros [e bs].
  apply Forall_flat_map_intro. intros [i b]. unfold script_calls. simpl.
  destruct (Enabled b); repeat constructor.
Qed.

Lemma transform_calls_steps m :
  Forall (λ c, step_of c = Some UpdateTransforms ∧ after_init c) (transform_calls m).
Proof.
  apply Forall_flat_map_intro. intros [e t]. repeat constructor.
Qed.

Lemma draw_pass_calls_steps g : ∀ prev,
  Forall (λ c, step_of c = Some SortAndDraw ∧ after_init c) (draw_pass_calls prev g).
Proof.
  induction g as [|r g IH]; intros prev; [constructor|].
  cbn [draw_pass_calls]. apply Forall_app. split; [|apply IH].
  unfold draw_calls.
  destruct (shader_differs prev r), (material_differs prev r); repeat constructor.
Qed.

Lemma Forall_and_l {A} (P Q : A → Prop) l :
  Forall (λ x, P x ∧ Q x) l → Forall P l.
Proof. intros H. eapply Forall_impl; [exact H|]. simpl. tauto. Qed.

Lemma Forall_and_r {A} (P Q : A → Prop) l :
  Forall (λ x, P x ∧ Q x) l → Forall Q l.
Proof. intros H. eapply Forall_impl; [exact H|]. simpl. tauto. Qed.

(** ** Membership in the update passes *)

Lemma elem_of_flat_map {A B} (f : A → list B) l y :
  y ∈ flat_map f l ↔ ∃ x, x ∈ l ∧ y ∈ f x.
Proof.
  induction l as [|x l IH]; simpl.
  - rewrite elem_of_nil. split; [done|]. by intros (x & []%elem_of_nil & _).
  - rewrite elem_of_app, IH. split.
    + intros [H|(x' & H1 & H2)]; [exists x|exists x'];
        split; try done; [left|by right].
    + intros (x' & [->|H1]%elem_of_cons & H2); [by left|right; eauto].
Qed.

Lemma elem_of_script_calls e ib c :
  c ∈ script_calls e ib ↔ Enabled ib.2 = true ∧ c = IBehaviour_Update e ib.1 (kind ib.2).
Proof.
  unfold script_calls. destruct (Enabled ib.2).
  - rewrite list_elem_of_singleton. tauto.
  - rewrite elem_of_nil. split; [done|]. by intros [? _].
Qed.

Lemma elem_of_behaviour_calls m e i k :
  IBehaviour_Update e i k ∈ behaviour_calls m ↔
  ∃ bs b, m !! e = Some bs ∧ bs !! i = Some b ∧ kind b = k ∧ Enabled b = true.
Proof.
  unfold behaviour_calls. rewrite elem_of_flat_map. split.
  - intros ([e' bs] & Hm%elem_of_map_to_list & Hc). simpl in Hc.
    apply elem_of_flat_map in Hc as ([j b] & Hj & Hc).
    apply elem_of_script_calls in Hc as [Hen [= -> -> ->]].
    apply elem_of_lookup_imap in Hj as (j' & b' & [= -> ->] & Hb).
    by exists bs, b'.
  - intros (bs & b & Hm & Hb & <- & Hen). exists (e, bs). split.
    + by apply elem_of_map_to_list.
    + simpl. apply elem_of_flat_map. exists (i, b). split.
      * apply elem_of_lookup_imap. by exists i, b.
      * by apply elem_of_script_calls.
Qed.

Lemma elem_of_transform_calls m e :
  Transform_UpdateWorldMatrix e ∈ transform_calls m ↔ is_Some (m !! e).
Proof.
  unfold transform_calls. rewrite elem_of_flat_map. split.
  - intros ([e' t] & Hm%elem_of_map_to_list & Hc). simpl in Hc.
    apply list_elem_of_singleton in Hc as [= ->]. by exists t.
  - intros [t Ht]. exists (e, t). split; [by apply elem_of_map_to_list|].
    by apply list_elem_of_singleton.
Qed.

(** ** One iteration *)

Lemma handle_input_head sc inp w :
  ∃ t, (handle_input sc inp w).1 = glfwPollEvents :: t.
Proof.
  unfold handle_input.
  destruct (bind_trace_prefix (PollEvents inp)
              (λ _, call glfwGetTime;; fpsBuffer_store (fps_sample inp);;
                    frameIx_advance;; call ImGui_IsAnyWindowFocused;;
                    if negb (gui_focused inp)
                    then for_each (KeyPressWatcher_poll inp) (keyToggles sc)
                    else mret ()) w) as [t' Ht].
  rewrite Ht. unfold PollEvents. rewrite call_bind. simpl. eauto.
Qed.

Lemma RenderImGui_head sc inp w :
  ∃ t, (RenderImGui sc inp w).1 = ImGui_NewFrame :: t.
Proof. unfold RenderImGui. rewrite call_bind. simpl. eauto. Qed.

(** The GUI and the swap update no script and no world matrix, and bind,
    apply and draw nothing, whatever the state and whether or not the GUI
    gets to its end. *)
Lemma only_calls_gui_tail sc inp :
  only_calls (λ c, tail_call c = true) (RenderImGui sc inp;; present).
Proof.
  unfold RenderImGui, present, imGuiCallbacks, debug_gui, fps_stats,
    lighting_widgets, collapsing_header, mode_button, vec3_widget,
    float_widget, set_uniform.
  cbn [for_each].
  repeat only_calls_step;
    try (unfold set_mode_uniform, fps_stats_step; repeat only_calls_step).
Qed.

(** The iteration up to the GUI: everything before it runs to its end from
    a state that satisfies the invariant. *)
Lemma frame_shape L p sc inp w :
  Inv L p w →
  ∃ t1 w1,
    handle_input sc inp w = (glfwPollEvents :: t1, Done () w1)
    ∧ Inv L p w1 ∧ Forall (phase_call PollInput) t1
    ∧ frame sc inp w
      = (frame_head sc t1 w1
         ++ ((RenderImGui sc inp;; present)
               (set_renderGroup (sort_renderGroup (renderGroup w1)) w1)).1,
         ((RenderImGui sc inp;; present)
            (set_renderGroup (sort_renderGroup (renderGroup w1)) w1)).2).
Proof.
  intros HI.
  destruct (handle_input_hoare L p sc inp w HI) as (t & [] & w1 & E1 & F1 & HI1).
  destruct (handle_input_head sc inp w) as [t1 Ht1].
  rewrite E1 in Ht1. simpl in Ht1. subst t.
  apply Forall_cons in F1 as [_ F1].
  pose proof (Inv_sort L p w1 HI1) as HIs.
  exists t1, w1. split_and!; try done.
  unfold frame.
  rewrite (bind_Done _ _ _ _ _ _ E1).
  rewrite !(bind_Done _ _ _ _ _ _ (update_behaviours_run _)).
  rewrite !(bind_Done _ _ _ _ _ _ (clear_screen_run _)).
  rewrite !(bind_Done _ _ _ _ _ _ (update_world_matrices_run _)).
  rewrite !(bind_Done _ _ _ _ _ _ (camera_info_run _ _)).
  destruct HI1 as ([_ _ _ _ Hh1] & _ & _).
  rewrite !(bind_Done _ _ _ _ _ _ (sort_pass_run _ Hh1)).
  destruct HIs as ([_ _ _ _ Hh] & _ & _).
  rewrite !(bind_Done _ _ _ _ _ _ (draw_renderGroup_run _ Hh)).
  destruct ((RenderImGui sc inp;; present) _) as [tr rr].
  unfold frame_head. cbn [fst snd app renderGroup set_renderGroup]. f_equal.
  by repeat (rewrite <- app_assoc || rewrite <- app_comm_cons).
Qed.

Lemma frame_run L p sc inp w :
  shader sc ≠ nullptr →
  Inv L p w →
  ∃ t1 w1 tg w',
    handle_input sc inp w = (glfwPollEvents :: t1, Done () w1)
    ∧ Inv L p w1 ∧ Forall (phase_call PollInput) t1
    ∧ RenderImGui sc inp (set_renderGroup (sort_renderGroup (renderGroup w1)) w1)
      = (ImGui_NewFrame :: tg, Done () w')
    ∧ Forall gui_call tg ∧ Inv L p w'
    ∧ frame sc inp w = (frame_calls p sc t1 w1 tg, Done () w').
Proof.
  intros Hsh HI.
  destruct (frame_shape L p sc inp w HI) as (t1 & w1 & E1 & HI1 & F1 & Ef).
  pose proof (Inv_sort L p w1 HI1) as HIs.
  destruct (RenderImGui_hoare L p sc inp Hsh _ HIs) as (t & [] & w' & Eg & Fg & HI').
  destruct (RenderImGui_head sc inp
              (set_renderGroup (sort_renderGroup (renderGroup w1)) w1)) as [tg Htg].
  rewrite Eg in Htg. simpl in Htg. subst t.
  apply Forall_cons in Fg as [_ Fg].
  exists t1, w1, tg, w'. split_and!; try done.
  rewrite Ef, (bind_Done _ _ _ _ _ _ Eg), present_run.
  destruct HI' as (_ & _ & ->).
  unfold frame_calls. simpl. done.
Qed.

Lemma behaviour_calls_nonempty m e bs i b :
  m !! e = Some bs → bs !! i = Some b → Enabled b = true →
  behaviour_calls m ≠ [].
Proof.
  intros Hm Hb Hen E.
  assert (IBehaviour_Update e i (kind b) ∈ behaviour_calls m) as Hin.
  { apply elem_of_behaviour_calls. by exists bs, b. }
  rewrite E in Hin. by apply elem_of_nil in Hin.
Qed.

Lemma transform_calls_nonempty m : m ≠ ∅ → transform_calls m ≠ [].
Proof.
  intros (e & t & Ht)%map_choose E.
  assert (Transform_UpdateWorldMatrix e ∈ transform_calls m) as Hin.
  { apply elem_of_transform_calls. by exists t. }
  rewrite E in Hin. by apply elem_of_nil in Hin.
Qed.

Lemma draw_pass_calls_nonempty prev g : g ≠ [] → draw_pass_calls prev g ≠ [].
Proof.
  destruct g as [|r g]; [done|]. intros _. cbn [draw_pass_calls].
  unfold draw_calls.
  by destruct (shader_differs prev r), (material_differs prev r).
Qed.

Lemma gui_call_after_init l : Forall gui_call l → Forall after_init l.
Proof.
  intros F. eapply Forall_impl; [done|]. intros c [[H _]|H]; [done|].
  by destruct c.
Qed.

Lemma frame_calls_after_init p sc t1 w1 tg :
  Forall (phase_call PollInput) t1 → Forall gui_call tg →
  Forall after_init (frame_calls p sc t1 w1 tg).
Proof.
  intros F1 Fg. unfold frame_calls, frame_head.
  constructor; [done|]. rewrite !Forall_app. split_and!.
  - by eapply phase_call_after_init.
  - apply (Forall_and_r _ _ _ (behaviour_calls_steps _)).
  - by repeat constructor.
  - apply (Forall_and_r _ _ _ (transform_calls_steps _)).
  - by repeat constructor.
  - apply (Forall_and_r _ _ _ (draw_pass_calls_steps _ _)).
  - constructor; [done|]. apply Forall_app. split.
    + by apply gui_call_after_init.
    + by repeat constructor.
Qed.

(** ** The loop *)

Lemma game_loop_run env sc p fuel :
  shader sc ≠ nullptr → ∀ n w,
  Inv True p w →
  (game_loop env sc fuel n w).1
  = flat_map (λ t, glfwWindowShouldClose p :: t) (loop_iterations env sc fuel n w)
    ++ (if closes_within env fuel n then [glfwWindowShouldClose p] else [])
  ∧ Forall (Forall after_init) (loop_iterations env sc fuel n w)
  ∧ length (loop_iterations env sc fuel n w) = open_iterations env fuel n
  ∧ (if closes_within env fuel n
     then ∃ w', (game_loop env sc fuel n w).2 = Done () w' ∧ Inv True p w'
     else (game_loop env sc fuel n w).2 = Running).
Proof.
  intros Hsh.
  induction fuel as [|fuel IH]; intros n w HI.
  { simpl. split_and!; try done; constructor. }
  cbn [game_loop loop_iterations open_iterations].
  rewrite get_world_bind, call_bind.
  pose proof HI as (_ & _ & ->).
  unfold closes_within. cbn [seq existsb].
  destruct (should_close env n) eqn:Hc; cbn [orb].
  { simpl. split_and!; try done; try constructor. by exists w. }
  destruct (frame_run True p sc (frame_input env n) w Hsh HI)
    as (t1 & w1 & tg & w' & E1 & HI1 & F1 & Eg & Fg & HI' & Ef).
  rewrite (bind_Done _ _ _ _ _ _ Ef). rewrite Ef. cbn [fst snd].
  destruct (IH (S n) w' HI') as (Ht & Hb & Hl & Hr).
  fold (closes_within env fuel (S n)).
  rewrite Ht. cbn [flat_map]. split_and!.
  - by rewrite <- !app_assoc.
  - constructor; [|done]. by apply frame_calls_after_init.
  - simpl. by rewrite Hl.
  - done.
Qed.

(** ** Start-up *)

Lemma InitGLFW_ok env w :
  glfwInit_ok env = true →
  InitGLFW env w
  = ([glfwInit; glfwCreateWindow 800 800 "INFR1350U";
      glfwMakeContextCurrent (glfwCreateWindow_result env);
      glfwSetWindowSizeCallback (glfwCreateWindow_result env)],
     Done true (set_window (glfwCreateWindow_result env) (800, 800) w)).
Proof. intros H. unfold InitGLFW. rewrite call_bind, H. reflexivity. Qed.

Lemma InitGLFW_failed env w :
  glfwInit_ok env = false →
  InitGLFW env w = ([glfwInit; LOG_ERROR "Failed to initialize GLFW"], Done false w).
Proof. intros H. unfold InitGLFW. rewrite call_bind, H. reflexivity. Qed.

Lemma InitGLAD_ok env w :
  gladLoadGLLoader_ok env = true →
  InitGLAD env w = ([gladLoadGLLoader], Done true w).
Proof. intros H. unfold InitGLAD. rewrite call_bind, H. reflexivity. Qed.

Lemma InitGLAD_failed env w :
  gladLoadGLLoader_ok env = false →
  InitGLAD env w
  = ([gladLoadGLLoader; LOG_ERROR "Failed to initialize Glad"], Done false w).
Proof. intros H. unfold InitGLAD. rewrite call_bind, H. reflexivity. Qed.

Lemma after_initb_spec c : after_initb c = true → after_init c.
Proof.
  unfold after_initb, after_init. destruct c; try done;
    rewrite negb_true_iff; by intros ->.
Qed.

Lemma scene_setup_run env p :
  ∃ t sc w,
    scene_setup env (set_window p (800, 800) World0) = (t, Done sc w)
    ∧ Forall after_init t
    ∧ Inv True p w
    ∧ controllables w = [objDunce sc; objDuncet sc]
    ∧ selectedVao w = 0
    ∧ shader sc ≠ nullptr.
Proof.
  destruct env as [i_ok win g_ok addr layer close input].
  eexists _, _, _. split.
  { vm_compute. reflexivity. }
  split.
  { apply Forall_forall. intros c Hc%list_elem_of_In. apply after_initb_spec.
    revert c Hc. apply (proj1 (forallb_forall after_initb _)).
    vm_compute. reflexivity. }
  split; [|by vm_compute].
  split; [|split; [|reflexivity]].
  - split; vm_compute; repeat split; try done; discriminate.
  - split.
    + exists 20%N. eexists _, 0%nat, _. split; [vm_compute; reflexivity|].
      split; [reflexivity|]. by split.
    + intros E. apply (f_equal (λ m, m !! 0%N)) in E. vm_compute in E. done.
    + done.
Qed.

Lemma startup_run env :
  glfwInit_ok env = true → gladLoadGLLoader_ok env = true →
  ∃ ts sc w0,
    startup env World0 = (init_calls env ++ ts, Done sc w0)
    ∧ Forall after_init ts
    ∧ Inv True (glfwCreateWindow_result env) w0
    ∧ controllables w0 = [objDunce sc; objDuncet sc]
    ∧ selectedVao w0 = 0
    ∧ shader sc ≠ nullptr
    ∧ ∀ fuel,
        main env fuel World0
        = ((init_calls env ++ ts)
           ++ ((game_loop env sc fuel 0;; ShutdownImGui;;
                call Logger_Uninitialize;; mret 0) w0).1,
           ((game_loop env sc fuel 0;; ShutdownImGui;;
             call Logger_Uninitialize;; mret 0) w0).2).
Proof.
  intros Hi Hg.
  destruct (scene_setup_run env (glfwCreateWindow_result env))
    as (ts & sc & w0 & Es & Hts & HI & Hc & Hs & Hsh).
  exists (ts ++ [ImGui_Init; glfwGetTime]), sc, w0.
  unfold init_calls. rewrite Hi, Hg.
  split; [|split; [|split; [exact HI|split; [exact Hc|split; [exact Hs|split; [exact Hsh|]]]]]].
  - unfold startup. rewrite call_bind.
    rewrite !(bind_Done _ _ _ _ _ _ (InitGLFW_ok env _ Hi)).
    rewrite !(bind_Done _ _ _ _ _ _ (InitGLAD_ok env _ Hg)).
    rewrite !(bind_Done _ _ _ _ _ _ Es).
    unfold InitImGui. rewrite !call_bind. cbn [fst snd mret M_ret].
    reflexivity.
  - apply Forall_app. split; [exact Hts|]. by repeat constructor.
  - intros fuel. unfold main. rewrite call_bind.
    rewrite !(bind_Done _ _ _ _ _ _ (InitGLFW_ok env _ Hi)). cbn [negb].
    rewrite !(bind_Done _ _ _ _ _ _ (InitGLAD_ok env _ Hg)). cbn [negb].
    rewrite !(bind_Done _ _ _ _ _ _ Es).
    unfold InitImGui. rewrite !call_bind. cbn [fst snd].
    f_equal. simpl. by rewrite <- !app_assoc.
Qed.

Lemma main_epilogue {A} (m : M A) w :
  ((m;; ShutdownImGui;; call Logger_Uninitialize;; mret 0) w)
  = match m w with
    | (t, Done _ w') => (t ++ [ImGui_Shutdown; Logger_Uninitialize], Done 0 w')
    | (t, Undefined) => (t, Undefined)
    | (t, Running) => (t, Running)
    end.
Proof.
  unfold mbind at 1. unfold M_bind. by destruct (m w) as [t [a w'| |]].
Qed.

(** ** The whole run *)

Lemma run_shape env fuel :
  ∃ rest,
    trace_of (run env fuel) = init_calls env ++ rest
    ∧ Forall after_init rest
    ∧ result_of (run env fuel) ≠ Undefined.
Proof.
  unfold run, trace_of, result_of, init_calls.
  destruct (glfwInit_ok env) eqn:Hi.
  2:{ exists []. unfold main. rewrite call_bind.
      rewrite !(bind_Done _ _ _ _ _ _ (InitGLFW_failed env _ Hi)).
      simpl. by split_and!. }
  destruct (gladLoadGLLoader_ok env) eqn:Hg.
  2:{ exists []. unfold main. rewrite call_bind.
      rewrite !(bind_Done _ _ _ _ _ _ (InitGLFW_ok env _ Hi)). cbn [negb].
      rewrite !(bind_Done _ _ _ _ _ _ (InitGLAD_failed env _ Hg)).
      simpl. by split_and!. }
  destruct (startup_run env Hi Hg)
    as (ts & sc & w0 & _ & Hts & HI & _ & _ & Hsh & Em).
  rewrite Em. unfold init_calls. rewrite Hi, Hg, main_epilogue.
  destruct (game_loop_run env sc _ fuel Hsh 0 w0 HI) as (Ht & Hb & _ & Hr).
  destruct (game_loop env sc fuel 0 w0) as [t r]. simpl in Ht, Hr. subst t.
  assert (Forall after_init
            (flat_map (λ t, glfwWindowShouldClose (glfwCreateWindow_result env) :: t)
                      (loop_iterations env sc fuel 0 w0))) as Hloop.
  { induction Hb as [|t l Ht _ IH]; simpl; [constructor|].
    constructor; [done|]. apply Forall_app. by split. }
  destruct (closes_within env fuel 0).
  - destruct Hr as (w' & -> & _). eexists. cbn [fst snd].
    split; [by rewrite <- !app_assoc|]. split; [|done].
    rewrite !Forall_app. split_and!; try done; by repeat constructor.
  - rewrite Hr. eexists. cbn [fst snd].
    split; [by rewrite <- !app_assoc|]. split; [|done].
    rewrite app_nil_r. apply Forall_app. by split.
Qed.

Lemma init_calls_no_subscript env a len :
  Forall (array_in_bounds a len) (init_calls env).
Proof.
  unfold init_calls.
  destruct (glfwInit_ok env), (gladLoadGLLoader_ok env); by repeat constructor.
Qed.

Lemma run_fps_in_bounds env fuel :
  Forall (array_in_bounds "fpsBuffer" 128) (trace_of (run env fuel)).
Proof.
  destruct (run_shape env fuel) as (rest & -> & Hrest & _).
  apply Forall_app. split; [apply init_calls_no_subscript|].
  eapply Forall_impl; [exact Hrest|]. intros c [Hc _].
  destruct c; try done. simpl in *. intros ->.
  destruct Hc as [Hix Hsz]. rewrite (Hsz eq_refl) in Hix. lia.
Qed.

(** C9: in every run, every subscript of [fpsBuffer] is in [0, 128) and the
    run never becomes undefined; and from an index in that range the store
    followed by the increment-and-reset writes slot [frameIx] and leaves
    [frameIx + 1], or 0 once that reaches 128. *)
Theorem fpsBuffer_index_in_bounds :
  (∀ env fuel,
     Forall (array_in_bounds "fpsBuffer" 128) (trace_of (run env fuel))
     ∧ result_of (run env fuel) ≠ Undefined)
  ∧ (∀ v w,
       0 ≤ frameIx w < 128 →
       (fpsBuffer_store v;; frameIx_advance) w
       = ([Subscript "fpsBuffer" (frameIx w) 128],
          Done () (set_fps (if frameIx w + 1 =? 128 then 0 else frameIx w + 1)
                           (<[Z.to_nat (frameIx w) := Some v]> (fpsBuffer w)) w))).
Proof.
  split.
  - intros env fuel. split; [apply run_fps_in_bounds|].
    by destruct (run_shape env fuel) as (rest & _ & _ & ?).
  - intros v w H.
    rewrite (bind_Done _ _ _ _ _ _ (fpsBuffer_store_run v w H)).
    rewrite frameIx_advance_run by done. cbn [fst snd frameIx fpsBuffer set_fps].
    replace ((frameIx w + 1) `mod` 128)
      with (if frameIx w + 1 =? 128 then 0 else frameIx w + 1); [done|].
    destruct (Z.eqb_spec (frameIx w + 1) 128) as [->|Hne]; [done|].
    symmetry. apply Z.mod_small. lia.
Qed.

(** ** The selection *)

Lemma Safe_Inv w : Safe w → Inv False (window w) w.
Proof. intros HS. by split_and!. Qed.

Lemma phase_call_controllables st t :
  Forall (phase_call st) t → Forall controllables_in_bounds t.
Proof.
  intros H. eapply Forall_impl; [exact H|]. intros c [[Hc _] _].
  destruct c; try done. simpl in *. tauto.
Qed.

Lemma run_controllables_in_bounds env fuel :
  Forall controllables_in_bounds (trace_of (run env fuel)).
Proof.
  destruct (run_shape env fuel) as (rest & -> & Hrest & _).
  apply Forall_app. split.
  - unfold init_calls.
    destruct (glfwInit_ok env), (gladLoadGLLoader_ok env); by repeat constructor.
  - eapply Forall_impl; [exact Hrest|]. intros c [Hc _].
    destruct c; try done. simpl in *. tauto.
Qed.

(** C10: from a state in which the selection indexes the non-empty
    [controllables] (and each entry carries the script the toggles write to),
    the keypad-add toggle runs to completion, subscripts [controllables] only
    within its size, leaves the list as it was and moves the selection to the
    next entry, wrapping from the last to 0; the keypad-subtract toggle does
    the same towards the previous entry, wrapping from 0 to the last; and in
    every run of the program every subscript of [controllables] is within its
    size and the run never becomes undefined. *)
Theorem selectedVao_stays_in_range :
  (∀ w, Safe w →
     ∃ t w', toggle_KP_ADD w = (t, Done () w')
       ∧ Forall controllables_in_bounds t
       ∧ Safe w' ∧ controllables w' = controllables w
       ∧ selectedVao w'
         = (if selectedVao w + 1 =? Z.of_nat (length (controllables w))
            then 0 else selectedVao w + 1))
  ∧ (∀ w, Safe w →
     ∃ t w', toggle_KP_SUBTRACT w = (t, Done () w')
       ∧ Forall controllables_in_bounds t
       ∧ Safe w' ∧ controllables w' = controllables w
       ∧ selectedVao w'
         = (if selectedVao w =? 0
            then Z.of_nat (length (controllables w)) - 1 else selectedVao w - 1))
  ∧ (∀ env fuel,
       Forall controllables_in_bounds (trace_of (run env fuel))
       ∧ result_of (run env fuel) ≠ Undefined).
Proof.
  split_and!.
  - intros w HS. pose proof HS as [_ H2 H3 _ _].
    destruct (toggle_KP_ADD_hoare False (window w) PollInput
                (selectedVao w) (controllables w) w)
      as (t & [] & w' & E & Ft & (HS' & _ & _) & Hs & Hc).
    { split; [by apply Safe_Inv|done]. }
    exists t, w'. split_and!; try done.
    + by eapply phase_call_controllables.
    + rewrite Hs.
      destruct (Z.eqb_spec (selectedVao w + 1) (Z.of_nat (length (controllables w))))
        as [->|Hne]; [by rewrite Z_mod_same_full|].
      apply Z.mod_small. lia.
  - intros w HS. pose proof HS as [_ H2 H3 _ _].
    destruct (toggle_KP_SUBTRACT_hoare False (window w) PollInput
                (selectedVao w) (controllables w) w)
      as (t & [] & w' & E & Ft & (HS' & _ & _) & Hs & Hc).
    { split; [by apply Safe_Inv|done]. }
    exists t, w'. split_and!; try done.
    + by eapply phase_call_controllables.
    + rewrite Hs.
      destruct (Z.eqb_spec (selectedVao w) 0) as [->|Hne].
      * change (0 - 1) with (-1).
        rewrite <- (Z.mod_add _ 1) by lia.
        rewrite Z.mod_small; lia.
      * apply Z.mod_small. lia.
  - intros env fuel. split; [apply run_controllables_in_bounds|].
    by destruct (run_shape env fuel) as (rest & _ & _ & ?).
Qed.

(** ** Each pass makes its calls once *)

Lemma NoDup_flat_map {A B} (f : A → list B) l :
  NoDup l →
  (∀ x, x ∈ l → NoDup (f x)) →
  (∀ x y b, x ∈ l → y ∈ l → b ∈ f x → b ∈ f y → x = y) →
  NoDup (flat_map f l).
Proof.
  induction 1 as [|x l Hx Hl IH]; intros Hf Hinj; simpl; [constructor|].
  apply NoDup_app. split_and!.
  - apply Hf. left.
  - intros b Hb (y & Hy & Hby)%elem_of_flat_map.
    apply Hx. rewrite (Hinj x y b); [done|left|by right|done|done].
  - apply IH.
    + intros y Hy. apply Hf. by right.
    + intros y z b Hy Hz. apply Hinj; by right.
Qed.

Lemma NoDup_imap_pair {A} (l : list A) : NoDup (imap pair l).
Proof.
  apply NoDup_alt. intros i j [k x].
  rewrite !list_lookup_imap. 
  destruct (l !! i) eqn:Ei, (l !! j) eqn:Ej; simpl; try done.
  by intros [= -> _] [= -> _].
Qed.

Lemma NoDup_script_calls e ib : NoDup (script_calls e ib).
Proof.
  unfold script_calls. destruct (Enabled ib.2); [|constructor].
  apply NoDup_singleton.
Qed.

Lemma NoDup_behaviour_calls m : NoDup (behaviour_calls m).
Proof.
  unfold behaviour_calls. apply NoDup_flat_map.
  - apply NoDup_map_to_list.
  - intros [e bs] _. simpl. apply NoDup_flat_map.
    + apply NoDup_imap_pair.
    + intros ib _. apply NoDup_script_calls.
    + intros [i b] [j b'] c Hi Hj [_ ->]%elem_of_script_calls
        [_ [= -> _]]%elem_of_script_calls.
      apply elem_of_lookup_imap in Hi as (? & ? & [= <- <-] & Hi).
      apply elem_of_lookup_imap in Hj as (? & ? & [= <- <-] & Hj).
      congruence.
  - intros [e bs] [e' bs'] c He He'. simpl.
    intros (ib & _ & [_ ->]%elem_of_script_calls)%elem_of_flat_map.
    intros (ib' & _ & [_ [= -> _ _]]%elem_of_script_calls)%elem_of_flat_map.
    apply elem_of_map_to_list in He, He'. congruence.
Qed.

Lemma NoDup_transform_calls m : NoDup (transform_calls m).
Proof.
  unfold transform_calls. apply NoDup_flat_map.
  - apply NoDup_map_to_list.
  - intros et _. apply NoDup_singleton.
  - intros [e t] [e' t'] c He He'. simpl.
    intros ->%list_elem_of_singleton [= ->]%list_elem_of_singleton.
    apply elem_of_map_to_list in He, He'. congruence.
Qed.

Lemma transform_calls_fmap (f : Transform → Transform) m :
  transform_calls (f <$> m) = transform_calls m.
Proof.
  unfold transform_calls. rewrite map_to_list_fmap.
  induction (map_to_list m) as [|[e t] l IH]; [done|].
  simpl. by rewrite <- IH.
Qed.

(** ** The calls of one step within an iteration *)

Lemma calls_of_step_app s t1 t2 :
  calls_of_step s (t1 ++ t2) = calls_of_step s t1 ++ calls_of_step s t2.
Proof. apply List.filter_app. Qed.

Lemma calls_of_step_phase s s' t :
  s ≠ s' → Forall (phase_call s') t → calls_of_step s t = [].
Proof.
  intros Hne. induction 1 as [|c t [_ Hc] _ IH]; [done|].
  unfold calls_of_step in *. simpl. rewrite IH.
  unfold is_step. rewrite bool_decide_eq_false_2; [done|].
  destruct Hc as [-> | ->]; congruence.
Qed.

Lemma calls_of_step_same {P : Call → Prop} s t :
  Forall (λ c, step_of c = Some s ∧ P c) t → calls_of_step s t = t.
Proof.
  induction 1 as [|c t [Hc _] _ IH]; [done|].
  unfold calls_of_step in *. simpl. rewrite IH.
  unfold is_step. by rewrite bool_decide_eq_true_2.
Qed.

Lemma calls_of_step_other {P : Call → Prop} s s' t :
  s ≠ s' → Forall (λ c, step_of c = Some s' ∧ P c) t → calls_of_step s t = [].
Proof.
  intros Hne. induction 1 as [|c t [Hc _] _ IH]; [done|].
  unfold calls_of_step in *. simpl. rewrite IH.
  unfold is_step. rewrite bool_decide_eq_false_2; [done|]. congruence.
Qed.

Lemma calls_of_step_tail s t :
  s = RunBehaviours ∨ s = UpdateTransforms →
  Forall (λ c, tail_call c = true) t → calls_of_step s t = [].
Proof.
  intros Hs. induction 1 as [|c t Hc _ IH]; [done|].
  unfold calls_of_step in *. simpl. rewrite IH.
  unfold is_step. rewrite bool_decide_eq_false_2; [done|].
  destruct Hs as [-> | ->]; by destruct c.
Qed.

Lemma frame_head_behaviours sc t1 w1 :
  Forall (phase_call PollInput) t1 →
  calls_of_step RunBehaviours (frame_head sc t1 w1)
  = behaviour_calls (bindings w1).
Proof.
  intros F1. unfold frame_head.
  change (glfwPollEvents :: ?l) with ([glfwPollEvents] ++ l).
  rewrite !calls_of_step_app.
  rewrite (calls_of_step_phase _ PollInput t1) by done.
  rewrite (calls_of_step_same _ _ (behaviour_calls_steps _)).
  rewrite (calls_of_step_other RunBehaviours UpdateTransforms _ ltac:(done)
             (transform_calls_steps _)).
  rewrite (calls_of_step_other RunBehaviours SortAndDraw _ ltac:(done)
             (draw_pass_calls_steps _ _)).
  cbn. by rewrite app_nil_r.
Qed.

Lemma frame_head_transforms sc t1 w1 :
  Forall (phase_call PollInput) t1 →
  calls_of_step UpdateTransforms (frame_head sc t1 w1)
  = transform_calls (transforms w1).
Proof.
  intros F1. unfold frame_head.
  change (glfwPollEvents :: ?l) with ([glfwPollEvents] ++ l).
  rewrite !calls_of_step_app.
  rewrite (calls_of_step_phase _ PollInput t1) by done.
  rewrite (calls_of_step_same _ _ (transform_calls_steps _)).
  rewrite (calls_of_step_other UpdateTransforms RunBehaviours _ ltac:(done)
             (behaviour_calls_steps _)).
  rewrite (calls_of_step_other UpdateTransforms SortAndDraw _ ltac:(done)
             (draw_pass_calls_steps _ _)).
  cbn. by rewrite app_nil_r.
Qed.

Lemma frame_passes L p sc inp w :
  Inv L p w →
  ∃ t1 w1,
    handle_input sc inp w = (t1, Done () w1)
    ∧ calls_of_step RunBehaviours (trace_of (frame sc inp w))
      = behaviour_calls (bindings w1)
    ∧ calls_of_step UpdateTransforms (trace_of (frame sc inp w))
      = transform_calls (transforms w1).
Proof.
  intros HI.
  destruct (frame_shape L p sc inp w HI) as (t1 & w1 & E1 & _ & F1 & Ef).
  exists (glfwPollEvents :: t1), w1. rewrite Ef. unfold trace_of. cbn [fst].
  rewrite !calls_of_step_app.
  pose proof (only_calls_gui_tail sc inp
                (set_renderGroup (sort_renderGroup (renderGroup w1)) w1)) as Ft.
  unfold trace_of in Ft.
  rewrite (calls_of_step_tail RunBehaviours _ ltac:(by left) Ft).
  rewrite (calls_of_step_tail UpdateTransforms _ ltac:(by right) Ft).
  rewrite !app_nil_r.
  split_and!; [done| |].
  - by apply frame_head_behaviours.
  - by apply frame_head_transforms.
Qed.

(** C5: the transform pass calls [UpdateWorldMatrix] once for every
    [Transform] of the registry and for nothing else; the order of the calls
    is the order of the pool, which stays the same when every parent link is
    rewritten, and there is a pool in which a child is updated before its
    parent; and an iteration that starts in a safe state makes exactly the
    calls of this pass, over the registry as the input step left it. *)
Theorem world_matrices_updated_once_in_pool_order :
  (∀ w, update_world_matrices w = (transform_calls (transforms w), Done () w))
  ∧ (∀ ts, NoDup (transform_calls ts))
  ∧ (∀ ts e, Transform_UpdateWorldMatrix e ∈ transform_calls ts ↔ is_Some (ts !! e))
  ∧ (∀ ts (f : Transform → Transform),
       transform_calls (f <$> ts) = transform_calls ts)
  ∧ (child_first_pool !! 1%N = Some {| parent := Some 0%N |}
     ∧ transform_calls child_first_pool
       = [Transform_UpdateWorldMatrix 1%N; Transform_UpdateWorldMatrix 0%N])
  ∧ (∀ sc inp w, Safe w →
       ∃ t1 w1, handle_input sc inp w = (t1, Done () w1)
         ∧ calls_of_step UpdateTransforms (trace_of (frame sc inp w))
           = transform_calls (transforms w1)).
Proof.
  split_and!.
  - apply update_world_matrices_run.
  - apply NoDup_transform_calls.
  - apply elem_of_transform_calls.
  - intros ts f. apply transform_calls_fmap.
  - by vm_compute.
  - by vm_compute.
  - intros sc inp w HS.
    destruct (frame_passes _ _ sc inp w (Safe_Inv w HS)) as (t1 & w1 & ? & _ & ?).
    by exists t1, w1.
Qed.

(** C6: the behaviour pass calls [Update] once for every attached script
    whose [Enabled] flag is set, and for no other: no call occurs twice, and
    a call for script [i] of entity [e] occurs exactly when that script is
    attached and enabled; and an iteration that starts in a safe state makes
    exactly the calls of this pass, over the bindings as the key toggles of
    the same iteration left them. *)
Theorem behaviours_updated_once_if_enabled :
  (∀ w, update_behaviours w = (behaviour_calls (bindings w), Done () w))
  ∧ (∀ m, NoDup (behaviour_calls m))
  ∧ (∀ m e i k,
       IBehaviour_Update e i k ∈ behaviour_calls m ↔
       ∃ bs b, m !! e = Some bs ∧ bs !! i = Some b ∧ kind b = k ∧ Enabled b = true)
  ∧ (∀ sc inp w, Safe w →
       ∃ t1 w1, handle_input sc inp w = (t1, Done () w1)
         ∧ calls_of_step RunBehaviours (trace_of (frame sc inp w))
           = behaviour_calls (bindings w1)).
Proof.
  split_and!.
  - apply update_behaviours_run.
  - apply NoDup_behaviour_calls.
  - apply elem_of_behaviour_calls.
  - intros sc inp w HS.
    destruct (frame_passes _ _ sc inp w (Safe_Inv w HS)) as (t1 & w1 & ? & ? & _).
    by exists t1, w1.
Qed.

(** ** Window and context *)

Lemma filter_after_init (f : Call → bool) t :
  (∀ c, f c = true → startup_only c = true) →
  Forall after_init t → List.filter f t = [].
Proof.
  intros Hf. induction 1 as [|c t [_ Hc] _ IH]; [done|].
  simpl. rewrite IH. destruct (f c) eqn:E; [|done].
  apply Hf in E. congruence.
Qed.

(** C7 (the code at the failing input): when [glfwInit] and the GLAD loader
    succeed, the run logs no error at all and, once the window is closed,
    returns 0, whatever handle [glfwCreateWindow] returned: [InitGLFW] never
    looks at it. *)
Theorem window_creation_result_unchecked (env : Env) (fuel : nat) :
  glfwInit_ok env = true → gladLoadGLLoader_ok env = true →
  (∀ w, ∃ t w', InitGLFW env w = (t, Done true w')
                ∧ List.filter is_log_error t = [])
  ∧ List.filter is_log_error (trace_of (run env fuel)) = []
  ∧ (closes_within env fuel 0 = true → ∃ w, result_of (run env fuel) = Done 0 w).
Proof.
  intros Hi Hg. split_and!.
  - intros w. eexists _, _. by rewrite (InitGLFW_ok env w Hi).
  - destruct (run_shape env fuel) as (rest & -> & Hrest & _).
    rewrite List.filter_app. unfold init_calls. rewrite Hi, Hg. simpl.
    apply filter_after_init; [|done]. by intros [].
  - intros Hc.
    destruct (startup_run env Hi Hg)
      as (ts & sc & w0 & _ & _ & HI & _ & _ & Hsh & Em).
    unfold run, result_of. rewrite Em, main_epilogue. cbn [snd].
    destruct (game_loop_run env sc _ fuel Hsh 0 w0 HI) as (_ & _ & _ & Hr).
    rewrite Hc in Hr. destruct Hr as (w' & Hr & _).
    destruct (game_loop env sc fuel 0 w0) as [t r]. simpl in Hr. subst r.
    by exists w'.
Qed.

Lemma PollEvents_run inp w :
  PollEvents inp w
  = (glfwPollEvents
       :: flat_map (resize_calls (elements (cameras w))) (size_events inp),
     Done () (foldl (λ w sz, set_window_size sz w) w (size_events inp))).
Proof.
  unfold PollEvents. rewrite call_bind.
  generalize (size_events inp). intros l.
  enough (for_each (λ sz : Z * Z, modify (set_window_size sz);;
                      GlfwWindowResizedCallback sz.1 sz.2) l w
          = (flat_map (resize_calls (elements (cameras w))) l,
             Done () (foldl (λ w sz, set_window_size sz w) w l))) as ->; [done|].
  revert w. induction l as [|sz l IH]; intros w; [done|].
  cbn [for_each flat_map foldl].
  assert ((modify (set_window_size sz);; GlfwWindowResizedCallback sz.1 sz.2) w
          = (resize_calls (elements (cameras w)) sz,
             Done () (set_window_size sz w))) as E.
  { rewrite modify_bind. unfold GlfwWindowResizedCallback.
    rewrite call_bind, get_world_bind.
    rewrite (for_each_calls _ (λ cam, [Camera_ResizeWindow cam sz.1 sz.2]))
      by done.
    unfold resize_calls. cbn [fst snd cameras set_window_size set_window].
    assert (∀ cams, flat_map (λ cam, [Camera_ResizeWindow cam sz.1 sz.2]) cams
                    = map (λ cam, Camera_ResizeWindow cam sz.1 sz.2) cams) as ->.
    { intros cams. induction cams; simpl; congruence. }
    done. }
  rewrite (bind_Done _ _ _ _ _ _ E). by rewrite IH.
Qed.

(** * Instances on concrete inputs *)

Example RenderLess_layer_first :
  RenderLess {| Mesh := 1; Material := {| get := 9; pointee := {| Shader := 9; RenderLayer := 0 |} |} |}
             {| Mesh := 1; Material := {| get := 1; pointee := {| Shader := 1; RenderLayer := 100 |} |} |}
  = true.
Proof. reflexivity. Qed.

Example RenderLess_same_keys :
  RenderLess {| Mesh := 1; Material := {| get := 5; pointee := {| Shader := 7; RenderLayer := 0 |} |} |}
             {| Mesh := 2; Material := {| get := 5; pointee := {| Shader := 7; RenderLayer := 0 |} |} |}
  = false.
Proof. reflexivity. Qed.

Example sort_sample_group_reversed :
  map ent (sort_renderGroup (rev sample_group)) = [1%N; 0%N; 2%N].
Proof. reflexivity. Qed.

Example draw_sample_group_binds :
  List.filter is_shader_bind (draw_pass_calls None sample_group)
  = [Shader_Bind 31; Shader_Bind 31; Shader_Bind 32; Shader_Bind 32].
Proof. reflexivity. Qed.

Example sample_run_returns_0 :
  ∃ w, result_of (run sample_env 2) = Done 0 w ∧ selectedVao w = 1 ∧ frameIx w = 1.
Proof. eexists. split; [by vm_compute|]. by vm_compute. Qed.

Example sample_run_out_of_fuel : result_of (run sample_env 1) = Running.
Proof. by vm_compute. Qed.

Example glfwInit_failure_exits_1 :
  ∀ env fuel, glfwInit_ok env = false →
    run env fuel
    = ([Logger_Init; glfwInit; LOG_ERROR "Failed to initialize GLFW"], Done 1 World0).
Proof.
  intros env fuel Hi. unfold run, main. rewrite call_bind.
  by rewrite !(bind_Done _ _ _ _ _ _ (InitGLFW_failed env _ Hi)).
Qed.

Example glad_failure_exits_1 :
  ∀ env fuel, glfwInit_ok env = true → gladLoadGLLoader_ok env = false →
    ∃ w, run env fuel = (init_calls env, Done 1 w).
Proof.
  intros env fuel Hi Hg. unfold run, main, init_calls. rewrite call_bind, Hi, Hg.
  rewrite !(bind_Done _ _ _ _ _ _ (InitGLFW_ok env _ Hi)). cbn [negb].
  rewrite !(bind_Done _ _ _ _ _ _ (InitGLAD_failed env _ Hg)).
  by eexists.
Qed.

(** * Witnesses *)

Local Ltac sample_Safe := split; vm_compute; repeat split; try done; discriminate.

Lemma world_matrices_updated_once_in_pool_order_witness :
  Safe sample_world
  ∧ ∃ t1 w1,
      handle_input sample_scene quiet_input sample_world = (t1, Done () w1)
      ∧ calls_of_step UpdateTransforms
          (trace_of (frame sample_scene quiet_input sample_world))
        = transform_calls (transforms w1).
Proof.
  assert (Safe sample_world) as HS by sample_Safe.
  split; [exact HS|].
  destruct world_matrices_updated_once_in_pool_order as (_ & _ & _ & _ & _ & H).
  apply H, HS.
Defined.

Lemma behaviours_updated_once_if_enabled_witness :
  Safe sample_world
  ∧ ∃ t1 w1,
      handle_input sample_scene quiet_input sample_world = (t1, Done () w1)
      ∧ calls_of_step RunBehaviours
          (trace_of (frame sample_scene quiet_input sample_world))
        = behaviour_calls (bindings w1).
Proof.
  assert (Safe sample_world) as HS by sample_Safe.
  split; [exact HS|].
  destruct behaviours_updated_once_if_enabled as (_ & _ & _ & H).
  apply H, HS.
Defined.

Lemma window_creation_result_unchecked_witness :
  glfwInit_ok no_window_env = true ∧ gladLoadGLLoader_ok no_window_env = true
  ∧ glfwCreateWindow_result no_window_env = nullptr
  ∧ closes_within no_window_env 1 0 = true
  ∧ List.filter is_log_error (trace_of (run no_window_env 1)) = []
  ∧ ∃ w, result_of (run no_window_env 1) = Done 0 w.
Proof.
  split; [reflexivity|]. split; [reflexivity|]. split; [reflexivity|].
  split; [reflexivity|].
  destruct (window_creation_result_unchecked no_window_env 1 eq_refl eq_refl)
    as (_ & H1 & H2).
  split; [exact H1|]. apply H2. reflexivity.
Defined.

Lemma fpsBuffer_index_in_bounds_witness :
  0 ≤ frameIx World0 < 128
  ∧ (fpsBuffer_store 60;; frameIx_advance) World0
    = ([Subscript "fpsBuffer" 0 128],
       Done () (set_fps 1 (<[0%nat := Some 60]> (fpsBuffer World0)) World0)).
Proof.
  assert (0 ≤ frameIx World0 < 128) as H by (simpl; lia).
  split; [exact H|].
  destruct fpsBuffer_index_in_bounds as [_ Hstep].
  apply (Hstep 60 World0 H).
Defined.

Lemma selectedVao_stays_in_range_witness :
  Safe sample_world
  ∧ ∃ t w', toggle_KP_ADD sample_world = (t, Done () w')
      ∧ Forall controllables_in_bounds t
      ∧ Safe w' ∧ controllables w' = controllables sample_world
      ∧ selectedVao w'
        = (if selectedVao sample_world + 1
              =? Z.of_nat (length (controllables sample_world))
           then 0 else selectedVao sample_world + 1).
Proof.
  assert (Safe sample_world) as HS by sample_Safe.
  split; [exact HS|].
  destruct selectedVao_stays_in_range as (H & _ & _).
  apply H, HS.
Defined.

(** * Further properties *)

(** ** The comparator as an ordering *)

Lemma key_ltb_irrefl a : key_ltb a a = false.
Proof.
  destruct (key_ltb a a) eqn:E; [|done]. by rewrite (key_ltb_asym _ _ E) in E.
Qed.

Lemma key_ltb_trans a b c :
  key_ltb a b = true → key_ltb b c = true → key_ltb a c = true.
Proof.
  destruct a as [[a1 a2] a3], b as [[b1 b2] b3], c as [[c1 c2] c3].
  unfold key_ltb.
  rewrite !orb_true_iff, !andb_true_iff, !orb_true_iff, !andb_true_iff.
  rewrite !Z.ltb_lt, !Z.eqb_eq. lia.
Qed.

Lemma key_ltb_false_antisym a b :
  key_ltb a b = false → key_ltb b a = false → a = b.
Proof.
  intros H1 H2. apply key_eqb_eq. by rewrite key_eqb_incomparable, H1, H2.
Qed.

(** X1: the comparator handed to the sort is a strict weak ordering, as a
    comparison sort requires: it is irreflexive, asymmetric and transitive,
    and being equivalent (neither less than the other) is transitive too. *)
Theorem RenderLess_strict_weak_ordering :
  (∀ a, RenderLess a a = false)
  ∧ (∀ a b, RenderLess a b && RenderLess b a = false)
  ∧ (∀ a b c, implb (RenderLess a b && RenderLess b c) (RenderLess a c) = true)
  ∧ (∀ a b c, implb (equivalent a b && equivalent b c) (equivalent a c) = true).
Proof.
  split_and!.
  - intros a. rewrite RenderLess_key_ltb. apply key_ltb_irrefl.
  - intros a b. rewrite !RenderLess_key_ltb.
    destruct (key_ltb (key a) (key b)) eqn:E; [|done].
    by rewrite (key_ltb_asym _ _ E).
  - intros a b c. rewrite !RenderLess_key_ltb.
    destruct (key_ltb (key a) (key b)) eqn:E1; [|done].
    destruct (key_ltb (key b) (key c)) eqn:E2; [|done].
    by rewrite (key_ltb_trans _ _ _ E1 E2).
  - intros a b c. unfold equivalent. rewrite !RenderLess_key_ltb.
    rewrite <- !key_eqb_incomparable.
    destruct (key_eqb (key a) (key b)) eqn:E1; [|done].
    destruct (key_eqb (key b) (key c)) eqn:E2; [|done].
    apply key_eqb_eq in E1, E2.
    rewrite (proj2 (key_eqb_eq (key a) (key c))) by congruence. done.
Qed.

(** ** The draw pass switches state as seldom as the order allows *)

Lemma not_after_refl a : not_after a a.
Proof. unfold not_after. rewrite RenderLess_key_ltb. apply key_ltb_irrefl. Qed.

Lemma not_after_trans a b c : not_after a b → not_after b c → not_after a c.
Proof.
  unfold not_after. rewrite !RenderLess_key_ltb. intros H1 H2.
  by eapply key_ltb_false_trans.
Qed.

(** In a sorted sequence a key that shows again has not left in between. *)
Lemma not_after_between a b x :
  not_after a b → not_after b x → key (renderer x) = key (renderer a) →
  key (renderer b) = key (renderer a).
Proof.
  unfold not_after. rewrite !RenderLess_key_ltb. intros H1 H2 E.
  rewrite E in H2. by apply key_ltb_false_antisym.
Qed.

Lemma elem_of_switch_points differs prev g r :
  r ∈ switch_points differs prev g → r ∈ g.
Proof.
  revert prev. induction g as [|x g IH]; intros prev; simpl; [done|].
  rewrite elem_of_app. intros [H|H].
  - destruct (differs prev x); [|by apply elem_of_nil in H].
    apply list_elem_of_singleton in H as ->. left.
  - right. by eapply IH.
Qed.

Section SwitchPoints.
Context {K : Type} (c : Renderable → Z) (k : Renderable → K).
Context (differs : option Renderable → Renderable → bool).
Hypothesis differs_Some : ∀ p r, differs (Some p) r = negb (c p =? c r).
Hypothesis differs_None : ∀ r, differs None r = true.
Context (g0 : list Renderable).
(** [k] determines the compared pointer, and between two renderables with
    the same [k] a sorted sequence holds only that pointer. *)
Hypothesis k_c : ∀ a x, a ∈ g0 → x ∈ g0 → k x = k a → c x = c a.
Hypothesis between : ∀ a b x, a ∈ g0 → b ∈ g0 → x ∈ g0 →
  not_after a b → not_after b x → k x = k a → c b = c a.

Lemma switch_points_fresh g : ∀ p a,
  a ∈ g0 → p ∈ g0 → (∀ x, x ∈ g → x ∈ g0) →
  StronglySorted not_after (p :: g) → not_after a p →
  k a ∉ map k (switch_points differs (Some p) g).
Proof.
  induction g as [|r g IH]; intros p a Ha Hp Hg Hs Hap; simpl.
  { apply not_elem_of_nil. }
  apply StronglySorted_inv in Hs as [Hs Hpr].
  apply Forall_cons in Hpr as [Hpr _].
  assert (r ∈ g0) as Hr by (apply Hg; left).
  rewrite map_app, elem_of_app. intros [Hin|Hin].
  - rewrite differs_Some in Hin.
    destruct (Z.eqb_spec (c p) (c r)) as [E|E]; simpl in Hin;
      [by apply elem_of_nil in Hin|].
    apply list_elem_of_singleton in Hin. apply E.
    rewrite (between a p r), (k_c a r); done.
  - revert Hin. apply IH; try done.
    + intros x Hx. apply Hg. by right.
    + by eapply not_after_trans.
Qed.

Lemma switch_points_NoDup g prev :
  (∀ x, x ∈ g → x ∈ g0) →
  StronglySorted not_after g →
  NoDup (map k (switch_points differs prev g)).
Proof.
  revert prev. induction g as [|r g IH]; intros prev Hg Hs; simpl; [constructor|].
  pose proof Hs as [Hs' _]%StronglySorted_inv.
  assert (r ∈ g0) as Hr by (apply Hg; left).
  assert (∀ x, x ∈ g → x ∈ g0) as Hg' by (intros x Hx; apply Hg; by right).
  assert (NoDup (map k (switch_points differs (Some r) g))) as HN by by apply IH.
  destruct (differs prev r); [|done]. simpl. constructor; [|done].
  apply switch_points_fresh; try done. apply not_after_refl.
Qed.

(** Every pointer used by the group is switched to at least once. *)
Lemma switch_points_complete g prev x :
  x ∈ g →
  c x ∈ map c (switch_points differs prev g)
  ∨ (∃ p, prev = Some p ∧ c x = c p).
Proof.
  revert prev. induction g as [|r g IH]; intros prev Hx; [by apply elem_of_nil in Hx|].
  simpl. apply elem_of_cons in Hx as [->|Hx].
  - destruct prev as [p|].
    + rewrite differs_Some. destruct (Z.eqb_spec (c p) (c r)) as [E|E]; simpl.
      * right. eauto.
      * left. left.
    + rewrite differs_None. left. left.
  - destruct (IH (Some r) Hx) as [H|(p & [= <-] & E)].
    + left. rewrite map_app, elem_of_app. by right.
    + destruct prev as [p|].
      * rewrite differs_Some. destruct (Z.eqb_spec (c p) (c r)) as [E'|E']; simpl.
        -- right. exists p. split; [done|congruence].
        -- left. rewrite E. left.
      * rewrite differs_None. left. rewrite E. left.
Qed.
End SwitchPoints.

Lemma draw_pass_calls_applies g : ∀ prev,
  List.filter is_material_apply (draw_pass_calls prev g)
  = map (λ r, ShaderMaterial_Apply (material_of (renderer r)))
        (switch_points material_differs prev g).
Proof.
  induction g as [|r g IH]; intros prev; [done|].
  cbn [draw_pass_calls switch_points].
  rewrite List.filter_app, map_app, IH. f_equal.
  unfold draw_calls.
  by destruct (shader_differs prev r), (material_differs prev r).
Qed.

Lemma draw_pass_calls_view_uploads g : ∀ prev,
  List.filter is_view_upload (draw_pass_calls prev g)
  = map (λ r, Shader_SetUniformMatrix (shader_of (renderer r)) "u_View")
        (switch_points shader_differs prev g).
Proof.
  induction g as [|r g IH]; intros prev; [done|].
  cbn [draw_pass_calls switch_points].
  rewrite List.filter_app, map_app, IH. f_equal.
  unfold draw_calls.
  by destruct (shader_differs prev r), (material_differs prev r).
Qed.

Lemma one_object_key g a b :
  one_object_per_address g → a ∈ g → b ∈ g →
  material_of (renderer a) = material_of (renderer b) →
  key (renderer a) = key (renderer b).
Proof.
  intros Hg Ha Hb E. unfold key, layer_of, shader_of.
  by rewrite (Hg a b Ha Hb E), E.
Qed.

(** X2: over a group that is sorted with respect to the comparator, whose
    handles are non-null and in which one address names one material, the
    draw pass applies every material the group uses, and applies none of
    them twice, however many renderables share it. *)
Theorem each_material_applied_once (g : list Renderable) (w : World) :
  forallb valid_handles g = true →
  StronglySorted not_after g →
  one_object_per_address g →
  NoDup (List.filter is_material_apply
           (trace_of (draw_each (nullptr, nullptr) g w)))
  ∧ ∀ r, r ∈ g →
      ShaderMaterial_Apply (material_of (renderer r))
      ∈ List.filter is_material_apply
          (trace_of (draw_each (nullptr, nullptr) g w)).
Proof.
  intros Hv Hs Ho.
  rewrite (draw_each_run g _ None w Hv eq_refl). unfold trace_of. cbn [fst].
  rewrite draw_pass_calls_applies. split.
  - rewrite (list_fmap_compose (λ r, material_of (renderer r)) ShaderMaterial_Apply).
    apply (NoDup_fmap_2_strong ShaderMaterial_Apply); [by intros ?? _ _ [= ->]|].
    apply (switch_points_NoDup (λ r, material_of (renderer r))
             (λ r, material_of (renderer r)) material_differs) with (g0 := g);
      try done.
    intros a b x Ha Hb Hx Hab Hbx E.
    pose proof (one_object_key g x a Ho Hx Ha E) as Ek.
    pose proof (not_after_between a b x Hab Hbx Ek) as Eb.
    unfold key in Eb. congruence.
  - intros r Hr.
    destruct (switch_points_complete (λ r, material_of (renderer r))
                material_differs (λ _ _, eq_refl) (λ _, eq_refl) g None r Hr)
      as [H|(p & [=] & _)].
    apply list_elem_of_fmap in H as (y & Ey & Hy).
    apply list_elem_of_fmap. exists y. split; [|done]. simpl in Ey. by rewrite Ey.
Qed.

Lemma each_material_applied_once_witness :
  forallb valid_handles shared_group = true
  ∧ StronglySorted not_after shared_group
  ∧ one_object_per_address shared_group
  ∧ NoDup (List.filter is_material_apply
             (trace_of (draw_each (nullptr, nullptr) shared_group World0))).
Proof.
  assert (StronglySorted not_after shared_group) as Hs by (repeat constructor).
  assert (one_object_per_address shared_group) as Ho.
  { intros a b Ha Hb.
    repeat (apply elem_of_cons in Ha as [->|Ha]);
    repeat (apply elem_of_cons in Hb as [->|Hb]);
    try (by apply elem_of_nil in Ha); try (by apply elem_of_nil in Hb);
    by vm_compute. }
  split; [reflexivity|]. split; [exact Hs|]. split; [exact Ho|].
  apply (each_material_applied_once shared_group World0 eq_refl Hs Ho).
Defined.

Lemma switch_points_sublist differs g : ∀ prev,
  sublist (switch_points differs prev g) g.
Proof.
  induction g as [|r g IH]; intros prev; simpl; [constructor|].
  destruct (differs prev r); simpl.
  - by apply sublist_skip.
  - by apply sublist_cons.
Qed.

Lemma not_after_layer_shader a b x :
  not_after a b → not_after b x →
  layer_and_shader x = layer_and_shader a →
  layer_and_shader b = layer_and_shader a.
Proof.
  unfold not_after, layer_and_shader. rewrite !RenderLess_key_ltb.
  unfold key, key_ltb. intros H1 H2 [= El Es]. rewrite El, Es in H2.
  f_equal; lia.
Qed.

(** X3: over a group sorted with respect to the comparator, the draw pass
    sets up a shader (binds it and uploads the per-frame uniforms) for a
    subsequence of the group that holds no two renderables with the same
    render layer and shader, and that holds every shader the group uses. *)
Theorem shader_set_up_once_per_layer (g : list Renderable) (w : World) :
  forallb valid_handles g = true →
  StronglySorted not_after g →
  ∃ firsts,
    sublist firsts g
    ∧ List.filter is_view_upload (trace_of (draw_each (nullptr, nullptr) g w))
      = map (λ r, Shader_SetUniformMatrix (shader_of (renderer r)) "u_View") firsts
    ∧ NoDup (map layer_and_shader firsts)
    ∧ ∀ r, r ∈ g →
        shader_of (renderer r) ∈ map (λ r, shader_of (renderer r)) firsts.
Proof.
  intros Hv Hs. exists (switch_points shader_differs None g).
  split; [apply switch_points_sublist|]. split.
  { rewrite (draw_each_run g _ None w Hv eq_refl). unfold trace_of. cbn [fst].
    apply draw_pass_calls_view_uploads. }
  split.
  - apply (switch_points_NoDup (λ r, shader_of (renderer r)) layer_and_shader
             shader_differs) with (g0 := g); try done.
    + intros a x _ _ [= _ E]. done.
    + intros a b x _ _ _ Hab Hbx E.
      pose proof (not_after_layer_shader a b x Hab Hbx E) as [= _ Eb]. done.
  - intros r Hr.
    destruct (switch_points_complete (λ r, shader_of (renderer r))
                shader_differs (λ _ _, eq_refl) (λ _, eq_refl) g None r Hr)
      as [H|(p & [=] & _)]. done.
Qed.

Lemma shader_set_up_once_per_layer_witness :
  forallb valid_handles shared_group = true
  ∧ StronglySorted not_after shared_group
  ∧ ∃ firsts,
      sublist firsts shared_group
      ∧ List.filter is_view_upload
          (trace_of (draw_each (nullptr, nullptr) shared_group World0))
        = map (λ r, Shader_SetUniformMatrix (shader_of (renderer r)) "u_View") firsts
      ∧ NoDup (map layer_and_shader firsts)
      ∧ ∀ r, r ∈ shared_group →
          shader_of (renderer r) ∈ map (λ r, shader_of (renderer r)) firsts.
Proof.
  assert (StronglySorted not_after shared_group) as Hs by (repeat constructor).
  split; [reflexivity|]. split; [exact Hs|].
  apply (shader_set_up_once_per_layer shared_group World0 eq_refl Hs).
Defined.

(** X4: when no shader is shared between render layers, the draw pass over
    a sorted group sets up each shader exactly once per pass. *)
Theorem each_shader_set_up_once (g : list Renderable) (w : World) :
  forallb valid_handles g = true →
  StronglySorted not_after g →
  shader_on_one_layer g →
  NoDup (List.filter is_view_upload
           (trace_of (draw_each (nullptr, nullptr) g w)))
  ∧ ∀ r, r ∈ g →
      Shader_SetUniformMatrix (shader_of (renderer r)) "u_View"
      ∈ trace_of (draw_each (nullptr, nullptr) g w).
Proof.
  intros Hv Hs Ho.
  rewrite (draw_each_run g _ None w Hv eq_refl). unfold trace_of. cbn [fst].
  split.
  - rewrite draw_pass_calls_view_uploads.
    rewrite (list_fmap_compose (λ r, shader_of (renderer r))
               (λ s, Shader_SetUniformMatrix s "u_View")).
    apply (NoDup_fmap_2_strong (λ s, Shader_SetUniformMatrix s "u_View"));
      [by intros ?? _ _ [= ->]|].
    apply (switch_points_NoDup (λ r, shader_of (renderer r))
             (λ r, shader_of (renderer r)) shader_differs) with (g0 := g);
      try done.
    intros a b x Ha Hb Hx Hab Hbx E.
    assert (layer_and_shader b = layer_and_shader a) as [= _ Eb]; [|done].
    apply (not_after_layer_shader a b x Hab Hbx).
    unfold layer_and_shader. by rewrite (Ho x a Hx Ha E), E.
  - intros r Hr.
    destruct (switch_points_complete (λ r, shader_of (renderer r))
                shader_differs (λ _ _, eq_refl) (λ _, eq_refl) g None r Hr)
      as [H|(p & [=] & _)].
    apply list_elem_of_fmap in H as (y & Ey & Hy). simpl in Ey. rewrite Ey.
    assert (Shader_SetUniformMatrix (shader_of (renderer y)) "u_View"
            ∈ List.filter is_view_upload (draw_pass_calls None g)) as Hin.
    { rewrite draw_pass_calls_view_uploads. apply list_elem_of_fmap. eauto. }
    apply list_elem_of_In, List.filter_In in Hin as [Hin _].
    by apply list_elem_of_In.
Qed.

Lemma each_shader_set_up_once_witness :
  forallb valid_handles shared_group = true
  ∧ StronglySorted not_after shared_group
  ∧ shader_on_one_layer shared_group
  ∧ NoDup (List.filter is_view_upload
             (trace_of (draw_each (nullptr, nullptr) shared_group World0))).
Proof.
  assert (StronglySorted not_after shared_group) as Hs by (repeat constructor).
  assert (shader_on_one_layer shared_group) as Ho.
  { intros a b Ha Hb.
    repeat (apply elem_of_cons in Ha as [->|Ha]);
    repeat (apply elem_of_cons in Hb as [->|Hb]);
    try (by apply elem_of_nil in Ha); try (by apply elem_of_nil in Hb);
    by vm_compute. }
  split; [reflexivity|]. split; [exact Hs|]. split; [exact Ho|].
  apply (each_shader_set_up_once shared_group World0 eq_refl Hs Ho).
Defined.

(** ** Null handles in the draw pass *)

Lemma draw_renderable_null st r w :
  valid_handles r = false →
  result_of (draw_renderable st r w) = Undefined.
Proof.
  unfold valid_handles, draw_renderable, result_of, deref, SetupShaderForFrame,
    RenderVAO, deref.
  intros H.
  destruct (Z.eqb_spec (material_of (renderer r)) nullptr) as [Em|Em]; [done|].
  destruct (Z.eqb_spec (shader_of (renderer r)) nullptr) as [Es|Es].
  - rewrite Es. by destruct (Z.eqb_spec st.1 nullptr), (Z.eqb_spec st.2 (material_of (renderer r))).
  - destruct (Z.eqb_spec (Mesh (renderer r)) nullptr) as [Ev|Ev]; [|done].
    rewrite Ev.
    by destruct (Z.eqb_spec st.1 (shader_of (renderer r))),
                (Z.eqb_spec st.2 (material_of (renderer r))).
Qed.

(** X5: the draw pass runs to its end exactly when every renderable of the
    group has a non-null material, shader and mesh; it then leaves the
    program state as it was.  One null handle makes the pass undefined,
    whatever [current] and [currentMat] held. *)
Theorem draw_pass_defined_iff_handles_valid (st : ptr * ptr) (g : list Renderable)
    (w : World) :
  result_of (draw_each st g w)
  = if forallb valid_handles g then Done () w else Undefined.
Proof.
  revert st. induction g as [|r g IH]; intros st; [done|].
  cbn [draw_each forallb]. destruct (valid_handles r) eqn:Hr.
  - unfold result_of in *. erewrite bind_Done by (by apply draw_renderable_run).
    cbn [snd andb]. apply IH.
  - pose proof (draw_renderable_null st r w Hr) as Hn.
    unfold result_of in *. unfold mbind, M_bind.
    destruct (draw_renderable st r w) as [t [a w'| |]]; done.
Qed.

(** ** The states of the loop *)

Lemma loop_states_length env sc p fuel :
  shader sc ≠ nullptr → ∀ n w,
  Inv True p w →
  length (loop_states env sc fuel n w) = open_iterations env fuel n.
Proof.
  intros Hsh. induction fuel as [|fuel IH]; intros n w HI; [done|].
  cbn [loop_states open_iterations].
  destruct (should_close env n); [done|].
  destruct (frame_run True p sc (frame_input env n) w Hsh HI)
    as (t1 & w1 & tg & w' & _ & _ & _ & _ & _ & HI' & Ef).
  rewrite Ef. cbn [snd length]. by rewrite (IH _ _ HI').
Qed.

(** An invariant indexed by the number of iterations made holds at the
    head of every iteration. *)
Lemma loop_states_keeps env sc (J : nat → World → Prop) fuel : ∀ n w,
  (∀ n, keeps (J n) (frame sc (frame_input env n)) (λ _ w, J (S n) w)) →
  J n w →
  ∀ i wi, loop_states env sc fuel n w !! i = Some wi → J (n + i)%nat wi.
Proof.
  induction fuel as [|fuel IH]; intros n w HJ Hw i wi; [done|].
  cbn [loop_states]. destruct (should_close env n); [done|].
  destruct i as [|i]; simpl.
  { intros [= <-]. by rewrite Nat.add_0_r. }
  destruct (frame sc (frame_input env n) w) as [t [[] w'| |]] eqn:Ef; try done.
  simpl. intros Hi. replace (n + S i)%nat with (S n + i)%nat by lia.
  eapply IH; [done| |done]. by eapply HJ.
Qed.

Lemma loop_iterations_states env sc fuel : ∀ n w,
  loop_iterations env sc fuel n w
  = imap (λ i wi, (frame sc (frame_input env (n + i)) wi).1)
         (loop_states env sc fuel n w).
Proof.
  induction fuel as [|fuel IH]; intros n w; [done|].
  cbn [loop_states loop_iterations]. destruct (should_close env n); [done|].
  cbn [imap]. rewrite Nat.add_0_r. f_equal.
  destruct (frame sc (frame_input env n) w) as [t [[] w'| |]]; try done.
  cbn [snd]. rewrite IH. apply imap_ext. intros i x _. simpl.
  by replace (n + S i)%nat with (S (n + i)) by lia.
Qed.

(** ** What the steps of an iteration keep *)

Lemma BehaviourBinding_Get_alter_eq k bs f i :
  (∀ b, kind (f b) = kind b) →
  BehaviourBinding_Get k (alter f i bs) = BehaviourBinding_Get k bs.
Proof.
  intros Hf. unfold BehaviourBinding_Get.
  revert i. induction bs as [|b bs IH]; intros i; [done|].
  destruct i as [|i]; simpl.
  - rewrite Hf. by destruct (decide (kind b = k)).
  - destruct (decide (kind b = k)); [done|].
    change (list_alter f i bs) with (alter f i bs).
    pose proof (IH i) as E.
    destruct (list_find _ (alter f i bs)) as [[j x]|],
             (list_find _ bs) as [[j' x']|]; simpl in *; congruence.
Qed.

Section SetterStable.
Context (I : World → Prop).
Hypothesis I_selectedVao : ∀ s w, I w → I (set_selectedVao s w).
Hypothesis I_alter : ∀ w e bs i f,
  (∀ b, kind (f b) = kind b) →
  bindings w !! e = Some bs →
  BehaviourBinding_Get SimpleMoveBehaviour bs = Some i →
  I w → I (set_bindings (<[e := alter f i bs]> (bindings w)) w).

Lemma update_behaviour_keeps e f :
  (∀ b, kind (f b) = kind b) →
  keeps I (update_behaviour SimpleMoveBehaviour e f) (λ _ w, I w).
Proof.
  intros Hf w t a w'. unfold update_behaviour.
  destruct (bindings w !! e) as [bs|] eqn:Hbs; [|done].
  destruct (BehaviourBinding_Get _ bs) as [i|] eqn:Hi; [|done].
  intros [= _ _ <-] HI. by apply I_alter.
Qed.

Lemma toggle_KP_ADD_keeps : keeps I toggle_KP_ADD (λ _ w, I w).
Proof.
  unfold toggle_KP_ADD.
  eapply keeps_bind; [apply keeps_reads, reads_controllables_at|]. intros e.
  eapply keeps_bind; [by apply update_behaviour_keeps|]. intros [].
  eapply keeps_bind; [apply (keeps_modify I I); intros w; apply I_selectedVao|].
  intros []. eapply keeps_bind; [apply keeps_reads, reads_get|]. intros w0.
  eapply keeps_bind with (Q := λ _ w, I w).
  { destruct (_ >=? _); [|apply keeps_ret].
    apply (keeps_modify I I). intros w. apply I_selectedVao. }
  intros []. eapply keeps_bind; [apply keeps_reads, reads_controllables_at|].
  intros e'. by apply update_behaviour_keeps.
Qed.

Lemma toggle_KP_SUBTRACT_keeps : keeps I toggle_KP_SUBTRACT (λ _ w, I w).
Proof.
  unfold toggle_KP_SUBTRACT.
  eapply keeps_bind; [apply keeps_reads, reads_controllables_at|]. intros e.
  eapply keeps_bind; [by apply update_behaviour_keeps|]. intros [].
  eapply keeps_bind; [apply (keeps_modify I I); intros w; apply I_selectedVao|].
  intros []. eapply keeps_bind; [apply keeps_reads, reads_get|]. intros w0.
  eapply keeps_bind with (Q := λ _ w, I w).
  { destruct (_ <? _); [|apply keeps_ret].
    apply (keeps_modify I I). intros w. apply I_selectedVao. }
  intros []. eapply keeps_bind; [apply keeps_reads, reads_controllables_at|].
  intros e'. by apply update_behaviour_keeps.
Qed.
End SetterStable.

Section FrameKeeps.
Context (I : World → Prop).
Hypothesis I_size : ∀ sz w, I w → I (set_window_size sz w).
Hypothesis I_sort :
  ∀ w, I w → I (set_renderGroup (sort_renderGroup (renderGroup w)) w).
Hypothesis I_flip : ∀ w e bs i,
  bindings w !! e = Some bs →
  BehaviourBinding_Get SimpleMoveBehaviour bs = Some i →
  I w → I (set_bindings (<[e := alter flip_Relative i bs]> (bindings w)) w).
Hypothesis I_add : keeps I toggle_KP_ADD (λ _ w, I w).
Hypothesis I_subtract : keeps I toggle_KP_SUBTRACT (λ _ w, I w).

Lemma flip_Relative_keeps e :
  keeps I (update_behaviour SimpleMoveBehaviour e flip_Relative) (λ _ w, I w).
Proof.
  intros w t a w'. unfold update_behaviour.
  destruct (bindings w !! e) as [bs|] eqn:Hbs; [|done].
  destruct (BehaviourBinding_Get _ bs) as [i|] eqn:Hi; [|done].
  intros [= _ _ <-] HI. by apply I_flip.
Qed.

Lemma keyToggles_keeps sc kw :
  kw ∈ keyToggles sc → keeps I kw.2 (λ _ w, I w).
Proof.
  unfold keyToggles. rewrite !elem_of_cons, elem_of_nil.
  intros [->|[->|[->|[->|[]]]]]; simpl.
  - apply keeps_reads, reads_call.
  - apply I_add.
  - apply I_subtract.
  - unfold toggle_Y.
    eapply keeps_bind; [apply keeps_reads, reads_controllables_at|]. intros e.
    apply flip_Relative_keeps.
Qed.

Lemma watchers_keeps sc inp :
  keeps I (for_each (KeyPressWatcher_poll inp) (keyToggles sc)) (λ _ w, I w).
Proof.
  apply keeps_for_each. intros kw Hkw. unfold KeyPressWatcher_poll.
  eapply keeps_bind; [apply keeps_reads, reads_call|]. intros [].
  destruct (key_fired inp kw.1); [by eapply keyToggles_keeps|apply keeps_ret].
Qed.

Lemma PollEvents_keeps inp : keeps I (PollEvents inp) (λ _ w, I w).
Proof.
  unfold PollEvents.
  eapply keeps_bind; [apply keeps_reads, reads_call|]. intros [].
  apply keeps_for_each. intros sz _.
  eapply keeps_bind; [apply (keeps_modify I I); intros w; apply I_size|].
  intros []. apply keeps_reads. unfold GlfwWindowResizedCallback.
  apply reads_bind; [apply reads_call|]. intros _.
  apply reads_bind; [apply reads_get|]. intros w.
  apply reads_for_each. intros cam. apply reads_call.
Qed.

Hypothesis I_gui : ∀ g w, I w → I (set_gui_locals g w).

Local Ltac keeps_gui_step :=
  first
    [ apply keeps_ret
    | apply keeps_reads, reads_call
    | apply keeps_reads, reads_deref
    | apply keeps_reads, reads_get
    | apply keeps_reads, reads_controllables_at
    | apply keeps_reads, reads_fpsBuffer_read
    | apply (keeps_modify I I); intros ?; apply I_gui
    | apply keeps_for_each; intros ? _
    | eapply keeps_bind with (Q := λ _ w, I w); [|intros ?]
    | match goal with
      | |- keeps _ (if ?b then _ else _) _ => destruct b
      end ].

Lemma lighting_widgets_keeps sc inp :
  keeps I (lighting_widgets sc inp) (λ _ w, I w).
Proof.
  unfold lighting_widgets, collapsing_header, mode_button, vec3_widget,
    float_widget, set_uniform.
  repeat keeps_gui_step; unfold set_mode_uniform; repeat keeps_gui_step.
Qed.

Lemma fps_stats_keeps inp : keeps I (fps_stats inp) (λ _ w, I w).
Proof.
  unfold fps_stats, fps_stats_step. repeat keeps_gui_step.
Qed.

Lemma debug_gui_keeps sc inp : keeps I (debug_gui sc inp) (λ _ w, I w).
Proof.
  unfold debug_gui.
  eapply keeps_bind; [apply lighting_widgets_keeps|]. intros [].
  eapply keeps_bind; [apply keeps_reads, reads_controllables_at|]. intros e.
  eapply keeps_bind; [apply keeps_reads, reads_call|]. intros [].
  eapply keeps_bind; [apply keeps_reads, reads_controllables_at|]. intros e'.
  eapply keeps_bind; [apply keeps_reads, reads_call|]. intros [].
  eapply keeps_bind with (Q := λ _ w, I w).
  { destruct (checkbox_clicked inp).
    - apply flip_Relative_keeps.
    - apply keeps_reads, update_behaviour_id. }
  intros []. eapply keeps_bind; [apply keeps_reads, reads_call|]. intros [].
  eapply keeps_bind; [apply fps_stats_keeps|]. intros [].
  eapply keeps_bind; [apply keeps_reads, reads_call|]. intros [].
  apply keeps_reads, reads_call.
Qed.

Lemma RenderImGui_keeps sc inp : keeps I (RenderImGui sc inp) (λ _ w, I w).
Proof.
  unfold RenderImGui.
  eapply keeps_bind; [apply keeps_reads, reads_call|]. intros [].
  eapply keeps_bind; [apply keeps_reads, reads_call|]. intros [].
  eapply keeps_bind with (Q := λ _ w, I w).
  { destruct (debug_open inp); [|apply keeps_ret].
    eapply keeps_bind with (Q := λ _ w, I w);
    [|intros []; apply keeps_reads, reads_call].
    apply keeps_for_each. intros func [->|[]%elem_of_nil]%elem_of_cons.
    apply debug_gui_keeps. }
  intros []. apply keeps_reads. repeat reads_step.
Qed.

(** The comparator of the sort reads the material of every renderer. *)
Lemma sort_pass_keeps : keeps I sort_pass (λ _ w, I w).
Proof.
  unfold sort_pass.
  eapply keeps_bind; [apply keeps_reads, reads_get|]. intros w0.
  eapply keeps_bind with (Q := λ _ w, I w).
  { destruct (_ <=? _)%nat; [|apply keeps_ret].
    apply keeps_reads, reads_for_each. intros r. apply reads_deref. }
  intros []. apply (keeps_modify I I), I_sort.
Qed.

(** Everything an iteration does after the input step. *)
Lemma after_input_keeps sc inp :
  keeps I (update_behaviours;; clear_screen;; update_world_matrices;;
           camera_info sc;; sort_pass;; draw_renderGroup;;
           RenderImGui sc inp;; present) (λ _ w, I w).
Proof.
  eapply keeps_bind; [apply keeps_reads, reads_update_behaviours|]. intros [].
  eapply keeps_bind; [apply keeps_reads, reads_clear_screen|]. intros [].
  eapply keeps_bind; [apply keeps_reads, reads_update_world_matrices|]. intros [].
  eapply keeps_bind; [apply keeps_reads, reads_camera_info|]. intros [].
  eapply keeps_bind; [apply sort_pass_keeps|]. intros [].
  eapply keeps_bind; [apply keeps_reads, reads_draw_renderGroup|]. intros [].
  eapply keeps_bind; [apply RenderImGui_keeps|]. intros [].
  apply keeps_reads, reads_present.
Qed.

Hypothesis I_fps : ∀ ix buf w, I w → I (set_fps ix buf w).

Lemma handle_input_keeps sc inp : keeps I (handle_input sc inp) (λ _ w, I w).
Proof.
  unfold handle_input.
  eapply keeps_bind; [apply PollEvents_keeps|]. intros [].
  eapply keeps_bind; [apply keeps_reads, reads_call|]. intros [].
  eapply keeps_bind with (Q := λ _ w, I w).
  { intros w t a w'. unfold fpsBuffer_store.
    destruct (_ && _); [|done]. intros [= _ _ <-]. apply I_fps. }
  intros []. eapply keeps_bind with (Q := λ _ w, I w).
  { unfold frameIx_advance.
    eapply keeps_bind; [apply (keeps_modify I I); intros w; apply I_fps|].
    intros []. eapply keeps_bind; [apply keeps_reads, reads_get|]. intros w.
    destruct (_ >=? _); [|apply keeps_ret].
    apply (keeps_modify I I). intros w'. apply I_fps. }
  intros []. eapply keeps_bind; [apply keeps_reads, reads_call|]. intros [].
  destruct (negb _); [apply watchers_keeps|apply keeps_ret].
Qed.

Lemma frame_keeps sc inp : keeps I (frame sc inp) (λ _ w, I w).
Proof.
  unfold frame. eapply keeps_bind; [apply handle_input_keeps|]. intros [].
  apply after_input_keeps.
Qed.
End FrameKeeps.

(** ** The scene is left as it was set up *)

Lemma script_kinds_alter w e bs i f :
  (∀ b, kind (f b) = kind b) →
  bindings w !! e = Some bs →
  script_kinds (set_bindings (<[e := alter f i bs]> (bindings w)) w)
  = script_kinds w.
Proof.
  intros Hf Hbs. unfold script_kinds. cbn [bindings set_bindings set_registry].
  rewrite fmap_insert.
  rewrite (list_fmap_alter kind f id) by (apply Forall_forall; intros; apply Hf).
  rewrite list_alter_id by done.
  apply insert_id. by rewrite lookup_fmap, Hbs.
Qed.

Lemma same_scene_selectedVao w0 s w :
  same_scene w0 w → same_scene w0 (set_selectedVao s w).
Proof. done. Qed.

Lemma same_scene_alter w0 w e bs i f :
  (∀ b, kind (f b) = kind b) →
  bindings w !! e = Some bs →
  BehaviourBinding_Get SimpleMoveBehaviour bs = Some i →
  same_scene w0 w →
  same_scene w0 (set_bindings (<[e := alter f i bs]> (bindings w)) w).
Proof.
  intros Hf Hbs _ (H1 & H2 & H3 & H4 & H5 & H6).
  split_and!; try done. by rewrite script_kinds_alter.
Qed.

Lemma same_scene_frame w0 sc inp :
  keeps (same_scene w0) (frame sc inp) (λ _ w, same_scene w0 w).
Proof.
  apply frame_keeps; try done.
  - intros w (H1 & H2 & H3 & H4 & H5 & H6). split_and!; try done.
    cbn [renderGroup set_renderGroup set_registry].
    by rewrite sort_renderGroup_Permutation.
  - intros w e bs i. by apply same_scene_alter.
  - apply toggle_KP_ADD_keeps; [apply same_scene_selectedVao|].
    intros w e bs i f. by apply same_scene_alter.
  - apply toggle_KP_SUBTRACT_keeps; [apply same_scene_selectedVao|].
    intros w e bs i f. by apply same_scene_alter.
Qed.

(** ** The ring buffer *)

Lemma fps_state_frame env sc k :
  keeps (fps_state k (fps_written env k)) (frame sc (frame_input env k))
        (λ _ w, fps_state (S k) (fps_written env (S k)) w).
Proof.
  assert (∀ j buf,
    keeps (fps_state j buf) toggle_KP_ADD (λ _ w, fps_state j buf w)) as Ha
    by (intros; by apply toggle_KP_ADD_keeps).
  assert (∀ j buf,
    keeps (fps_state j buf) toggle_KP_SUBTRACT (λ _ w, fps_state j buf w)) as Hs
    by (intros; by apply toggle_KP_SUBTRACT_keeps).
  assert (∀ j buf inp,
    keeps (fps_state j buf) (for_each (KeyPressWatcher_poll inp) (keyToggles sc))
          (λ _ w, fps_state j buf w)) as Hwatch
    by (intros; by apply watchers_keeps).
  assert (∀ j buf inp,
    keeps (fps_state j buf) (PollEvents inp) (λ _ w, fps_state j buf w)) as Hpoll
    by (intros; by apply PollEvents_keeps).
  unfold frame.
  eapply keeps_bind with (Q := λ _ w, fps_state (S k) (fps_written env (S k)) w);
    [|intros []; by apply after_input_keeps].
  unfold handle_input.
  eapply keeps_bind; [apply Hpoll|]. intros [].
  eapply keeps_bind; [apply keeps_reads, reads_call|]. intros [].
  pose proof (Nat.mod_upper_bound k 128 ltac:(done)) as Hk.
  eapply keeps_bind
    with (Q := λ _ w, fps_state k (fps_written env (S k)) w).
  { intros w t a w' E [Hix Hbuf].
    rewrite fpsBuffer_store_run in E by lia. apply Done_eq_inv in E as (_ & _ & <-).
    split; [done|]. cbn [fpsBuffer set_fps fps_written].
    by rewrite Hix, Hbuf, Nat2Z.id. }
  intros []. eapply keeps_bind
    with (Q := λ _ w, fps_state (S k) (fps_written env (S k)) w).
  { intros w t a w' E [Hix Hbuf].
    rewrite frameIx_advance_run in E by lia. apply Done_eq_inv in E as (_ & _ & <-).
    split; [|done]. cbn [frameIx set_fps]. rewrite Hix.
    rewrite !Nat2Z.inj_mod. change (Z.of_nat 128) with 128.
    rewrite (Nat2Z.inj_succ k), <- Z.add_1_r.
    by rewrite Zplus_mod_idemp_l. }
  intros []. eapply keeps_bind; [apply keeps_reads, reads_call|]. intros [].
  destruct (negb _); [apply Hwatch|apply keeps_ret].
Qed.

Lemma fps_written_length env k : length (fps_written env k) = 128%nat.
Proof. induction k as [|k IH]; [done|]. simpl. by rewrite length_insert. Qed.

Lemma last_writer_step k i :
  (i < 128)%nat →
  last_writer (S k) i
  = if decide (i = k `mod` 128)%nat then Some k else last_writer k i.
Proof.
  intros Hi. unfold last_writer.
  pose proof (Nat.div_mod_eq k 128) as Ek.
  pose proof (Nat.mod_upper_bound k 128 ltac:(done)) as Hk.
  destruct (decide (i = k `mod` 128)%nat) as [->|Hne].
  - rewrite decide_True by lia. f_equal.
    replace (S k - 1 - k `mod` 128)%nat with (k `div` 128 * 128)%nat by lia.
    rewrite Nat.div_mul by done. lia.
  - destruct (decide (i < k)%nat) as [Hlt|Hge].
    + rewrite decide_True by lia.
      replace (S k - 1 - i)%nat with (S (k - 1 - i)) by lia.
      pose proof (Nat.div_mod_eq (k - 1 - i) 128) as Ed.
      pose proof (Nat.mod_upper_bound (k - 1 - i) 128 ltac:(done)) as Hd.
      assert ((k - 1 - i) `mod` 128 ≠ 127)%nat as Hne'.
      { intros E. apply Hne.
        assert (k = i + 128 * S ((k - 1 - i) `div` 128))%nat as Ek' by lia.
        rewrite Ek'. rewrite Nat.mul_comm, Nat.Div0.mod_add.
        by rewrite Nat.mod_small. }
      assert ((S (k - 1 - i) `div` 128 = (k - 1 - i) `div` 128)%nat) as ->; [|done].
      symmetry. apply (Nat.div_unique _ _ _ (S ((k - 1 - i) `mod` 128))); lia.
    + rewrite decide_False; [done|].
      intros Hlt. assert (i = k) as -> by lia. apply Hne.
      by rewrite Nat.mod_small.
Qed.

Lemma fps_written_lookup env k i :
  (i < 128)%nat →
  fps_written env k !! i
  = Some ((λ j, fps_sample (frame_input env j)) <$> last_writer k i).
Proof.
  intros Hi. induction k as [|k IH].
  { cbn [fps_written]. rewrite lookup_replicate_2 by done.
    unfold last_writer. by rewrite decide_False by lia. }
  cbn [fps_written]. rewrite last_writer_step by done.
  rewrite list_lookup_insert, fps_written_length.
  pose proof (Nat.mod_upper_bound k 128 ltac:(done)) as Hk.
  destruct (decide (i = k `mod` 128)%nat) as [->|Hne].
  - by rewrite decide_True.
  - rewrite decide_False by (intros [? _]; done). done.
Qed.

(** ** Which object the keyboard moves *)

Lemma move_enabled_alter w e bs i f e' :
  (∀ b, kind (f b) = kind b) →
  bindings w !! e = Some bs →
  BehaviourBinding_Get SimpleMoveBehaviour bs = Some i →
  move_enabled (set_bindings (<[e := alter f i bs]> (bindings w)) w) e'
  = if decide (e' = e) then from_option (λ b, Enabled (f b)) false (bs !! i)
    else move_enabled w e'.
Proof.
  intros Hf Hbs Hi. unfold move_enabled.
  cbn [bindings set_bindings set_registry].
  destruct (decide (e' = e)) as [->|Hne].
  - rewrite lookup_insert_eq, BehaviourBinding_Get_alter_eq, Hi by done.
    rewrite list_lookup_alter_eq. by destruct (bs !! i).
  - by rewrite lookup_insert_ne.
Qed.

Lemma only_selected_moves_ext w w' :
  bindings w' = bindings w → controllables w' = controllables w →
  selectedVao w' = selectedVao w →
  only_selected_moves w → only_selected_moves w'.
Proof.
  intros Hb Hc Hs H e. unfold move_enabled, selected. rewrite Hb, Hc, Hs.
  apply H.
Qed.

Lemma controllables_at_selected (P : World → Prop) :
  keeps P controllables_at (λ e w, P w ∧ selected w = Some e).
Proof.
  intros w t e w'. unfold controllables_at.
  destruct (controllables w !! _) as [e0|] eqn:He; [|done].
  intros (_ & <- & <-)%Done_eq_inv HP. by split.
Qed.

(** The first half of a selection change: the object that was selected
    stops moving, so that nothing moves. *)
Lemma deselect_keeps e :
  keeps (λ w, only_selected_moves w ∧ selected w = Some e)
        (update_behaviour SimpleMoveBehaviour e (with_Enabled false))
        (λ _ w, nothing_moves w).
Proof.
  intros w t a w'. unfold update_behaviour.
  destruct (bindings w !! e) as [bs|] eqn:Hbs; [|done].
  destruct (BehaviourBinding_Get _ bs) as [i|] eqn:Hi; [|done].
  intros (_ & _ & <-)%Done_eq_inv [Ho Hs] e'.
  rewrite move_enabled_alter by done.
  destruct (decide (e' = e)) as [->|Hne]; [by destruct (bs !! i)|].
  destruct (move_enabled w e') eqn:Hm; [|done].
  apply Ho in Hm. congruence.
Qed.

(** The second half: the newly selected object starts moving. *)
Lemma select_keeps e :
  keeps (λ w, nothing_moves w ∧ selected w = Some e)
        (update_behaviour SimpleMoveBehaviour e (with_Enabled true))
        (λ _ w, selected w = Some e ∧ ∀ e', move_enabled w e' = true ↔ e' = e).
Proof.
  intros w t a w'. unfold update_behaviour.
  destruct (bindings w !! e) as [bs|] eqn:Hbs; [|done].
  destruct (BehaviourBinding_Get _ bs) as [i|] eqn:Hi; [|done].
  intros (_ & _ & <-)%Done_eq_inv [Hn Hs]. split; [done|]. intros e'.
  rewrite move_enabled_alter by done.
  destruct (decide (e' = e)) as [->|Hne].
  - destruct (BehaviourBinding_Get_Some _ _ _ Hi) as (b & -> & _). done.
  - rewrite Hn. split; [done|]. intros ->. done.
Qed.

Lemma no_move_selectedVao s w :
  nothing_moves w → nothing_moves (set_selectedVao s w).
Proof. done. Qed.

Lemma toggle_KP_ADD_moves :
  keeps only_selected_moves toggle_KP_ADD
        (λ _ w, ∃ e, selected w = Some e ∧ ∀ e', move_enabled w e' = true ↔ e' = e).
Proof.
  unfold toggle_KP_ADD.
  eapply keeps_bind; [apply controllables_at_selected|]. intros e.
  eapply keeps_bind; [apply deselect_keeps|]. intros [].
  eapply keeps_bind;
    [apply (keeps_modify nothing_moves nothing_moves); intros w;
     apply no_move_selectedVao|].
  intros []. eapply keeps_bind; [apply keeps_reads, reads_get|]. intros w0.
  eapply keeps_bind with (Q := λ _ w, nothing_moves w).
  { destruct (_ >=? _); [|apply keeps_ret].
    apply (keeps_modify nothing_moves nothing_moves). intros w.
    apply no_move_selectedVao. }
  intros []. eapply keeps_bind; [apply controllables_at_selected|]. intros e2.
  eapply keeps_conseq; [| |apply (select_keeps e2)]; [done|].
  intros ? w H. by exists e2.
Qed.

Lemma toggle_KP_SUBTRACT_moves :
  keeps only_selected_moves toggle_KP_SUBTRACT
        (λ _ w, ∃ e, selected w = Some e ∧ ∀ e', move_enabled w e' = true ↔ e' = e).
Proof.
  unfold toggle_KP_SUBTRACT.
  eapply keeps_bind; [apply controllables_at_selected|]. intros e.
  eapply keeps_bind; [apply deselect_keeps|]. intros [].
  eapply keeps_bind;
    [apply (keeps_modify nothing_moves nothing_moves); intros w;
     apply no_move_selectedVao|].
  intros []. eapply keeps_bind; [apply keeps_reads, reads_get|]. intros w0.
  eapply keeps_bind with (Q := λ _ w, nothing_moves w).
  { destruct (_ <? _); [|apply keeps_ret].
    apply (keeps_modify nothing_moves nothing_moves). intros w.
    apply no_move_selectedVao. }
  intros []. eapply keeps_bind; [apply controllables_at_selected|]. intros e2.
  eapply keeps_conseq; [| |apply (select_keeps e2)]; [done|].
  intros ? w H. by exists e2.
Qed.

Lemma exactly_selected_moves w e :
  selected w = Some e → (∀ e', move_enabled w e' = true ↔ e' = e) →
  only_selected_moves w.
Proof. intros Hs H e' He'. apply H in He'. by subst. Qed.

Lemma only_selected_moves_frame sc inp :
  keeps only_selected_moves (frame sc inp) (λ _ w, only_selected_moves w).
Proof.
  apply frame_keeps.
  - intros sz w. by apply only_selected_moves_ext.
  - intros w. by apply only_selected_moves_ext.
  - intros w e bs i Hbs Hi Ho e'. unfold selected.
    cbn [controllables selectedVao set_bindings set_registry].
    rewrite move_enabled_alter by done.
    destruct (decide (e' = e)) as [->|Hne]; [|apply Ho].
    intros Hm. apply Ho. unfold move_enabled. rewrite Hbs, Hi.
    by destruct (bs !! i).
  - eapply keeps_conseq; [| |apply toggle_KP_ADD_moves]; [done|].
    intros _ w (e & Hs & H). by eapply exactly_selected_moves.
  - eapply keeps_conseq; [| |apply toggle_KP_SUBTRACT_moves]; [done|].
    intros _ w (e & Hs & H). by eapply exactly_selected_moves.
  - intros g w. by apply only_selected_moves_ext.
  - intros ix buf w. by apply only_selected_moves_ext.
Qed.

(** ** The state the loop is entered with *)

Lemma startup_entry env :
  glfwInit_ok env = true → gladLoadGLLoader_ok env = true →
  ∃ sc,
    scene_of env = Some sc
    ∧ Inv True (glfwCreateWindow_result env) (entry_state env)
    ∧ (∀ fuel, iteration_states env fuel
               = loop_states env sc fuel 0 (entry_state env))
    ∧ (∀ fuel, iterations env fuel
               = loop_iterations env sc fuel 0 (entry_state env))
    ∧ ∀ fuel,
        result_of (run env fuel)
        = match result_of (game_loop env sc fuel 0 (entry_state env)) with
          | Done _ w => Done 0 w
          | Undefined => Undefined
          | Running => Running
          end.
Proof.
  intros Hi Hg.
  destruct (startup_run env Hi Hg)
    as (ts & sc & w0 & E0 & _ & HI & _ & _ & _ & Em).
  exists sc. unfold scene_of, entry_state, iteration_states, iterations.
  rewrite E0. split_and!; try done.
  intros fuel. unfold run, result_of. rewrite Em. cbn [snd].
  rewrite main_epilogue.
  by destruct (game_loop env sc fuel 0 w0) as [t [[] w'| |]].
Qed.

(** The GUI callback captured a shader that was created. *)
Lemma scene_of_shader env sc : scene_of env = Some sc → shader sc ≠ nullptr.
Proof.
  destruct env as [i_ok win g_ok addr layer close input].
  unfold scene_of. by destruct i_ok, g_ok; vm_compute; intros [= <-].
Qed.

Lemma entry_state_fps env :
  frameIx (entry_state env) = 0 ∧ fpsBuffer (entry_state env) = replicate 128 None.
Proof.
  destruct env as [i_ok win g_ok addr layer close input].
  by destruct i_ok, g_ok; vm_compute.
Qed.

Lemma nothing_moves_spec w :
  forallb (λ eb, negb (moving eb.2)) (map_to_list (bindings w)) = true →
  nothing_moves w.
Proof.
  intros H e. unfold move_enabled.
  destruct (bindings w !! e) as [bs|] eqn:Hbs; [|done].
  rewrite forallb_forall in H.
  apply elem_of_map_to_list, list_elem_of_In, H in Hbs.
  apply negb_true_iff in Hbs. exact Hbs.
Qed.

Lemma entry_state_nothing_moves env : nothing_moves (entry_state env).
Proof.
  apply nothing_moves_spec.
  destruct env as [i_ok win g_ok addr layer close input].
  by destruct i_ok, g_ok; vm_compute.
Qed.

Lemma entry_state_group env :
  ∃ g, renderGroup (entry_state env) = g ++ [skybox env]
     ∧ Forall (λ r, layer_of (renderer r) = default_RenderLayer env) g.
Proof.
  exists (removelast (renderGroup (entry_state env))).
  destruct env as [i_ok win g_ok addr layer close input].
  destruct i_ok, g_ok; (split; [by vm_compute|vm_compute; by repeat constructor]).
Qed.

(** ** Invariants over the whole loop *)

Lemma game_loop_keeps env sc (J : nat → World → Prop) fuel : ∀ n,
  (∀ n, keeps (J n) (frame sc (frame_input env n)) (λ _ w, J (S n) w)) →
  keeps (J n) (game_loop env sc fuel n)
        (λ _ w, J (n + open_iterations env fuel n)%nat w).
Proof.
  induction fuel as [|fuel IH]; intros n HJ; [done|].
  cbn [game_loop open_iterations].
  eapply keeps_bind; [apply keeps_reads, reads_get|]. intros w0.
  eapply keeps_bind; [apply keeps_reads, reads_call|]. intros [].
  destruct (should_close env n).
  - rewrite Nat.add_0_r. apply keeps_ret.
  - eapply keeps_bind; [apply HJ|]. intros [].
    replace (n + S (open_iterations env fuel (S n)))%nat
      with (S n + open_iterations env fuel (S n))%nat by lia.
    by apply IH.
Qed.

(** An invariant of the iterations holds at the head of each of them, and
    in the state [main] returns in. *)
Lemma run_keeps env (J : nat → World → Prop) fuel :
  glfwInit_ok env = true → gladLoadGLLoader_ok env = true →
  (∀ sc n, keeps (J n) (frame sc (frame_input env n)) (λ _ w, J (S n) w)) →
  J 0%nat (entry_state env) →
  (∀ k w, iteration_states env fuel !! k = Some w → J k w)
  ∧ (∀ code w, result_of (run env fuel) = Done code w →
       J (open_iterations env fuel 0) w).
Proof.
  intros Hi Hg HJ H0.
  destruct (startup_entry env Hi Hg) as (sc & _ & _ & Es & _ & Er).
  split.
  - intros k w. rewrite Es. intros Hk.
    by apply (loop_states_keeps env sc J fuel 0 _ (HJ sc) H0 k w).
  - intros code w. rewrite Er.
    destruct (game_loop env sc fuel 0 (entry_state env)) as [t [[] w'| |]] eqn:El;
      try done.
    cbn [result_of snd]. intros [= _ <-].
    by apply (game_loop_keeps env sc J fuel 0 (HJ sc) _ _ _ _ El).
Qed.

Lemma iteration_states_length env fuel :
  glfwInit_ok env = true → gladLoadGLLoader_ok env = true →
  length (iteration_states env fuel) = open_iterations env fuel 0.
Proof.
  intros Hi Hg.
  destruct (startup_entry env Hi Hg) as (sc & Hsc & HI & Es & _).
  rewrite Es. eapply loop_states_length; [by eapply scene_of_shader|done].
Qed.

(** X6: no iteration of the game loop changes the window pointer, the
    list of controllable objects, the set of entities and cameras, or which
    scripts are attached to which entity, and the render group is only
    reordered: this holds at the head of every iteration and in the state
    [main] returns in. *)
Theorem loop_leaves_scene_as_set_up (env : Env) (fuel : nat) :
  glfwInit_ok env = true → gladLoadGLLoader_ok env = true →
  length (iteration_states env fuel) = open_iterations env fuel 0
  ∧ Forall (same_scene (entry_state env)) (iteration_states env fuel)
  ∧ ∀ code w, result_of (run env fuel) = Done code w →
      same_scene (entry_state env) w.
Proof.
  intros Hi Hg. split; [by apply iteration_states_length|].
  destruct (run_keeps env (λ _, same_scene (entry_state env)) fuel Hi Hg)
    as [Hs Hr].
  - intros sc n. apply same_scene_frame.
  - done.
  - split; [|done]. apply Forall_lookup. intros k w. apply Hs.
Qed.

Lemma loop_leaves_scene_as_set_up_witness :
  glfwInit_ok three_frames_env = true
  ∧ gladLoadGLLoader_ok three_frames_env = true
  ∧ length (iteration_states three_frames_env 5) = 3%nat
  ∧ Forall (same_scene (entry_state three_frames_env))
           (iteration_states three_frames_env 5).
Proof.
  split; [reflexivity|]. split; [reflexivity|].
  destruct (loop_leaves_scene_as_set_up three_frames_env 5 eq_refl eq_refl)
    as (Hl & Hs & _).
  split; [exact Hl|exact Hs].
Defined.

(** X7: the FPS ring buffer.  When iteration [k] begins, [frameIx] is
    [k mod 128], and slot [i] of [fpsBuffer] holds the sample of the last of
    the iterations [0..k-1] that is congruent to [i] modulo 128, and is
    still unwritten when there is none ([k <= i]); the same holds, with the
    number of iterations made, when [main] returns. *)
Theorem fpsBuffer_holds_latest_samples (env : Env) (fuel k : nat) (w : World) :
  glfwInit_ok env = true → gladLoadGLLoader_ok env = true →
  iteration_states env fuel !! k = Some w
  ∨ (k = open_iterations env fuel 0 ∧ ∃ code, result_of (run env fuel) = Done code w) →
  frameIx w = Z.of_nat (k `mod` 128)
  ∧ ∀ i, (i < 128)%nat →
      fpsBuffer w !! i
      = Some ((λ j, fps_sample (frame_input env j)) <$> last_writer k i).
Proof.
  intros Hi Hg Hw.
  destruct (run_keeps env (λ k, fps_state k (fps_written env k)) fuel Hi Hg)
    as [Hs Hr].
  - intros sc n. apply fps_state_frame.
  - apply entry_state_fps.
  - assert (fps_state k (fps_written env k) w) as [Hix Hbuf].
    { destruct Hw as [Hw|(-> & code & Hw)]; [by apply Hs|by eapply Hr]. }
    split; [done|]. intros i Hlt. rewrite Hbuf. by apply fps_written_lookup.
Qed.

Lemma fpsBuffer_holds_latest_samples_witness :
  ∃ w, iteration_states three_frames_env 5 !! 2%nat = Some w
     ∧ frameIx w = 2
     ∧ fpsBuffer w !! 1%nat = Some (Some 61)
     ∧ fpsBuffer w !! 2%nat = Some None.
Proof.
  destruct (iteration_states three_frames_env 5 !! 2%nat) as [w|] eqn:E;
    [|by vm_compute in E].
  exists w. split; [done|].
  destruct (fpsBuffer_holds_latest_samples three_frames_env 5 2 w eq_refl eq_refl
              (or_introl E)) as [Hix Hbuf].
  split; [exact Hix|]. split; [apply (Hbuf 1%nat); lia|apply (Hbuf 2%nat); lia].
Defined.

(** X8: the keyboard moves at most the selected object.  At the head of
    every iteration, and when [main] returns, every entity whose
    [SimpleMoveBehaviour] is enabled is [controllables[selectedVao]]; when
    the loop is entered none is enabled. *)
Theorem only_selected_object_moves (env : Env) (fuel : nat) :
  glfwInit_ok env = true → gladLoadGLLoader_ok env = true →
  nothing_moves (entry_state env)
  ∧ Forall only_selected_moves (iteration_states env fuel)
  ∧ ∀ code w, result_of (run env fuel) = Done code w → only_selected_moves w.
Proof.
  intros Hi Hg. split; [apply entry_state_nothing_moves|].
  destruct (run_keeps env (λ _, only_selected_moves) fuel Hi Hg) as [Hs Hr].
  - intros sc n. apply only_selected_moves_frame.
  - intros e He. by rewrite entry_state_nothing_moves in He.
  - split; [|done]. apply Forall_lookup. intros k w. apply Hs.
Qed.

Lemma only_selected_object_moves_witness :
  glfwInit_ok three_frames_env = true
  ∧ gladLoadGLLoader_ok three_frames_env = true
  ∧ Forall only_selected_moves (iteration_states three_frames_env 5).
Proof.
  split; [reflexivity|]. split; [reflexivity|].
  destruct (only_selected_object_moves three_frames_env 5 eq_refl eq_refl)
    as (_ & Hs & _).
  exact Hs.
Defined.

(** X9: a change of selection hands the keyboard over.  When the callback
    of the keypad [+] or [-] returns, started in a state where at most the
    selected object was moved, the newly selected object is the one and only
    entity whose [SimpleMoveBehaviour] is enabled. *)
Theorem selection_change_moves_selected (m : M unit) (w w' : World) (t : list Call) :
  m = toggle_KP_ADD ∨ m = toggle_KP_SUBTRACT →
  only_selected_moves w →
  m w = (t, Done () w') →
  ∃ e, selected w' = Some e ∧ ∀ e', move_enabled w' e' = true ↔ e' = e.
Proof.
  intros [->| ->] Ho E.
  - by apply (toggle_KP_ADD_moves w t () w' E).
  - by apply (toggle_KP_SUBTRACT_moves w t () w' E).
Qed.

Lemma selection_change_moves_selected_witness :
  only_selected_moves (entry_state sample_env)
  ∧ ∃ t w', toggle_KP_ADD (entry_state sample_env) = (t, Done () w')
      ∧ ∃ e, selected w' = Some e ∧ ∀ e', move_enabled w' e' = true ↔ e' = e.
Proof.
  assert (only_selected_moves (entry_state sample_env)) as Ho.
  { intros e He. by rewrite entry_state_nothing_moves in He. }
  split; [exact Ho|].
  destruct (toggle_KP_ADD (entry_state sample_env)) as [t [[] w'| |]] eqn:E;
    [|by vm_compute in E..].
  exists t, w'. split; [reflexivity|].
  apply (selection_change_moves_selected toggle_KP_ADD (entry_state sample_env)
           w' t (or_introl eq_refl) Ho E).
Defined.

(** ** The skybox is drawn last *)

(** A sorted group ends with the one renderable that lies on a layer above
    all the others. *)
Lemma sorted_top_layer_last l g sky d :
  StronglySorted not_after l → l ≡ₚ g ++ [sky] →
  Forall (λ r, layer_of (renderer r) = d) g →
  d < layer_of (renderer sky) →
  ∃ l', l = l' ++ [sky].
Proof.
  intros Hs Hp Hg Hd.
  destruct l as [|x l _] using rev_ind.
  { apply Permutation_length in Hp. rewrite length_app in Hp. simpl in Hp. lia. }
  exists l. f_equal. f_equal.
  assert (x ∈ g ++ [sky]) as Hx.
  { rewrite <- Hp. apply elem_of_app. right. left. }
  apply elem_of_app in Hx as [Hx|Hx]; [|by apply list_elem_of_singleton in Hx].
  exfalso. rewrite Forall_forall in Hg. specialize (Hg x Hx).
  assert (sky ∈ l ++ [x]) as Hsky.
  { rewrite Hp. apply elem_of_app. right. left. }
  apply elem_of_app in Hsky as [Hsky|Hsky].
  - assert (not_after sky x) as Hn.
    { eapply StronglySorted_app_1_elem_of; [exact Hs|done|left]. }
    unfold not_after in Hn. rewrite RenderLess_key_ltb in Hn.
    apply key_ltb_false_layer in Hn. lia.
  - apply list_elem_of_singleton in Hsky. subst. lia.
Qed.

Lemma Inv_frame L p sc inp :
  keeps (Inv L p) (frame sc inp) (λ _ w, Inv L p w).
Proof.
  intros w t a w' E HI.
  destruct (frame_shape L p sc inp w HI) as (t1 & w1 & _ & HI1 & _ & Ef).
  rewrite Ef in E.
  destruct ((RenderImGui sc inp;; present) _) as [tr [[] w2| |]] eqn:Er;
    simpl in E; try done.
  apply Done_eq_inv in E as (_ & _ & <-).
  eapply (keeps_bind (Inv L p) (RenderImGui sc inp) (λ _, present)
            (λ _ w, Inv L p w) (λ _ w, Inv L p w));
    [|intros []; apply keeps_reads, reads_present|exact Er|by apply Inv_sort].
  apply RenderImGui_keeps.
  - intros w0 e bs i. by apply Inv_update_behaviour.
  - intros g w0. apply Inv_set_gui_locals.
Qed.

(** The input step leaves the render group alone. *)
Lemma handle_input_renderGroup sc inp w t w1 :
  handle_input sc inp w = (t, Done () w1) → renderGroup w1 = renderGroup w.
Proof.
  intros E.
  eapply (handle_input_keeps (λ w', renderGroup w' = renderGroup w));
    [..|exact E|done]; try done.
  - by apply toggle_KP_ADD_keeps.
  - by apply toggle_KP_SUBTRACT_keeps.
Qed.

Lemma filter_draw_switch_other t :
  Forall (λ c, step_of c ≠ Some SortAndDraw) t →
  List.filter is_draw_switch t = [].
Proof.
  induction 1 as [|c t Hc _ IH]; [done|]. simpl. rewrite IH.
  by destruct c.
Qed.

Lemma filter_draw_switch_tail t :
  Forall (λ c, tail_call c = true) t → List.filter is_draw_switch t = [].
Proof.
  induction 1 as [|c t Hc _ IH]; [done|]. simpl. rewrite IH.
  by destruct c.
Qed.

Lemma filter_draw_switch_vao t :
  List.filter is_draw_switch t = [] → List.filter is_vao_render t = [].
Proof.
  induction t as [|c t IH]; [done|]. simpl.
  destruct (is_draw_switch c) eqn:Ec; [done|].
  intros H. rewrite (IH H). by destruct c.
Qed.

(** The draw pass of an iteration: between the camera queries and the GUI,
    over the sorted render group; nothing is bound, applied or drawn before
    or after it. *)
Lemma frame_draws L p sc inp w :
  Inv L p w →
  ∃ t_before t_after,
    trace_of (frame sc inp w)
    = t_before ++ draw_pass_calls None (sort_renderGroup (renderGroup w))
      ++ t_after
    ∧ List.filter is_draw_switch t_before = []
    ∧ List.filter is_draw_switch t_after = [].
Proof.
  intros HI.
  destruct (frame_shape L p sc inp w HI) as (t1 & w1 & E1 & _ & F1 & Ef).
  rewrite Ef. unfold trace_of, frame_head. cbn [fst].
  rewrite (handle_input_renderGroup _ _ _ _ _ E1).
  eexists (glfwPollEvents :: t1 ++ behaviour_calls (bindings w1)
           ++ [glClearColor; glEnable "GL_DEPTH_TEST"; glClearDepth; glClear]
           ++ transform_calls (transforms w1)
           ++ [Transform_LocalTransform (cameraObject sc);
               Camera_GetProjection (cameraObject sc)]), _.
  split_and!.
  - cbn [app]. f_equal.
    repeat (rewrite <- app_assoc || rewrite <- app_comm_cons). reflexivity.
  - apply filter_draw_switch_other. constructor; [done|].
    rewrite !Forall_app. split_and!.
    + eapply Forall_impl; [exact F1|].
      intros c [_ [Hc|Hc]]; rewrite Hc; done.
    + eapply Forall_impl; [apply behaviour_calls_steps|].
      intros c [Hc _]. by rewrite Hc.
    + by repeat constructor.
    + eapply Forall_impl; [apply transform_calls_steps|].
      intros c [Hc _]. by rewrite Hc.
    + by repeat constructor.
  - apply filter_draw_switch_tail, (only_calls_gui_tail sc inp).
Qed.

(** X10: when the render layer a new material gets is below the 100 the
    skybox is put on, every iteration of the game loop draws the skybox
    last: the iteration makes the calls of one draw pass, over an order of
    the render group the loop was entered with that has the skybox at its
    end; nothing is bound, applied or drawn before or after that pass, so
    the meshes the iteration renders are those of that order, the skybox
    mesh last. *)
Theorem skybox_drawn_last (env : Env) (fuel : nat) :
  glfwInit_ok env = true → gladLoadGLLoader_ok env = true →
  default_RenderLayer env < 100 →
  Forall (λ t, ∃ t_before g t_after,
            g ++ [skybox env] ≡ₚ renderGroup (entry_state env)
            ∧ t = t_before ++ draw_pass_calls None (g ++ [skybox env]) ++ t_after
            ∧ List.filter is_draw_switch t_before = []
            ∧ List.filter is_draw_switch t_after = []
            ∧ List.filter is_vao_render t
              = map (λ r, VertexArrayObject_Render (Mesh (renderer r))) g
                ++ [VertexArrayObject_Render (Mesh (renderer (skybox env)))])
         (iterations env fuel).
Proof.
  intros Hi Hg Hd.
  destruct (startup_entry env Hi Hg) as (sc & _ & HI & Es & Et & _).
  set (p := glfwCreateWindow_result env) in *.
  destruct (run_keeps env
              (λ _ w, Inv True p w ∧ same_scene (entry_state env) w) fuel Hi Hg)
    as [Hs _].
  { intros sc' n. apply keeps_and; [apply Inv_frame|apply same_scene_frame]. }
  { by split. }
  rewrite Et, loop_iterations_states, <- Es.
  apply Forall_lookup. intros k t.
  rewrite list_lookup_imap. destruct (iteration_states env fuel !! k) as [w|] eqn:Ek;
    [|done].
  simpl. intros [= <-]. destruct (Hs k w Ek) as [HIw Hsw].
  destruct (frame_draws True p sc (frame_input env k) w HIw)
    as (tb & ta & Ef & Fb & Fa).
  unfold trace_of in Ef.
  destruct Hsw as (_ & _ & _ & _ & _ & Hp).
  destruct (entry_state_group env) as (g & Eg & Hg').
  destruct (sorted_top_layer_last (sort_renderGroup (renderGroup w)) g
              (skybox env) (default_RenderLayer env)) as [l' El]; try done.
  { apply sort_renderGroup_sorted. }
  { by rewrite sort_renderGroup_Permutation, Hp, Eg. }
  exists tb, l', ta. rewrite <- El. split_and!; try done.
  - by rewrite sort_renderGroup_Permutation.
  - rewrite Ef, !List.filter_app, draw_pass_calls_renders.
    rewrite (filter_draw_switch_vao tb), (filter_draw_switch_vao ta) by done.
    by rewrite app_nil_r, El, map_app.
Qed.

Lemma skybox_drawn_last_witness :
  glfwInit_ok three_frames_env = true
  ∧ gladLoadGLLoader_ok three_frames_env = true
  ∧ default_RenderLayer three_frames_env < 100
  ∧ length (iterations three_frames_env 5) = 3%nat
  ∧ Forall (λ t, ∃ t_before g t_after,
              g ++ [skybox three_frames_env]
                ≡ₚ renderGroup (entry_state three_frames_env)
              ∧ t = t_before
                    ++ draw_pass_calls None (g ++ [skybox three_frames_env])
                    ++ t_after
              ∧ List.filter is_draw_switch t_before = []
              ∧ List.filter is_draw_switch t_after = []
              ∧ List.filter is_vao_render t
                = map (λ r, VertexArrayObject_Render (Mesh (renderer r))) g
                  ++ [VertexArrayObject_Render
                        (Mesh (renderer (skybox three_frames_env)))])
           (iterations three_frames_env 5).
Proof.
  split; [reflexivity|]. split; [reflexivity|]. split; [reflexivity|].
  split; [by vm_compute|].
  apply (skybox_drawn_last three_frames_env 5); reflexivity.
Defined.

(** ** How [main] returns *)

(** X11: [main] returns 1 exactly when GLFW or GLAD fails to initialise,
    whatever the rest of the environment; otherwise it returns 0 exactly when
    the window is closed at the head of an iteration, and keeps iterating
    until then.  No run dereferences a null pointer of the program's own or
    subscripts an array out of range, the two failures [Undefined] stands
    for.  (Reads of [fpsBuffer] slots that were never written, and what GLFW
    does with a null window handle, are not among them.) *)
Theorem main_exit_code (env : Env) (fuel : nat) :
  match result_of (run env fuel) with
  | Done code _ =>
      if glfwInit_ok env && gladLoadGLLoader_ok env
      then code = 0 ∧ closes_within env fuel 0 = true
      else code = 1
  | Running =>
      (glfwInit_ok env && gladLoadGLLoader_ok env = true)
      ∧ closes_within env fuel 0 = false
  | Undefined => False
  end.
Proof.
  destruct (glfwInit_ok env) eqn:Hi.
  2:{ unfold run, result_of, main. rewrite call_bind.
      by rewrite !(bind_Done _ _ _ _ _ _ (InitGLFW_failed env _ Hi)). }
  destruct (gladLoadGLLoader_ok env) eqn:Hg.
  2:{ unfold run, result_of, main. rewrite call_bind.
      rewrite !(bind_Done _ _ _ _ _ _ (InitGLFW_ok env _ Hi)). cbn [negb].
      by rewrite !(bind_Done _ _ _ _ _ _ (InitGLAD_failed env _ Hg)). }
  destruct (startup_entry env Hi Hg) as (sc & Hsc & HI & _ & _ & Er).
  rewrite Er.
  destruct (game_loop_run env sc _ fuel (scene_of_shader _ _ Hsc) 0 _ HI)
    as (_ & _ & _ & Hr).
  unfold result_of.
  destruct (closes_within env fuel 0).
  - destruct Hr as (w' & -> & _). done.
  - rewrite Hr. done.
Qed.

(** X12: when GLFW or GLAD fails to initialise, [main] logs the one
    error of the step that failed and returns 1 at once: no scene is built,
    the game loop is not entered, and [Logger::Uninitialize] is not
    called. *)
Theorem failed_init_returns_at_once (env : Env) (fuel : nat) :
  glfwInit_ok env && gladLoadGLLoader_ok env = false →
  ∃ w, run env fuel = (init_calls env, Done 1 w)
     ∧ List.filter is_log_error (init_calls env)
       = [LOG_ERROR (if glfwInit_ok env then "Failed to initialize Glad"
                     else "Failed to initialize GLFW")]
     ∧ (Logger_Uninitialize ∉ init_calls env)
     ∧ renderGroup w = [] ∧ controllables w = []
     ∧ window w = (if glfwInit_ok env then glfwCreateWindow_result env
                   else nullptr).
Proof.
  intros H. unfold run, main, init_calls. rewrite call_bind.
  destruct (glfwInit_ok env) eqn:Hi.
  - simpl in H. rewrite H.
    rewrite !(bind_Done _ _ _ _ _ _ (InitGLFW_ok env _ Hi)). cbn [negb].
    rewrite !(bind_Done _ _ _ _ _ _ (InitGLAD_failed env _ H)).
    eexists. split; [reflexivity|]. split_and!; try done.
    cbn [app]. intros Hin.
    repeat (apply elem_of_cons in Hin as [Hin|Hin]; [discriminate|]).
    by apply elem_of_nil in Hin.
  - rewrite !(bind_Done _ _ _ _ _ _ (InitGLFW_failed env _ Hi)).
    eexists. split; [reflexivity|]. split_and!; try done.
    cbn [app]. intros Hin.
    repeat (apply elem_of_cons in Hin as [Hin|Hin]; [discriminate|]).
    by apply elem_of_nil in Hin.
Qed.

Lemma failed_init_returns_at_once_witness :
  glfwInit_ok glad_fails_env && gladLoadGLLoader_ok glad_fails_env = false
  ∧ ∃ w, run glad_fails_env 7 = (init_calls glad_fails_env, Done 1 w)
       ∧ window w = 4096.
Proof.
  split; [reflexivity|].
  destruct (failed_init_returns_at_once glad_fails_env 7 eq_refl)
    as (w & E & _ & _ & _ & _ & Hw).
  exists w. split; [exact E|exact Hw].
Defined.

(** ** The input step *)

Lemma set_window_sizes_fields (szs : list (Z * Z)) : ∀ w,
  let w' := foldl (λ w sz, set_window_size sz w) w szs in
  frameIx w' = frameIx w ∧ fpsBuffer w' = fpsBuffer w
  ∧ selectedVao w' = selectedVao w ∧ bindings w' = bindings w
  ∧ controllables w' = controllables w.
Proof.
  induction szs as [|sz szs IH]; intros w; [done|].
  simpl. destruct (IH (set_window_size sz w)) as (-> & -> & -> & -> & ->). done.
Qed.

Lemma handle_input_run sc inp w :
  0 ≤ frameIx w < 128 →
  handle_input sc inp w
  = let r := (if negb (gui_focused inp)
              then for_each (KeyPressWatcher_poll inp) (keyToggles sc)
              else mret ()) (after_timing inp w) in
    (glfwPollEvents
       :: flat_map (resize_calls (elements (cameras w))) (size_events inp)
       ++ [glfwGetTime; Subscript "fpsBuffer" (frameIx w) 128;
           ImGui_IsAnyWindowFocused] ++ r.1,
     r.2).
Proof.
  intros Hix. unfold handle_input.
  destruct (set_window_sizes_fields (size_events inp) w) as (Ef & Eb & _).
  rewrite (bind_Done _ _ _ _ _ _ (PollEvents_run inp w)). rewrite call_bind.
  rewrite (bind_Done _ _ _ _ _ _ (fpsBuffer_store_run _ _ ltac:(by rewrite Ef))).
  rewrite Ef, Eb.
  set (w1 := foldl (λ w sz, set_window_size sz w) w (size_events inp)).
  set (buf := <[Z.to_nat (frameIx w) := Some (fps_sample inp)]> (fpsBuffer w)).
  assert (0 ≤ frameIx (set_fps (frameIx w) buf w1) < 128) as H1 by done.
  rewrite (bind_Done _ _ _ _ _ _ (frameIx_advance_run _ H1)).
  rewrite call_bind. cbn [frameIx fpsBuffer set_fps fst snd app].
  unfold after_timing. cbn zeta. fold w1 buf.
  reflexivity.
Qed.

Lemma only_calls_keyToggles sc kw :
  kw ∈ keyToggles sc → only_calls (λ c, is_key_poll c = false) kw.2.
Proof.
  assert (only_calls (λ c, is_key_poll c = false) controllables_at) as Hc
    by (by apply only_calls_controllables_at).
  assert (∀ f, only_calls (λ c, is_key_poll c = false) (modify f)) as Hm
    by (intros f; by apply only_calls_silent).
  assert (only_calls (λ c, is_key_poll c = false) get_world) as Hg
    by (by apply only_calls_silent).
  unfold keyToggles. rewrite !elem_of_cons, elem_of_nil.
  intros [->|[->|[->|[->|[]]]]]; simpl.
  - by apply only_calls_call.
  - unfold toggle_KP_ADD.
    apply only_calls_bind; [done|]. intros e.
    apply only_calls_bind; [apply only_calls_update_behaviour|]. intros [].
    apply only_calls_bind; [done|]. intros [].
    apply only_calls_bind; [done|]. intros w.
    apply only_calls_bind; [destruct (_ >=? _); [done|apply only_calls_ret]|].
    intros []. apply only_calls_bind; [done|]. intros e'.
    apply only_calls_update_behaviour.
  - unfold toggle_KP_SUBTRACT.
    apply only_calls_bind; [done|]. intros e.
    apply only_calls_bind; [apply only_calls_update_behaviour|]. intros [].
    apply only_calls_bind; [done|]. intros [].
    apply only_calls_bind; [done|]. intros w.
    apply only_calls_bind; [destruct (_ <? _); [done|apply only_calls_ret]|].
    intros []. apply only_calls_bind; [done|]. intros e'.
    apply only_calls_update_behaviour.
  - unfold toggle_Y. apply only_calls_bind; [done|]. intros e.
    apply only_calls_update_behaviour.
Qed.

Lemma filter_nil_Forall (f : Call → bool) t :
  Forall (λ c, f c = false) t → List.filter f t = [].
Proof. induction 1 as [|c t Hc _ IH]; [done|]. simpl. by rewrite Hc. Qed.

(** Every watcher is polled once, in registration order, whether or not
    its key fires. *)
Lemma watchers_polls inp (l : list (Key * M unit)) : ∀ w t w',
  (∀ kw, kw ∈ l → only_calls (λ c, is_key_poll c = false) kw.2) →
  for_each (KeyPressWatcher_poll inp) l w = (t, Done () w') →
  List.filter is_key_poll t = map (λ kw, KeyPressWatcher_Poll kw.1) l.
Proof.
  induction l as [|kw l IH]; intros w t w' Hl E.
  { by apply Done_eq_inv in E as (<- & _ & _). }
  cbn [for_each] in E.
  apply bind_Done_inv in E as (t1 & [] & w1 & t2 & E1 & E2 & ->).
  rewrite List.filter_app, (IH w1 t2 w' ltac:(intros; apply Hl; by right) E2).
  cbn [map].
  assert (List.filter is_key_poll t1 = [KeyPressWatcher_Poll kw.1]) as ->; [|done].
  unfold KeyPressWatcher_poll in E1. rewrite call_bind in E1.
  injection E1 as <- _. cbn [List.filter is_key_poll].
  f_equal. apply filter_nil_Forall.
  destruct (key_fired inp kw.1); [|constructor].
  apply (Hl kw ltac:(left)).
Qed.

(** X13: the key watchers are polled only while no ImGui window has the
    focus.  An input step that starts in a safe state then polls the four
    watchers once each, in the order they were registered, whichever keys
    fire; with the focus on ImGui it polls none, and leaves the selection,
    the scripts and the list of controllables as they are even when keys
    are down. *)
Theorem key_watchers_polled_unless_gui_focused (sc : Scene) (inp : FrameInput)
    (w : World) :
  Safe w →
  ∃ t w',
    handle_input sc inp w = (t, Done () w')
    ∧ List.filter is_key_poll t
      = (if gui_focused inp then []
         else map KeyPressWatcher_Poll
                [GLFW_KEY_T; GLFW_KEY_KP_ADD; GLFW_KEY_KP_SUBTRACT; GLFW_KEY_Y])
    ∧ (gui_focused inp = true →
       selectedVao w' = selectedVao w ∧ bindings w' = bindings w
       ∧ controllables w' = controllables w).
Proof.
  intros HS.
  destruct (handle_input_hoare False (window w) sc inp w (Safe_Inv w HS))
    as (t & [] & w' & E & _ & _).
  exists t, w'. split; [done|].
  rewrite handle_input_run in E by apply HS. cbn zeta in E.
  assert (∀ t0, List.filter is_key_poll
            (glfwPollEvents
               :: flat_map (resize_calls (elements (cameras w))) (size_events inp)
               ++ [glfwGetTime; Subscript "fpsBuffer" (frameIx w) 128;
                   ImGui_IsAnyWindowFocused] ++ t0)
          = List.filter is_key_poll t0) as Hf.
  { intros t0. cbn [List.filter is_key_poll]. rewrite !List.filter_app.
    rewrite (filter_nil_Forall _ (flat_map _ _)); [done|].
    apply Forall_flat_map_intro. intros sz. unfold resize_calls.
    constructor; [done|]. apply Forall_forall. intros c Hc.
    apply list_elem_of_fmap in Hc as (cam & -> & _). done. }
  destruct (gui_focused inp); cbn [negb] in E.
  - apply Done_eq_inv in E as (<- & _ & <-). split; [by rewrite Hf|].
    intros _. unfold after_timing. cbn [selectedVao bindings controllables set_fps].
    by destruct (set_window_sizes_fields (size_events inp) w)
      as (_ & _ & -> & -> & ->).
  - split; [|done].
    destruct (for_each _ _ _) as [t0 r] eqn:Ew. cbn [fst snd] in E.
    pose proof (f_equal fst E) as Et. pose proof (f_equal snd E) as Er.
    cbn [fst snd] in Et, Er. subst t r. rewrite Hf.
    apply (watchers_polls inp _ _ _ _ (only_calls_keyToggles sc) Ew).
Qed.

Lemma key_watchers_polled_unless_gui_focused_witness :
  Safe (entry_state sample_env)
  ∧ ∃ t w',
      handle_input sample_scene focused_input (entry_state sample_env)
      = (t, Done () w')
      ∧ List.filter is_key_poll t = []
      ∧ selectedVao w' = 0.
Proof.
  assert (Safe (entry_state sample_env)) as HS by sample_Safe.
  split; [exact HS|].
  destruct (key_watchers_polled_unless_gui_focused sample_scene focused_input
              (entry_state sample_env) HS) as (t & w' & E & Hf & Hs).
  exists t, w'. split; [exact E|]. split; [exact Hf|].
  destruct (Hs eq_refl) as (-> & _). reflexivity.
Defined.

(** ** Changing the selection *)

Lemma selection_back s n : 0 ≤ s < n → ((s + 1) `mod` n - 1) `mod` n = s.
Proof.
  intros H. destruct (decide (s + 1 = n)) as [E|E].
  - rewrite E, Z_mod_same_full. replace (0 - 1) with (-1) by lia.
    rewrite <- (Z.mod_add _ 1) by lia. rewrite Z.mod_small; lia.
  - rewrite (Z.mod_small (s + 1)) by lia. rewrite Z.mod_small; lia.
Qed.

Lemma selection_forth s n : 0 ≤ s < n → ((s - 1) `mod` n + 1) `mod` n = s.
Proof.
  intros H. destruct (decide (s = 0)) as [->|E].
  - replace (0 - 1) with (-1) by lia.
    rewrite <- (Z.mod_add (-1) 1) by lia.
    rewrite (Z.mod_small (-1 + 1 * n)) by lia.
    replace (-1 + 1 * n + 1) with n by lia. apply Z_mod_same_full.
  - rewrite (Z.mod_small (s - 1)) by lia. rewrite Z.mod_small; lia.
Qed.

(** X14: the keypad [+] and [-] undo each other.  From a safe state,
    pressing one and then the other runs to completion and leaves
    [selectedVao] where it was, also across the wrap-around at either end of
    [controllables]. *)
Theorem plus_and_minus_undo_each_other (w : World) :
  Safe w →
  (∃ t w', (toggle_KP_ADD;; toggle_KP_SUBTRACT) w = (t, Done () w')
           ∧ selectedVao w' = selectedVao w)
  ∧ (∃ t w', (toggle_KP_SUBTRACT;; toggle_KP_ADD) w = (t, Done () w')
             ∧ selectedVao w' = selectedVao w).
Proof.
  intros HS. pose proof (Safe_selectedVao w HS) as Hs.
  assert (InvSel False (window w) (selectedVao w) (controllables w) w) as HI
    by (split; [by apply Safe_Inv|done]).
  split.
  - destruct (hoare_bind (phase_call PollInput) _ _ (λ _, toggle_KP_SUBTRACT) _ _
                (toggle_KP_ADD_hoare False (window w) _ _ _)
                (λ _, toggle_KP_SUBTRACT_hoare False (window w) _ _ _) w HI)
      as (t & [] & w' & E & _ & _ & Hs' & _).
    exists t, w'. split; [done|]. rewrite Hs'. by apply selection_back.
  - destruct (hoare_bind (phase_call PollInput) _ _ (λ _, toggle_KP_ADD) _ _
                (toggle_KP_SUBTRACT_hoare False (window w) _ _ _)
                (λ _, toggle_KP_ADD_hoare False (window w) _ _ _) w HI)
      as (t & [] & w' & E & _ & _ & Hs' & _).
    exists t, w'. split; [done|]. rewrite Hs'. by apply selection_forth.
Qed.

Lemma plus_and_minus_undo_each_other_witness :
  Safe (entry_state sample_env)
  ∧ ∃ t w', (toggle_KP_SUBTRACT;; toggle_KP_ADD) (entry_state sample_env)
            = (t, Done () w')
      ∧ selectedVao w' = 0.
Proof.
  assert (Safe (entry_state sample_env)) as HS by sample_Safe.
  split; [exact HS|].
  destruct (plus_and_minus_undo_each_other (entry_state sample_env) HS)
    as [_ (t & w' & E & Hs)].
  exists t, w'. split; [exact E|]. rewrite Hs. reflexivity.
Defined.

Lemma presses_hoare L p st cs (m : M unit) (f : Z → Z) k :
  (∀ s, hoare (phase_call st) (InvSel L p s cs) m (λ _ w, InvSel L p (f s) cs w)) →
  ∀ s, hoare (phase_call st) (InvSel L p s cs) (presses k m)
         (λ _ w, InvSel L p (Nat.iter k f s) cs w).
Proof.
  intros Hm. unfold presses.
  induction k as [|k IH]; intros s; cbn [replicate for_each].
  { intros w HI. by exists [], (), w. }
  eapply hoare_bind; [apply Hm|]. intros [].
  eapply hoare_conseq; [| |apply (IH (f s))]; [done|].
  intros ? w. by rewrite Nat.iter_succ_r.
Qed.

Lemma iter_increment n k s :
  0 < n → Nat.iter k (λ s, (s + 1) `mod` n) (s `mod` n) = (s + Z.of_nat k) `mod` n.
Proof.
  intros Hn. induction k as [|k IH]; simpl.
  { by rewrite Z.add_0_r. }
  rewrite IH, Zplus_mod_idemp_l. f_equal. lia.
Qed.

Lemma iter_decrement n k s :
  0 < n → Nat.iter k (λ s, (s - 1) `mod` n) (s `mod` n) = (s - Z.of_nat k) `mod` n.
Proof.
  intros Hn. induction k as [|k IH]; simpl.
  { by rewrite Z.sub_0_r. }
  rewrite IH, Zminus_mod_idemp_l. f_equal. lia.
Qed.

(** X15: the selection cycles through [controllables].  From a safe state,
    [k] presses of the keypad [+] run to completion and move [selectedVao]
    forward by [k] modulo the number of controllables, and [k] presses of [-]
    move it back by as much; as many presses as there are controllables bring
    it back to where it was. *)
Theorem selection_cycles (w : World) (k : nat) :
  Safe w →
  let n := Z.of_nat (length (controllables w)) in
  (∃ t w', presses k toggle_KP_ADD w = (t, Done () w')
           ∧ selectedVao w' = (selectedVao w + Z.of_nat k) `mod` n)
  ∧ (∃ t w', presses k toggle_KP_SUBTRACT w = (t, Done () w')
             ∧ selectedVao w' = (selectedVao w - Z.of_nat k) `mod` n).
Proof.
  intros HS n. pose proof (Safe_selectedVao w HS) as Hs. fold n in Hs.
  assert (InvSel False (window w) (selectedVao w) (controllables w) w) as HI
    by (split; [by apply Safe_Inv|done]).
  split.
  - destruct (presses_hoare False (window w) PollInput (controllables w)
                toggle_KP_ADD (λ s, (s + 1) `mod` n) k
                (λ s, toggle_KP_ADD_hoare _ _ _ s _) (selectedVao w) w HI)
      as (t & [] & w' & E & _ & _ & Hs' & _).
    exists t, w'. split; [done|]. rewrite Hs'.
    rewrite <- (Z.mod_small (selectedVao w) n) at 1 by done.
    apply iter_increment. lia.
  - destruct (presses_hoare False (window w) PollInput (controllables w)
                toggle_KP_SUBTRACT (λ s, (s - 1) `mod` n) k
                (λ s, toggle_KP_SUBTRACT_hoare _ _ _ s _) (selectedVao w) w HI)
      as (t & [] & w' & E & _ & _ & Hs' & _).
    exists t, w'. split; [done|]. rewrite Hs'.
    rewrite <- (Z.mod_small (selectedVao w) n) at 1 by done.
    apply iter_decrement. lia.
Qed.

Lemma selection_cycles_witness :
  Safe (entry_state sample_env)
  ∧ ∃ t w', presses 2 toggle_KP_ADD (entry_state sample_env) = (t, Done () w')
      ∧ selectedVao w' = 0.
Proof.
  assert (Safe (entry_state sample_env)) as HS by sample_Safe.
  split; [exact HS|].
  destruct (selection_cycles (entry_state sample_env) 2 HS)
    as [(t & w' & E & Hs) _].
  exists t, w'. split; [exact E|]. rewrite Hs. reflexivity.
Defined.

(** ** The [Relative] flag *)


Lemma controllables_at_run w :
  Safe w →
  ∃ e bs i,
    selected w = Some e ∧ bindings w !! e = Some bs
    ∧ BehaviourBinding_Get SimpleMoveBehaviour bs = Some i
    ∧ controllables_at w
      = ([Subscript "controllables" (selectedVao w) (length (controllables w))],
         Done e w).
Proof.
  intros [H1 H2 H3 H4 H5]. unfold selected, controllables_at.
  rewrite to_size_t_small by lia.
  destruct (lookup_lt_is_Some_2 (controllables w) (Z.to_nat (selectedVao w)))
    as [e He]; [lia|].
  rewrite He. rewrite forallb_forall in H4.
  pose proof (H4 e ltac:(by eapply list_elem_of_In, list_elem_of_lookup_2)) as Hsc.
  unfold has_script in Hsc.
  destruct (bindings w !! e) as [bs|] eqn:Hbs; [|done].
  apply bool_decide_eq_true in Hsc as [i Hi].
  by exists e, bs, i.
Qed.

Lemma update_behaviour_run w e bs i f :
  bindings w !! e = Some bs →
  BehaviourBinding_Get SimpleMoveBehaviour bs = Some i →
  update_behaviour SimpleMoveBehaviour e f w
  = ([], Done () (set_bindings (<[e := alter f i bs]> (bindings w)) w)).
Proof. intros Hbs Hi. unfold update_behaviour. by rewrite Hbs, Hi. Qed.




(** ** The GUI frame *)

Lemma filter_none (f : Call → bool) t :
  Forall (λ c, f c = false) t → List.filter f t = [].
Proof. induction 1 as [|c t Hc _ IH]; [done|]. simpl. by rewrite Hc. Qed.

(** The callback of the debug window neither opens nor closes a window. *)
Lemma debug_gui_no_begin_end sc inp :
  only_calls (λ c, is_begin_or_end c = false) (debug_gui sc inp).
Proof.
  unfold debug_gui, fps_stats, lighting_widgets, collapsing_header,
    mode_button, vec3_widget, float_widget, set_uniform.
  repeat only_calls_step;
    try (unfold set_mode_uniform, fps_stats_step; repeat only_calls_step).
Qed.

(** What the callback of the debug window leaves behind: the [Relative]
    flag of the selected object flipped if the check box was clicked, and
    new values in the variables the callback owns. *)
Lemma debug_gui_run sc inp w e bs i :
  shader sc ≠ nullptr → Safe w →
  selected w = Some e → bindings w !! e = Some bs →
  BehaviourBinding_Get SimpleMoveBehaviour bs = Some i →
  ∃ t g,
    debug_gui sc inp w
    = (t, Done () (set_gui_locals g
                     (set_bindings
                        (<[e := alter (if checkbox_clicked inp
                                       then flip_Relative else id) i bs]>
                           (bindings w)) w))).
Proof.
  intros Hsh HS Hsel Hbs Hi. unfold debug_gui.
  destruct (lighting_widgets_hoare (λ w0, ∃ g, w0 = set_gui_locals g w) sc inp)
    with (w := w) as (t1 & [] & w1 & E1 & _ & g1 & ->).
  { intros g w0 [g0 ->]. by exists g. }
  { done. }
  { exists (gui_locals w). by destruct w. }
  rewrite (bind_Done _ _ _ _ _ _ E1).
  assert (Safe (set_gui_locals g1 w)) as HS1 by (destruct HS; by split).
  destruct (controllables_at_run _ HS1)
    as (e1 & bs1 & i1 & Hsel1 & Hbs1 & Hi1 & Ec1).
  assert (e1 = e) as ->
    by (unfold selected in *; simpl in Hsel1; congruence).
  cbn [bindings set_gui_locals] in Hbs1.
  assert (bs1 = bs) as -> by congruence.
  assert (i1 = i) as -> by congruence.
  rewrite (bind_Done _ _ _ _ _ _ Ec1), call_bind.
  rewrite (bind_Done _ _ _ _ _ _ Ec1), call_bind.
  rewrite (bind_Done _ _ _ _ _ _
             (update_behaviour_run (set_gui_locals g1 w) e bs i _ Hbs1 Hi1)).
  rewrite call_bind.
  match goal with
  | |- context [(fps_stats inp ≫= _) ?w2] =>
      destruct (fps_stats_hoare (λ w0, ∃ g, w0 = set_gui_locals g w2) inp)
        with (w := w2) as (t3 & [] & w3 & E3 & _ & g3 & ->)
  end.
  { intros g w0 [g0 ->]. by exists g. }
  { by exists g1. }
  rewrite (bind_Done _ _ _ _ _ _ E3), call_bind.
  eexists _, g3. reflexivity.
Qed.

(** X17: [ImGui::End] is called exactly when [ImGui::Begin] returned true.
    From a safe state, with a shader that was created, [RenderImGui] runs to
    completion.  With the debug window collapsed it makes only the calls
    that open and render the GUI frame, does not read [controllables] and
    leaves the program state as it was.  With the window open, what it
    changes is confined to the variables the callback owns (the lighting
    settings and the FPS statistics) and to the scripts of the selected
    object: its [Relative] flag is flipped exactly when the check box is
    clicked, and no [Enabled] flag changes. *)
Theorem gui_begin_end_balanced (sc : Scene) (inp : FrameInput) (w : World) :
  shader sc ≠ nullptr → Safe w →
  ∃ e t w',
    selected w = Some e
    ∧ RenderImGui sc inp w = (t, Done () w')
    ∧ List.filter is_begin_or_end t
      = ImGui_Begin "Debug" :: (if debug_open inp then [ImGui_End] else [])
    ∧ (if debug_open inp
       then same_but_gui w w'
            ∧ (∀ e', e' ≠ e → bindings w' !! e' = bindings w !! e')
            ∧ (∀ e', move_enabled w' e' = move_enabled w e')
            ∧ move_relative w' e
              = (if checkbox_clicked inp then negb (move_relative w e)
                 else move_relative w e)
            ∧ (checkbox_clicked inp = false → bindings w' = bindings w)
       else w' = w
            ∧ t = [ImGui_NewFrame; ImGui_Begin "Debug"] ++ gui_render_calls w).
Proof.
  intros Hsh HS.
  destruct (controllables_at_run w HS) as (e & bs & i & Hsel & Hbs & Hi & Ec).
  exists e. unfold RenderImGui. rewrite !call_bind.
  destruct (debug_open inp).
  2:{ exists ([ImGui_NewFrame; ImGui_Begin "Debug"] ++ gui_render_calls w), w.
      split; [done|]. rewrite ret_bind, get_world_bind. by split_and!. }
  cbn [imGuiCallbacks for_each].
  destruct (debug_gui_run sc inp w e bs i Hsh HS Hsel Hbs Hi) as (td & g & Ed).
  pose proof (debug_gui_no_begin_end sc inp w) as Fd.
  unfold trace_of in Fd. rewrite Ed in Fd. cbn [fst] in Fd.
  set (f := if checkbox_clicked inp then flip_Relative else id) in *.
  set (w1 := set_gui_locals g
               (set_bindings (<[e := alter f i bs]> (bindings w)) w)) in *.
  pose proof (bind_Done_eq _ (λ _, mret ()) _ _ _ _ _ _ _ Ed eq_refl) as Ed1.
  pose proof (bind_Done_eq _ (λ _, call ImGui_End) _ _ _ _ _ _ _ Ed1 eq_refl)
    as Ed2.
  rewrite (bind_Done _ _ _ _ _ _ Ed2). cbn [fst snd]. rewrite get_world_bind.
  eexists _, w1. split; [done|]. split; [reflexivity|]. split.
  { cbn [List.filter is_begin_or_end app].
    rewrite !List.filter_app, (filter_none _ td Fd). reflexivity. }
  assert (kind_f : ∀ b, kind (f b) = kind b)
    by (intros b; unfold f; by destruct (checkbox_clicked inp)).
  split_and!.
  - by split_and!.
  - intros e' Hne. unfold w1.
    cbn [bindings set_gui_locals set_bindings set_registry].
    by rewrite lookup_insert_ne.
  - intros e'.
    change (move_enabled w1 e')
      with (move_enabled
              (set_bindings (<[e := alter f i bs]> (bindings w)) w) e').
    rewrite move_enabled_alter by done.
    destruct (decide (e' = e)) as [->|]; [|done].
    unfold move_enabled. rewrite Hbs, Hi.
    destruct (bs !! i); [|done]. unfold f.
    by destruct (checkbox_clicked inp).
  - unfold move_relative, w1.
    cbn [bindings set_gui_locals set_bindings set_registry].
    rewrite lookup_insert_eq, BehaviourBinding_Get_alter_eq, Hbs, Hi by done.
    rewrite list_lookup_alter_eq.
    destruct (BehaviourBinding_Get_Some _ _ _ Hi) as (b & -> & _).
    unfold f. by destruct (checkbox_clicked inp).
  - intros Hc. unfold w1, f. rewrite Hc.
    cbn [bindings set_gui_locals set_bindings set_registry].
    rewrite list_alter_id by done. by rewrite insert_id.
Qed.

Lemma gui_begin_end_balanced_witness :
  shader sample_scene ≠ nullptr
  ∧ Safe (entry_state sample_env)
  ∧ ∃ e w',
      RenderImGui sample_scene collapsed_input (entry_state sample_env)
      = ([ImGui_NewFrame; ImGui_Begin "Debug"]
         ++ gui_render_calls (entry_state sample_env), Done () w')
      ∧ selected (entry_state sample_env) = Some e
      ∧ w' = entry_state sample_env.
Proof.
  assert (shader sample_scene ≠ nullptr) as Hsh by done.
  assert (Safe (entry_state sample_env)) as HS by sample_Safe.
  split; [exact Hsh|]. split; [exact HS|].
  destruct (gui_begin_end_balanced sample_scene collapsed_input
              (entry_state sample_env) Hsh HS)
    as (e & t & w' & Hsel & E & _ & Hw & Ht).
  exists e, w'. split; [by rewrite E, Ht|]. split; [exact Hsel|exact Hw].
Defined.

(** ** The OpenGL debug callback *)

(** X18: the debug callback logs one line for a message of low, medium,
    high or notification severity and nothing for any other severity value;
    the line is logged as an error exactly for high severity; and it starts
    with the bracketed name of the source, which is [OTHER] for every source
    value that is not one of the five named ones. *)
Theorem GlDebugMessage_levels (gl : GLenums)
    (source type id severity length : Z) (message : string) :
  NoDup (severities gl) →
  (is_Some (GlDebugMessage gl source type id severity length message)
   ↔ severity ∈ severities gl)
  ∧ (fst <$> GlDebugMessage gl source type id severity length message
     = Some LOG_ERROR_level ↔ severity = GL_DEBUG_SEVERITY_HIGH gl)
  ∧ (∀ level text,
       GlDebugMessage gl source type id severity length message
       = Some (level, text) →
       text = "[" +:+ sourceTxt gl source +:+ "] " +:+ message)
  ∧ (source ∉ named_sources gl → sourceTxt gl source = "OTHER").
Proof.
  unfold severities, named_sources. intros Hnd.
  rewrite !NoDup_cons, !not_elem_of_cons in Hnd.
  destruct Hnd as ((Hlm & Hlh & Hln & _) & (Hmh & Hmn & _) & (Hhn & _) & _).
  split_and!.
  - unfold GlDebugMessage. rewrite !elem_of_cons, elem_of_nil.
    destruct (Z.eqb_spec severity (GL_DEBUG_SEVERITY_LOW gl));
      [split; [by left|by eexists]|].
    destruct (Z.eqb_spec severity (GL_DEBUG_SEVERITY_MEDIUM gl));
      [split; [by right; left|by eexists]|].
    destruct (Z.eqb_spec severity (GL_DEBUG_SEVERITY_HIGH gl));
      [split; [by right; right; left|by eexists]|].
    destruct (Z.eqb_spec severity (GL_DEBUG_SEVERITY_NOTIFICATION gl));
      [split; [by right; right; right; left|by eexists]|].
    split; [by intros [? ?]|]. tauto.
  - unfold GlDebugMessage.
    destruct (Z.eqb_spec severity (GL_DEBUG_SEVERITY_LOW gl));
      [split; [done|congruence]|].
    destruct (Z.eqb_spec severity (GL_DEBUG_SEVERITY_MEDIUM gl));
      [split; [done|congruence]|].
    destruct (Z.eqb_spec severity (GL_DEBUG_SEVERITY_HIGH gl)); [done|].
    destruct (Z.eqb_spec severity (GL_DEBUG_SEVERITY_NOTIFICATION gl));
      [split; [done|congruence]|].
    done.
  - intros level text. unfold GlDebugMessage.
    destruct (_ =? _); [by intros [= _ <-]|].
    destruct (_ =? _); [by intros [= _ <-]|].
    destruct (_ =? _); [by intros [= _ <-]|].
    destruct (_ =? _); [by intros [= _ <-]|done].
  - rewrite !not_elem_of_cons. intros (H1 & H2 & H3 & H4 & H5 & _).
    unfold sourceTxt.
    by rewrite !(proj2 (Z.eqb_neq _ _)) by done.
Qed.

Lemma GlDebugMessage_levels_witness :
  NoDup (severities khronos)
  ∧ GlDebugMessage khronos 0x8248 0x824C 7 0x9146 12 "syntax error"
    = Some (LOG_ERROR_level, "[SHADER] syntax error")
  ∧ (fst <$> GlDebugMessage khronos 0x8248 0x824C 7 0x9146 12 "syntax error"
     = Some LOG_ERROR_level ↔ 0x9146 = GL_DEBUG_SEVERITY_HIGH khronos).
Proof.
  assert (NoDup (severities khronos)) as Hnd.
  { apply (bool_decide_unpack _). by vm_compute. }
  split; [exact Hnd|]. split; [reflexivity|].
  apply (GlDebugMessage_levels khronos 0x8248 0x824C 7 0x9146 12 "syntax error" Hnd).
Defined.

(** ** Iterations and their states *)

(** X19: the iterations of a run are the frames run from the iteration
    states.  When the window and the context initialise, there is one
    iteration state per iteration made, each is safe (the ring-buffer index
    and the selection are in range, every controllable has its
    [SimpleMoveBehaviour], no render handle is null), and the trace of
    iteration [i] is the trace of [frame] from state [i] on input [i], which
    runs to completion. *)
Theorem iterations_run_from_safe_states (env : Env) (fuel : nat) :
  glfwInit_ok env = true → gladLoadGLLoader_ok env = true →
  ∃ sc,
    scene_of env = Some sc
    ∧ length (iteration_states env fuel) = open_iterations env fuel 0
    ∧ iterations env fuel
      = imap (λ i w, trace_of (frame sc (frame_input env i) w))
             (iteration_states env fuel)
    ∧ ∀ i w, iteration_states env fuel !! i = Some w →
        Safe w ∧ ∃ w', result_of (frame sc (frame_input env i) w) = Done () w'.
Proof.
  intros Hi Hg.
  destruct (startup_entry env Hi Hg) as (sc & Hsc & HI & Es & Et & _).
  exists sc. split; [done|]. split; [by apply iteration_states_length|].
  split; [by rewrite Et, Es, loop_iterations_states|].
  intros i w Hw.
  destruct (run_keeps env (λ _, Inv True (glfwCreateWindow_result env)) fuel Hi Hg)
    as [Hs _]; [intros; apply Inv_frame|done|].
  pose proof (Hs i w Hw) as HIw. split; [apply HIw|].
  destruct (frame_run True _ sc (frame_input env i) w
              (scene_of_shader _ _ Hsc) HIw)
    as (? & ? & ? & w' & _ & _ & _ & _ & _ & _ & Ef).
  exists w'. by rewrite Ef.
Qed.

Lemma iterations_run_from_safe_states_witness :
  glfwInit_ok three_frames_env = true
  ∧ gladLoadGLLoader_ok three_frames_env = true
  ∧ ∃ sc,
      scene_of three_frames_env = Some sc
      ∧ length (iteration_states three_frames_env 5) = 3%nat
      ∧ iterations three_frames_env 5
        = imap (λ i w, trace_of (frame sc (frame_input three_frames_env i) w))
               (iteration_states three_frames_env 5).
Proof.
  split; [reflexivity|]. split; [reflexivity|].
  destruct (iterations_run_from_safe_states three_frames_env 5 eq_refl eq_refl)
    as (sc & Hsc & Hl & Et & _).
  exists sc. split; [exact Hsc|]. split; [exact Hl|exact Et].
Defined.

(** * The iteration as a whole *)

(** ** The steps of an iteration, in order *)

Lemma frame_in_order p sc inp w :
  shader sc ≠ nullptr → Inv True p w →
  iteration_in_order sc inp w (trace_of (frame sc inp w)).
Proof.
  intros Hsh HI.
  destruct (frame_run True p sc inp w Hsh HI)
    as (t1 & w1 & tg & w' & E1 & HI1 & F1 & Eg & Fg & HI' & Ef).
  pose proof (Inv_sort True p w1 HI1) as HIs.
  destruct HI1 as ([_ _ _ _ Hh1] & HL & _).
  destruct (HL I) as [(e & bs & i & b & Hb1 & Hb2 & _ & Hb4) Ht Hg].
  destruct HIs as ([_ _ _ _ Hh] & _ & _).
  exists t1, w1, (set_renderGroup (sort_renderGroup (renderGroup w1)) w1), tg, w'.
  split_and!; try done.
  - apply update_behaviours_run.
  - by eapply behaviour_calls_nonempty.
  - apply update_world_matrices_run.
  - by apply transform_calls_nonempty.
  - by apply sort_pass_run.
  - by apply draw_renderGroup_run.
  - apply draw_pass_calls_nonempty. intros E.
    apply Hg, Permutation_nil_r.
    cbn [renderGroup set_renderGroup] in E. rewrite <- E.
    symmetry. apply sort_renderGroup_Permutation.
  - rewrite present_run. destruct HI as (_ & _ & Hw), HI' as (_ & _ & Hw').
    by rewrite Hw, Hw'.
  - by rewrite Ef.
  - rewrite Ef. by destruct HI as (_ & _ & ->).
Qed.

(** C4: in a run whose window and context initialisation succeeds, the
    trace is the start-up, followed by the iterations of the game loop, each
    introduced by its [glfwWindowShouldClose] test, followed by the shut-down
    if the window was closed; there is one iteration per test that found the
    window open; and every iteration runs, from the state the one before
    left, the input step, the behaviour scripts, the world-matrix update,
    the sort and the draw pass over the sorted group, the GUI and the buffer
    swap, each to completion, none of them empty, and its trace is their
    calls in exactly this order.  The body of the loop does so from every
    safe state of a non-empty scene, whatever order its render group is
    in, not only from the states a run reaches. *)
Theorem game_loop_steps_in_order (env : Env) (fuel : nat) :
  glfwInit_ok env = true → gladLoadGLLoader_ok env = true →
  trace_of (run env fuel)
  = trace_of (startup env World0)
    ++ flat_map (λ t, glfwWindowShouldClose (glfwCreateWindow_result env) :: t)
                (iterations env fuel)
    ++ (if closes_within env fuel 0
        then [glfwWindowShouldClose (glfwCreateWindow_result env);
              ImGui_Shutdown; Logger_Uninitialize]
        else [])
  ∧ length (iterations env fuel) = open_iterations env fuel 0
  ∧ (∀ i t, iterations env fuel !! i = Some t →
      ∃ sc w,
        scene_of env = Some sc
        ∧ iteration_states env fuel !! i = Some w
        ∧ iteration_in_order sc (frame_input env i) w t)
  ∧ (∀ sc inp w,
       shader sc ≠ nullptr → Safe w → Live w →
       iteration_in_order sc inp w (trace_of (frame sc inp w))).
Proof.
  intros Hi Hg. split_and!.
  - destruct (startup_run env Hi Hg)
      as (ts & sc & w0 & E0 & _ & HI & _ & _ & Hsh & Em).
    unfold run, iterations, trace_of. rewrite Em, E0. cbn [fst].
    destruct (game_loop_run env sc _ fuel Hsh 0 w0 HI) as (Ht & _ & _ & Hr).
    rewrite main_epilogue. f_equal.
    destruct (game_loop env sc fuel 0 w0) as [t r]. simpl in Ht, Hr. subst t.
    destruct (closes_within env fuel 0).
    + destruct Hr as (w' & -> & _). simpl. by rewrite <- !app_assoc.
    + rewrite Hr. done.
  - destruct (startup_entry env Hi Hg) as (sc & Hsc & HI & Es & Et & _).
    rewrite Et, loop_iterations_states, length_imap, <- Es.
    by apply iteration_states_length.
  - intros i t Ht.
    destruct (startup_entry env Hi Hg) as (sc & Hsc & HI & Es & Et & _).
    destruct (run_keeps env (λ _, Inv True (glfwCreateWindow_result env))
                fuel Hi Hg) as [Hs _]; [intros; apply Inv_frame|done|].
    specialize (Hs i).
    rewrite Et, loop_iterations_states, <- Es, list_lookup_imap in Ht.
    destruct (iteration_states env fuel !! i) as [w|] eqn:Ew; [|done].
    simpl in Ht. injection Ht as <-.
    exists sc, w. split; [done|]. split; [done|].
    eapply frame_in_order; [by eapply scene_of_shader|by apply Hs].
  - intros sc inp w Hsh HS HL.
    apply (frame_in_order (window w)); [done|by split_and!].
Qed.

Lemma game_loop_steps_in_order_witness :
  glfwInit_ok three_frames_env = true
  ∧ gladLoadGLLoader_ok three_frames_env = true
  ∧ length (iterations three_frames_env 5) = 3%nat
  ∧ (∀ i t, iterations three_frames_env 5 !! i = Some t →
      ∃ sc w,
        scene_of three_frames_env = Some sc
        ∧ iteration_states three_frames_env 5 !! i = Some w
        ∧ iteration_in_order sc (frame_input three_frames_env i) w t)
  ∧ ∃ sc,
      scene_of three_frames_env = Some sc
      ∧ shader sc ≠ nullptr
      ∧ Safe (entry_state three_frames_env)
      ∧ Live (entry_state three_frames_env)
      ∧ iteration_in_order sc quiet_input (entry_state three_frames_env)
          (trace_of (frame sc quiet_input (entry_state three_frames_env))).
Proof.
  split; [reflexivity|]. split; [reflexivity|].
  destruct (game_loop_steps_in_order three_frames_env 5 eq_refl eq_refl)
    as (_ & Hl & Ho & Hf).
  split; [exact Hl|]. split; [exact Ho|].
  destruct (startup_entry three_frames_env eq_refl eq_refl)
    as (sc & Hsc & (HS & HL & _) & _).
  pose proof (scene_of_shader _ _ Hsc) as Hsh.
  exists sc. split; [exact Hsc|]. split; [exact Hsh|]. split; [exact HS|].
  split; [exact (HL I)|]. exact (Hf sc quiet_input _ Hsh HS (HL I)).
Defined.

(** ** The draw pass within the iteration *)

(** C1: the comparator of the render-group sort is the lexicographic order
    on (render layer, shader pointer, material pointer); it calls two
    renderers equivalent exactly when the three keys agree; in any order of
    the group that is sorted with respect to it (no entry compares less than
    an earlier one), no entry has a render layer above that of a later
    entry; the sort leaves the group, with all its entries, in such an
    order; and within a frame that starts in a safe state the draw pass goes
    over such an order [g] of the render group: the frame makes the calls of
    one draw pass over [g], binds, applies and draws nothing before or after
    them, and so renders the meshes of [g] in the order of [g], a higher
    render layer after every lower one. *)
Theorem render_order_by_layer_shader_material :
  (∀ l r, RenderLess l r = key_ltb (key l) (key r))
  ∧ (∀ l r, negb (RenderLess l r) && negb (RenderLess r l) = key_eqb (key l) (key r))
  ∧ (∀ g, StronglySorted not_after g → StronglySorted layer_le g)
  ∧ (∀ g, sort_renderGroup g ≡ₚ g ∧ StronglySorted not_after (sort_renderGroup g))
  ∧ (∀ sc inp w, Safe w →
       ∃ g t_before t_after,
         g ≡ₚ renderGroup w
         ∧ StronglySorted not_after g ∧ StronglySorted layer_le g
         ∧ trace_of (frame sc inp w)
           = t_before ++ draw_pass_calls None g ++ t_after
         ∧ List.filter is_draw_switch t_before = []
         ∧ List.filter is_draw_switch t_after = []
         ∧ List.filter is_vao_render (trace_of (frame sc inp w))
           = map (λ r, VertexArrayObject_Render (Mesh (renderer r))) g).
Proof.
  split; [exact RenderLess_key_ltb|]. split_and!.
  - intros l r. by rewrite !RenderLess_key_ltb, key_eqb_incomparable.
  - apply not_after_layer_le.
  - intros g. split; [apply sort_renderGroup_Permutation|].
    apply sort_renderGroup_sorted.
  - intros sc inp w HS.
    destruct (frame_draws _ _ sc inp w (Safe_Inv w HS))
      as (tb & ta & Ef & Fb & Fa).
    exists (sort_renderGroup (renderGroup w)), tb, ta.
    split_and!; try done.
    + apply sort_renderGroup_Permutation.
    + apply sort_renderGroup_sorted.
    + apply not_after_layer_le, sort_renderGroup_sorted.
    + rewrite Ef, !List.filter_app, draw_pass_calls_renders.
      rewrite (filter_draw_switch_vao tb), (filter_draw_switch_vao ta) by done.
      by rewrite app_nil_r.
Qed.

Lemma render_order_by_layer_shader_material_witness :
  Safe sample_world
  ∧ ∃ g t_before t_after,
      g ≡ₚ renderGroup sample_world
      ∧ StronglySorted layer_le g
      ∧ trace_of (frame sample_scene quiet_input sample_world)
        = t_before ++ draw_pass_calls None g ++ t_after
      ∧ List.filter is_vao_render
          (trace_of (frame sample_scene quiet_input sample_world))
        = map (λ r, VertexArrayObject_Render (Mesh (renderer r))) g.
Proof.
  assert (Safe sample_world) as HS by sample_Safe.
  split; [exact HS|].
  destruct render_order_by_layer_shader_material as (_ & _ & _ & _ & H).
  destruct (H sample_scene quiet_input sample_world HS)
    as (g & tb & ta & Hp & _ & Hl & Ef & _ & _ & Er).
  exists g, tb, ta. split; [exact Hp|]. split; [exact Hl|].
  split; [exact Ef|exact Er].
Defined.

(** C2: when every handle of the group is non-null, the draw pass runs to
    completion and makes exactly the calls [draw_pass_calls] lists: for each
    renderable, in group order, a shader set-up (bind and the four per-frame
    uniforms) if and only if it is the first or its shader differs from its
    predecessor's, then a material [Apply] if and only if it is the first or
    its material pointer differs from its predecessor's, then the calls of
    one [RenderVAO].  Read off that trace: the binds, the [Apply]s and the
    mesh renders that occur.  The draw pass of the frame is this loop over
    the render group as it stands; and a frame that starts in a safe state
    makes the calls of one such pass, over the sorted render group, and
    binds, applies and draws nothing before or after them. *)
Theorem draw_pass_switches_on_change (g : list Renderable) (w : World) :
  forallb valid_handles g = true →
  draw_each (nullptr, nullptr) g w = (draw_pass_calls None g, Done () w)
  ∧ List.filter is_shader_bind (draw_pass_calls None g)
    = flat_map (λ pr, if shader_differs pr.1 pr.2
                      then [Shader_Bind (shader_of (renderer pr.2));
                            Shader_Bind (shader_of (renderer pr.2))]
                      else [])
               (zip (None :: map Some g) g)
  ∧ List.filter is_material_apply (draw_pass_calls None g)
    = flat_map (λ pr, if material_differs pr.1 pr.2
                      then [ShaderMaterial_Apply (material_of (renderer pr.2))]
                      else [])
               (zip (None :: map Some g) g)
  ∧ List.filter is_vao_render (draw_pass_calls None g)
    = map (λ r, VertexArrayObject_Render (Mesh (renderer r))) g
  ∧ draw_renderGroup (set_renderGroup g w)
    = (draw_pass_calls None g, Done () (set_renderGroup g w))
  ∧ (∀ sc inp w0, Safe w0 →
       ∃ t_before t_after,
         trace_of (frame sc inp w0)
         = t_before
           ++ draw_pass_calls None (sort_renderGroup (renderGroup w0))
           ++ t_after
         ∧ List.filter is_draw_switch t_before = []
         ∧ List.filter is_draw_switch t_after = []).
Proof.
  intros Hv. split; [by apply (draw_each_run g _ None)|]. split_and!.
  - apply draw_pass_calls_binds.
  - apply draw_pass_calls_material_applies.
  - apply draw_pass_calls_renders.
  - by apply (draw_renderGroup_run (set_renderGroup g w)).
  - intros sc inp w0 HS. apply (frame_draws _ _ sc inp w0 (Safe_Inv w0 HS)).
Qed.

Lemma draw_pass_switches_on_change_witness :
  forallb valid_handles sample_group = true
  ∧ Safe sample_world
  ∧ draw_each (nullptr, nullptr) sample_group World0
    = (draw_pass_calls None sample_group, Done () World0)
  ∧ ∃ t_before t_after,
      trace_of (frame sample_scene quiet_input sample_world)
      = t_before
        ++ draw_pass_calls None (sort_renderGroup (renderGroup sample_world))
        ++ t_after
      ∧ List.filter is_draw_switch t_before = []
      ∧ List.filter is_draw_switch t_after = [].
Proof.
  assert (Safe sample_world) as HS by sample_Safe.
  split; [reflexivity|]. split; [exact HS|].
  destruct (draw_pass_switches_on_change sample_group World0 eq_refl)
    as (E & _ & _ & _ & _ & Hf).
  split; [exact E|]. apply (Hf sample_scene quiet_input sample_world HS).
Defined.

(** ** The window and its size *)

Lemma window_size_foldl (l : list (Z * Z)) : ∀ w,
  window_size (foldl (λ w sz, set_window_size sz w) w l)
  = default (window_size w) (last l).
Proof.
  induction l as [|sz l IH]; intros w; [done|].
  cbn [foldl]. rewrite IH. rewrite last_cons.
  by destruct (last l).
Qed.

Lemma delivered_sizes_S env k :
  delivered_sizes env (S k)
  = delivered_sizes env k ++ size_events (frame_input env k).
Proof.
  unfold delivered_sizes. rewrite seq_S, flat_map_app. simpl.
  by rewrite app_nil_r.
Qed.

Lemma default_last_app {A} (d : A) (l1 l2 : list A) :
  default d (last (l1 ++ l2)) = default (default d (last l1)) (last l2).
Proof.
  destruct l2 as [|x l2 _] using rev_ind.
  - by rewrite app_nil_r.
  - by rewrite app_assoc, !last_snoc.
Qed.

(** After [k] iterations the window has the size of the last size event
    delivered so far, and the size it was created with when there was
    none. *)
Lemma window_size_frame env sc k :
  keeps (λ w, window_size w = default (800, 800) (last (delivered_sizes env k)))
        (frame sc (frame_input env k))
        (λ _ w, window_size w
                = default (800, 800) (last (delivered_sizes env (S k)))).
Proof.
  set (Q := λ w : World,
         window_size w = default (800, 800) (last (delivered_sizes env (S k)))).
  assert (keeps Q toggle_KP_ADD (λ _ w, Q w)) as Ha
    by (by apply toggle_KP_ADD_keeps).
  assert (keeps Q toggle_KP_SUBTRACT (λ _ w, Q w)) as Hs
    by (by apply toggle_KP_SUBTRACT_keeps).
  unfold frame.
  eapply keeps_bind with (Q := λ _ w, Q w);
    [|intros []; by apply after_input_keeps].
  unfold handle_input.
  eapply keeps_bind with (Q := λ _ w, Q w).
  { intros w t a w' E Hw. rewrite PollEvents_run in E.
    apply Done_eq_inv in E as (_ & _ & <-). unfold Q.
    by rewrite window_size_foldl, Hw, delivered_sizes_S, default_last_app. }
  intros []. eapply keeps_bind; [apply keeps_reads, reads_call|]. intros [].
  eapply keeps_bind with (Q := λ _ w, Q w).
  { intros w t a w'. unfold fpsBuffer_store.
    destruct (_ && _); [|done]. by intros [= _ _ <-]. }
  intros []. eapply keeps_bind with (Q := λ _ w, Q w).
  { unfold frameIx_advance.
    eapply keeps_bind; [by apply (keeps_modify Q Q)|].
    intros []. eapply keeps_bind; [apply keeps_reads, reads_get|]. intros w.
    destruct (_ >=? _); [|apply keeps_ret].
    by apply (keeps_modify Q Q). }
  intros []. eapply keeps_bind; [apply keeps_reads, reads_call|]. intros [].
  destruct (negb _); [by apply watchers_keeps|apply keeps_ret].
Qed.

Lemma entry_state_window_size env :
  glfwInit_ok env = true → window_size (entry_state env) = (800, 800).
Proof.
  destruct env as [i_ok win g_ok addr layer close input].
  simpl. intros ->. by destruct g_ok; vm_compute.
Qed.

(** C8 (as amended): a run calls [glfwCreateWindow] once, for an 800 by 800
    window, when [glfwInit] succeeds and not at all otherwise, and then
    registers the window-size callback, once; the size is not fixed after
    that: for every size event that [glfwPollEvents] delivers, the callback
    sets the viewport to the new size and resizes every camera, and the
    window ends the iteration with the size of the last event; so a run
    whose initialisation succeeds returns with the window at the size of the
    last event delivered to it, and at 800 by 800 only when there was
    none. *)
Theorem one_window_created_resizable :
  (∀ env fuel,
     List.filter is_create_window (trace_of (run env fuel))
     = if glfwInit_ok env then [glfwCreateWindow 800 800 "INFR1350U"] else [])
  ∧ (∀ env fuel,
       List.filter is_set_size_callback (trace_of (run env fuel))
       = if glfwInit_ok env
         then [glfwSetWindowSizeCallback (glfwCreateWindow_result env)] else [])
  ∧ (∀ inp w,
       PollEvents inp w
       = (glfwPollEvents
            :: flat_map (resize_calls (elements (cameras w))) (size_events inp),
          Done () (foldl (λ w sz, set_window_size sz w) w (size_events inp))))
  ∧ (∀ env fuel code w,
       glfwInit_ok env = true → gladLoadGLLoader_ok env = true →
       result_of (run env fuel) = Done code w →
       window_size w
       = default (800, 800)
                 (last (delivered_sizes env (open_iterations env fuel 0)))).
Proof.
  split_and!.
  - intros env fuel.
    destruct (run_shape env fuel) as (rest & -> & Hrest & _).
    rewrite List.filter_app, (filter_after_init _ rest); [|by intros []|done].
    unfold init_calls.
    by destruct (glfwInit_ok env), (gladLoadGLLoader_ok env).
  - intros env fuel.
    destruct (run_shape env fuel) as (rest & -> & Hrest & _).
    rewrite List.filter_app, (filter_after_init _ rest); [|by intros []|done].
    unfold init_calls.
    by destruct (glfwInit_ok env), (gladLoadGLLoader_ok env).
  - apply PollEvents_run.
  - intros env fuel code w Hi Hg Hr.
    destruct (run_keeps env
                (λ k w, window_size w
                        = default (800, 800) (last (delivered_sizes env k)))
                fuel Hi Hg) as [_ Hret].
    + intros sc n. apply window_size_frame.
    + by apply entry_state_window_size.
    + by eapply Hret.
Qed.

Lemma one_window_created_resizable_witness :
  glfwInit_ok resize_env = true ∧ gladLoadGLLoader_ok resize_env = true
  ∧ ∃ w, result_of (run resize_env 2) = Done 0 w
       ∧ window_size w = (1024, 768).
Proof.
  split; [reflexivity|]. split; [reflexivity|].
  destruct (result_of (run resize_env 2)) as [code w| |] eqn:E;
    [|by vm_compute in E..].
  assert (code = 0) as -> by (vm_compute in E; by injection E as <- _).
  exists w. split; [reflexivity|].
  destruct one_window_created_resizable as (_ & _ & _ & H).
  apply (H resize_env 2%nat 0 w eq_refl eq_refl E).
Defined.

(** C8 (as stated) fails: in [resize_env] the window is created and the
    program returns with a window of 1024 by 768. *)
Lemma window_size_not_fixed : ¬ window_size_fixed.
Proof.
  intros H.
  specialize (H resize_env 2%nat).
  destruct (result_of (run resize_env 2)) as [code w| |] eqn:E;
    [|by vm_compute in E|by vm_compute in E].
  specialize (H code w eq_refl eq_refl).
  vm_compute in E. injection E as <- <-. by vm_compute in H.
Qed.
